(** * Huffman byte-stream codec of compress.py: model and verification

    The development follows src/compress.py function by function.
    Python values are modelled as follows.
    - [bytes] is [list byte]; a bit tuple (elements 0 and 1) is [list bool]
      with [false] for 0 and [true] for 1.
    - Python integers are [Z]; indices produced by [enumerate] are [nat].
    - a [dict] is an association list in insertion order; assigning to an
      existing key keeps its position (the order Python iterates in).
    - a raised exception is the [Raise] case of [result].
    - [heapq] is modelled by its contract: [heappop] removes a least item.
      The items of compress.py carry pairwise distinct [(freq, i)] keys
      (lemma [huffman_loop_indices] below), so the least item is unique, the
      comparison never reaches the tree part of an item, and the array
      layout of the heap cannot be observed (lemmas [huffman_step_perm] and
      [huffman_loop_order_irrelevant]).
    - a loop is a function with an iteration bound; [OutOfFuel] marks a
      loop that would go on past its bound, which the lemmas on
      [huffman_loop] and [decode_loop] exclude. *)

From Stdlib Require Import String Strings.Byte.
From Stdlib Require Import ZArith List Bool Lia Permutation.
Import ListNotations.

Local Open Scope Z_scope.

(* ================================================================== *)
(** ** Python runtime *)

Inductive exn : Type :=
| ValueError (msg : string)
| KeyError
| IndexError
| OverflowError
| OutOfFuel.

Inductive result (A : Type) : Type :=
| Ok (a : A)
| Raise (e : exn).

Arguments Ok {A} a.
Arguments Raise {A} e.

Definition bind {A B : Type} (r : result A) (k : A -> result B) : result B :=
  match r with
  | Ok a => k a
  | Raise e => Raise e
  end.

Notation "x <- r ;; k" := (bind r (fun x => k))
  (at level 61, r at next level, right associativity).

Fixpoint list_eqb {A : Type} (eqb : A -> A -> bool) (l1 l2 : list A) : bool :=
  match l1, l2 with
  | [], [] => true
  | a :: l1', b :: l2' => eqb a b && list_eqb eqb l1' l2'
  | _, _ => false
  end.

Section Dict.
Context {K V : Type}.
Variable eqb : K -> K -> bool.

(** [d.get(k)] *)
Fixpoint dict_get (d : list (K * V)) (k : K) : option V :=
  match d with
  | [] => None
  | (k', v) :: d' => if eqb k' k then Some v else dict_get d' k
  end.

(** [d[k] = v] *)
Fixpoint dict_set (d : list (K * V)) (k : K) (v : V) : list (K * V) :=
  match d with
  | [] => [(k, v)]
  | (k', v') :: d' =>
      if eqb k' k then (k', v) :: d' else (k', v') :: dict_set d' k v
  end.
End Dict.

(** [enumerate(l)] *)
Definition enumerate {A : Type} (l : list A) : list (nat * A) :=
  combine (seq 0 (length l)) l.

(** [l[:n]] and [l[n:]] for an integer [n >= 0]; a bound past the end is
    clipped, as Python slicing does. *)
Fixpoint take {A : Type} (n : Z) (l : list A) : list A :=
  match l with
  | [] => []
  | x :: t => if n <=? 0 then [] else x :: take (n - 1) t
  end.

Fixpoint drop {A : Type} (n : Z) (l : list A) : list A :=
  match l with
  | [] => []
  | x :: t => if n <=? 0 then l else drop (n - 1) t
  end.

(** [l[a:b]] *)
Definition slice {A : Type} (l : list A) (a b : Z) : list A :=
  take (b - a) (drop a l).

(** [itertools.batched(l, n)] for [n >= 1]. *)
Fixpoint batched_fuel {A : Type} (fuel n : nat) (l : list A) : list (list A) :=
  match fuel with
  | O => []
  | S f =>
      match l with
      | [] => []
      | _ :: _ => firstn n l :: batched_fuel f n (skipn n l)
      end
  end.

Definition batched {A : Type} (l : list A) (n : nat) : list (list A) :=
  batched_fuel (length l) n l.

Definition Z_of_byte (b : byte) : Z := Z.of_N (Byte.to_N b).

Definition byte_of_Z (z : Z) : byte :=
  match Byte.of_N (Z.to_N z) with
  | Some b => b
  | None => x00
  end.

(** An integer handed to [bytes(...)]: accepted in [range(256)] only. *)
Definition byte_of_int (z : Z) : result byte :=
  if (0 <=? z) && (z <? 256) then Ok (byte_of_Z z)
  else Raise (ValueError "bytes must be in range(0, 256)").

Fixpoint be_digits (len : nat) (n : Z) : list byte :=
  match len with
  | O => []
  | S k => be_digits k (n / 256) ++ [byte_of_Z (n mod 256)]
  end.

(** [n.to_bytes(len)], big-endian, unsigned. *)
Definition to_bytes (n : Z) (len : nat) : result (list byte) :=
  if (0 <=? n) && (n <? 256 ^ Z.of_nat len) then Ok (be_digits len n)
  else Raise OverflowError.

(** [int.from_bytes(bs)], big-endian, unsigned. *)
Definition from_bytes (bs : list byte) : Z :=
  fold_left (fun acc b => acc * 256 + Z_of_byte b) bs 0.

(** [collections.Counter(s)] *)
Definition Counter_add (d : list (byte * Z)) (b : byte) : list (byte * Z) :=
  dict_set Byte.eqb d b
    (match dict_get Byte.eqb d b with Some c => c | None => 0 end + 1).

Definition Counter (s : list byte) : list (byte * Z) :=
  fold_left Counter_add s [].

(* ================================================================== *)
(** ** Bit vectors (compress.py lines 12-23) *)

(** [itertools.product((0, 1), repeat=n)], in the order it is generated. *)
Fixpoint product01 (n : nat) : list (list bool) :=
  match n with
  | O => [[]]
  | S k => map (cons false) (product01 k) ++ map (cons true) (product01 k)
  end.

Definition all_bytes : list byte :=
  map (fun i => byte_of_Z (Z.of_nat i)) (seq 0 256).

Definition byte_to_bits_dict : list (byte * list bool) :=
  Eval vm_compute in combine all_bytes (product01 8).

Definition bits_to_byte_dict : list (list bool * byte) :=
  Eval vm_compute in map (fun '(i, b) => (b, i)) byte_to_bits_dict.

(** [byte_to_bits[i]]; every byte is a key (lemma [byte_to_bits_key]). *)
Definition byte_to_bits (i : byte) : list bool :=
  match dict_get Byte.eqb byte_to_bits_dict i with
  | Some b => b
  | None => []
  end.

(** [bits_to_byte[b]]; every 8-bit tuple is a key (lemma
    [bits_to_byte_key]), and [bits_to_bytes] looks up nothing else. *)
Definition bits_to_byte (b : list bool) : byte :=
  match dict_get (list_eqb Bool.eqb) bits_to_byte_dict b with
  | Some i => i
  | None => x00
  end.

Definition bits_to_bytes (bits : list bool) : list byte :=
  map (fun b => bits_to_byte (b ++ repeat false (8 - length b)))
      (batched bits 8).

Definition bytes_to_bits (bs : list byte) : list bool :=
  flat_map byte_to_bits bs.

(* ================================================================== *)
(** ** compress (compress.py lines 26-103) *)

(** A heap item with its priority tuple stripped: [(val,)] or [(l, r)]. *)
Inductive HuffmanTree : Type :=
| Leaf (data : byte)
| Node (l r : HuffmanTree).

Definition priority : Type := (Z * nat)%type.

(** A heap item [((freq, i), val)] or [((freq, i), l, r)]. *)
Definition item : Type := (priority * HuffmanTree)%type.

Definition PrefixTable : Type := list (byte * list bool).

Definition merge (l r : item) : item :=
  let '((lf, li), l) := l in
  let '((rf, ri), r) := r in
  let priority := (lf + rf, Nat.min li ri) in
  if lf <=? rf then (priority, Node l r) else (priority, Node r l).

(** Tuple comparison of two priorities. *)
Definition priority_leb (p q : priority) : bool :=
  let '(pf, pi) := p in
  let '(qf, qi) := q in
  (pf <? qf) || ((pf =? qf) && (pi <=? qi)%nat).

(** [heapq.heappop]: a least item and the remaining items. *)
Fixpoint heappop (pq : list item) : option (item * list item) :=
  match pq with
  | [] => None
  | x :: rest =>
      match heappop rest with
      | None => Some (x, [])
      | Some (m, rest') =>
          if priority_leb (fst x) (fst m) then Some (x, rest)
          else Some (m, x :: rest')
      end
  end.

(** [heapq.heappush] and [heapq.heapify]: the queue holds the same items,
    in an order [heappop] does not depend on. *)
Definition heappush (pq : list item) (n : item) : list item := n :: pq.

Definition heapify (pq : list item) : list item := pq.

(** One iteration of the [while len(pq) > 1] loop. *)
Definition huffman_step (pq : list item) : option (list item) :=
  match heappop pq with
  | None => None
  | Some (l, pq1) =>
      match heappop pq1 with
      | None => None
      | Some (r, pq2) => Some (heappush pq2 (merge l r))
      end
  end.

Fixpoint huffman_loop (fuel : nat) (pq : list item) : result (list item) :=
  if (1 <? length pq)%nat then
    match fuel with
    | O => Raise OutOfFuel
    | S f =>
        match huffman_step pq with
        | None => Raise IndexError
        | Some pq' => huffman_loop f pq'
        end
    end
  else Ok pq.

Definition initial_pq (freqs : list (byte * Z)) : list item :=
  map (fun '(i, (val, freq)) => ((freq, i), Leaf val)) (enumerate freqs).

Definition build_huffman_tree (freqs : list (byte * Z)) : result HuffmanTree :=
  let pq := heapify (initial_pq freqs) in
  pq <- huffman_loop (length pq) pq ;;
  match pq with
  | [] => Raise IndexError
  | root :: _ => Ok (snd root)
  end.

(** [visit], threading the dictionary [d] it writes to. *)
Fixpoint visit (node : HuffmanTree) (path : list bool) (d : PrefixTable)
  : PrefixTable :=
  match node with
  | Leaf data => dict_set Byte.eqb d data path
  | Node l r => visit r (path ++ [true]) (visit l (path ++ [false]) d)
  end.

Definition build_table_from_huffman (root : HuffmanTree) : PrefixTable :=
  visit root [] [].

Definition build_optimal_prefix_table (freqs : list (byte * Z))
  : result PrefixTable :=
  root <- build_huffman_tree freqs ;;
  Ok (build_table_from_huffman root).

(** [itertools.chain.from_iterable(map(lambda i: prefix_table[i], s))] *)
Fixpoint encode (prefix_table : PrefixTable) (s : list byte)
  : result (list bool) :=
  match s with
  | [] => Ok []
  | i :: s' =>
      match dict_get Byte.eqb prefix_table i with
      | None => Raise KeyError
      | Some p => rest <- encode prefix_table s' ;; Ok (p ++ rest)
      end
  end.

(** The bytes one table entry yields. *)
Definition prefix_entry_to_bytes (e : byte * list bool) : result (list byte) :=
  let '(i, prefix) := e in
  n <- byte_of_int (Z.of_nat (length prefix)) ;;
  Ok (i :: n :: bits_to_bytes (prefix ++ repeat false (64 - length prefix))).

Fixpoint prefix_table_to_bytes (prefix_table : PrefixTable)
  : result (list byte) :=
  match prefix_table with
  | [] => Ok []
  | e :: rest =>
      b <- prefix_entry_to_bytes e ;;
      bs <- prefix_table_to_bytes rest ;;
      Ok (b ++ bs)
  end.

Definition InvalidInput : exn :=
  ValueError "must be more than one unique byte in input".

Definition compress (s : list byte) : result (list byte) :=
  let freqs := Counter s in
  if (length freqs <? 2)%nat then Raise InvalidInput
  else
    prefix_table <- build_optimal_prefix_table freqs ;;
    data_bits <- encode prefix_table s ;;
    let data_bytes := bits_to_bytes data_bits in
    let num_data_bits := Z.of_nat (length data_bits) in
    prefix_bytes <- prefix_table_to_bytes prefix_table ;;
    let num_prefixes := Z.of_nat (length prefix_table) in
    h1 <- to_bytes num_data_bits 8 ;;
    h2 <- to_bytes num_prefixes 8 ;;
    Ok (h1 ++ h2 ++ prefix_bytes ++ data_bytes).

(* ================================================================== *)
(** ** decompress (compress.py lines 106-165) *)

Inductive PrefixTree : Type :=
| PNone
| PLeaf (data : byte)
| PNode (l r : PrefixTree).

Definition unreachable {A : Type} : result A :=
  Raise (ValueError "unreachable").

(** [for data, pathlen, *path in itertools.batched(prefix_bytes, 10)] *)
Fixpoint recover_prefix_table (batches : list (list byte)) (d : PrefixTable)
  : result PrefixTable :=
  match batches with
  | [] => Ok d
  | (data :: pathlen :: path) :: rest =>
      recover_prefix_table rest
        (dict_set Byte.eqb d data
           (take (Z_of_byte pathlen) (bytes_to_bits path)))
  | _ :: _ =>
      Raise (ValueError "not enough values to unpack (expected at least 2, got 1)")
  end.

Fixpoint add (node : PrefixTree) (path : list bool) (data : byte)
  : result PrefixTree :=
  match node, path with
  | PNone, [] => Ok (PLeaf data)
  | PNone, bit :: rest =>
      t <- add PNone rest data ;;
      Ok (if negb bit then PNode t PNone else PNode PNone t)
  | PNode l r, bit :: rest =>
      if negb bit then (t <- add l rest data ;; Ok (PNode t r))
      else (t <- add r rest data ;; Ok (PNode l t))
  | _, _ => unreachable
  end.

Fixpoint add_all (root : PrefixTree) (prefix_table : PrefixTable)
  : result PrefixTree :=
  match prefix_table with
  | [] => Ok root
  | (data, prefix) :: rest =>
      root' <- add root prefix data ;;
      add_all root' rest
  end.

Definition build_prefix_tree (prefix_table : PrefixTable) : result PrefixTree :=
  add_all (PNode PNone PNone) prefix_table.

(** The [while True] loop of [decode_data_bits]; the yielded bytes are
    collected in order, and [StopIteration] from [next(bits)] ends it. *)
Fixpoint decode_loop (fuel : nat) (prefix_tree node : PrefixTree)
  (bits : list bool) : result (list byte) :=
  match fuel with
  | O => Raise OutOfFuel
  | S f =>
      match node with
      | PLeaf data =>
          out <- decode_loop f prefix_tree prefix_tree bits ;;
          Ok (data :: out)
      | PNode l r =>
          match bits with
          | [] => Ok []
          | bit :: bits' =>
              decode_loop f prefix_tree (if negb bit then l else r) bits'
          end
      | PNone => unreachable
      end
  end.

(** Each iteration reads a bit or yields a byte, and the root of the trie
    [build_prefix_tree] returns is an internal node, so no two yields
    follow each other: [2 * len(data_bits) + 2] iterations are enough. *)
Definition decode_data_bits (prefix_tree : PrefixTree) (data_bits : list bool)
  : result (list byte) :=
  decode_loop (2 * length data_bits + 2) prefix_tree prefix_tree data_bits.

Definition decompress (s : list byte) : result (list byte) :=
  let num_data_bits := from_bytes (take 8 s) in
  let num_prefixes := from_bytes (slice s 8 16) in
  let start_of_prefix_seg := 16 in
  let end_of_prefix_seg := 16 + num_prefixes * 10 in
  let prefix_bytes := slice s start_of_prefix_seg end_of_prefix_seg in
  let data_bytes := drop end_of_prefix_seg s in
  prefix_table <- recover_prefix_table (batched prefix_bytes 10) [] ;;
  prefix_tree <- build_prefix_tree prefix_table ;;
  let data_bits := bytes_to_bits data_bytes in
  let data_bits := take num_data_bits data_bits in
  decode_data_bits prefix_tree data_bits.

(** [decompress(compress(x))] *)
Definition roundtrip (x : list byte) : result (list byte) :=
  c <- compress x ;; decompress c.

(* ================================================================== *)
(** ** Vocabulary of the statements *)

(** The symbols at the leaves of a tree, left to right. *)
Fixpoint leaves (t : HuffmanTree) : list byte :=
  match t with
  | Leaf data => [data]
  | Node l r => leaves l ++ leaves r
  end.

(** The table entries [visit] records below [node], in the order it
    records them. *)
Fixpoint paths (node : HuffmanTree) (path : list bool) : PrefixTable :=
  match node with
  | Leaf data => [(data, path)]
  | Node l r => paths l (path ++ [false]) ++ paths r (path ++ [true])
  end.

Definition priority_le (p q : priority) : Prop :=
  fst p < fst q \/ (fst p = fst q /\ (snd p <= snd q)%nat).

Definition priority_lt (p q : priority) : Prop :=
  fst p < fst q \/ (fst p = fst q /\ (snd p < snd q)%nat).

Definition indices (pq : list item) : list nat :=
  map (fun x : item => snd (fst x)) pq.

Definition all_leaves (pq : list item) : list byte :=
  flat_map (fun x : item => leaves (snd x)) pq.

Definition is_prefix (p q : list bool) : Prop := exists r, q = p ++ r.

Definition prefix_free (table : PrefixTable) : Prop :=
  forall a pa b pb,
    In (a, pa) table -> In (b, pb) table -> a <> b -> ~ is_prefix pa pb.

(** The decode-side trie that has the shape of a Huffman tree. *)
Fixpoint embed (t : HuffmanTree) : PrefixTree :=
  match t with
  | Leaf data => PLeaf data
  | Node l r => PNode (embed l) (embed r)
  end.

(** [graft T p X]: the trie [T] with [X] put at position [p]. *)
Fixpoint graft (T : PrefixTree) (p : list bool) (X : PrefixTree) : PrefixTree :=
  match p with
  | [] => X
  | bit :: rest =>
      match T with
      | PNode l r =>
          if negb bit then PNode (graft l rest X) r
          else PNode l (graft r rest X)
      | _ =>
          if negb bit then PNode (graft PNone rest X) PNone
          else PNode PNone (graft PNone rest X)
      end
  end.

(** Position [p] of the trie [T] is not occupied yet. *)
Fixpoint vacant (T : PrefixTree) (p : list bool) : Prop :=
  match T, p with
  | PNone, _ => True
  | PNode l r, bit :: rest => vacant (if negb bit then l else r) rest
  | _, _ => False
  end.

(** At least two distinct byte values occur in [s]. *)
Definition two_distinct (s : list byte) : Prop :=
  exists a b, a <> b /\ In a s /\ In b s.

(** The queue after [n] iterations of the merge loop. *)
Fixpoint after_merges (n : nat) (pq : list item) : option (list item) :=
  match n with
  | O => Some pq
  | S k =>
      match huffman_step pq with
      | None => None
      | Some pq' => after_merges k pq'
      end
  end.

(** The bytes of one serialized table entry. *)
Definition record (e : byte * list bool) : list byte :=
  fst e :: byte_of_Z (Z.of_nat (length (snd e)))
        :: bits_to_bytes (snd e ++ repeat false (64 - length (snd e))).

(** The buffer that holds, for each [(b, n)] in turn, [n] copies of [b]. *)
Definition runs (l : list (byte * Z)) : list byte :=
  flat_map (fun e => repeat (fst e) (Z.to_nat (snd e))) l.

(** The number of bits [encode] produces for [runs l]. *)
Definition runs_size (table : PrefixTable) (l : list (byte * Z)) : Z :=
  fold_right
    (fun e acc =>
       snd e * match dict_get Byte.eqb table (fst e) with
               | Some p => Z.of_nat (length p)
               | None => 0
               end + acc)
    0 l.

Fixpoint fib_list (n : nat) (a b : Z) : list Z :=
  match n with
  | O => []
  | S k => a :: fib_list k b (a + b)
  end.

(** Bytes 0 to 65 with the Fibonacci numbers 1, 1, 2, 3, 5, ... as counts. *)
Definition fib_freqs : list (byte * Z) :=
  Eval vm_compute in combine (firstn 66 all_bytes) (fib_list 66 1 1).

(** A buffer of 72723460248140 bytes whose Huffman code has 65-bit paths. *)
Definition x_fib : list byte := runs fib_freqs.

Definition fib_root : HuffmanTree :=
  Eval vm_compute in
    match build_huffman_tree fib_freqs with
    | Ok root => root
    | Raise _ => Leaf x00
    end.

(** Bytes 0 to 15, each with count 2^58. *)
Definition uniform_freqs : list (byte * Z) :=
  Eval vm_compute in combine (firstn 16 all_bytes) (repeat (2 ^ 58) 16).

(** A buffer of 2^62 bytes whose encoding has 2^64 bits. *)
Definition x_overflow : list byte := runs uniform_freqs.

Definition uniform_root : HuffmanTree :=
  Eval vm_compute in
    match build_huffman_tree uniform_freqs with
    | Ok root => root
    | Raise _ => Leaf x00
    end.

Definition unpack_error : exn :=
  ValueError "not enough values to unpack (expected at least 2, got 1)".

(** The table segment [decompress] slices out of a buffer. *)
Definition prefix_segment (s : list byte) : list byte :=
  slice s 16 (16 + from_bytes (slice s 8 16) * 10).



(* ================================================================== *)
(** ** Vocabulary of the further properties *)

(** The distinct bytes of a buffer, in the order they first occur. *)
Fixpoint first_seen (s : list byte) : list byte :=
  match s with
  | [] => []
  | b :: t => b :: filter (fun x => negb (Byte.eqb x b)) (first_seen t)
  end.

(** The count a frequency map holds for a byte, 0 for a missing key. *)
Definition count_of (freqs : list (byte * Z)) (b : byte) : Z :=
  match dict_get Byte.eqb freqs b with
  | Some c => c
  | None => 0
  end.

(** The sum of the counts of a frequency map. *)
Definition total (freqs : list (byte * Z)) : Z :=
  fold_right Z.add 0 (map snd freqs).

(** The sum of the frequencies of the items of a queue. *)
Definition queue_weight (pq : list item) : Z :=
  fold_right Z.add 0 (map (fun x : item => fst (fst x)) pq).

(** Following [p] from [T] through internal nodes ends at the leaf of
    [b]. *)
Fixpoint reaches (T : PrefixTree) (p : list bool) (b : byte) : Prop :=
  match p, T with
  | [], PLeaf d => d = b
  | bit :: rest, PNode l r => reaches (if negb bit then l else r) rest b
  | _, _ => False
  end.

(** Neither path is a prefix of the other. *)
Definition incomparable (p q : list bool) : Prop :=
  ~ is_prefix p q /\ ~ is_prefix q p.

(** The cost of a tree whose root lies at depth [d], under the weights
    [w]: the sum over the leaves of (weight of the symbol) x (depth). *)
Fixpoint cost_at (w : byte -> Z) (t : HuffmanTree) (d : Z) : Z :=
  match t with
  | Leaf a => w a * d
  | Node l r => cost_at w l (d + 1) + cost_at w r (d + 1)
  end.

Definition cost (w : byte -> Z) (t : HuffmanTree) : Z := cost_at w t 0.

(** [a] is a leaf of [t]. *)
Definition has (t : HuffmanTree) (a : byte) : bool :=
  existsb (Byte.eqb a) (leaves t).

(** The depth of the leaf [a] in [t]. *)
Fixpoint depth (t : HuffmanTree) (a : byte) : Z :=
  match t with
  | Leaf _ => 0
  | Node l r => 1 + (if has l a then depth l a else depth r a)
  end.

Fixpoint height (t : HuffmanTree) : Z :=
  match t with
  | Leaf _ => 0
  | Node l r => 1 + Z.max (height l) (height r)
  end.

(** Relabelling of the leaves. *)
Fixpoint tmap (f : byte -> byte) (t : HuffmanTree) : HuffmanTree :=
  match t with
  | Leaf a => Leaf (f a)
  | Node l r => Node (tmap f l) (tmap f r)
  end.

(** The exchange of two symbols. *)
Definition transpose (a c x : byte) : byte :=
  if Byte.eqb x a then c else if Byte.eqb x c then a else x.

(** Replacement of the leaves by trees. *)
Fixpoint sub (sigma : byte -> HuffmanTree) (t : HuffmanTree) : HuffmanTree :=
  match t with
  | Leaf a => sigma a
  | Node l r => Node (sub sigma l) (sub sigma r)
  end.

Definition isub (sigma : byte -> HuffmanTree) (x : item) : item :=
  (fst x, sub sigma (snd x)).

(** The leaf [a] becomes the node with the leaves [a] and [b]. *)
Definition split_leaf (a b x : byte) : HuffmanTree :=
  if Byte.eqb x a then Node (Leaf a) (Leaf b) else Leaf x.

(** [a] and [b] are the two children of one node of the tree. *)
Inductive sib (a b : byte) : HuffmanTree -> Prop :=
| sib_here : sib a b (Node (Leaf a) (Leaf b))
| sib_here' : sib a b (Node (Leaf b) (Leaf a))
| sib_left l r : sib a b l -> sib a b (Node l r)
| sib_right l r : sib a b r -> sib a b (Node l r).

Definition sum_over (L : list byte) (g : byte -> Z) : Z :=
  fold_right (fun x acc => g x + acc) 0 L.

(** The length of the path a table holds for a symbol, 0 without one. *)
Definition code_len (table : PrefixTable) (b : byte) : Z :=
  match dict_get Byte.eqb table b with
  | Some p => Z.of_nat (length p)
  | None => 0
  end.

(** No child of the trie is absent. *)
Fixpoint complete (T : PrefixTree) : Prop :=
  match T with
  | PNone => False
  | PLeaf _ => True
  | PNode l r => complete l /\ complete r
  end.

(** The subtree found by walking down from [t] along [q], bit 0 to the
    first child and bit 1 to the second. *)
Fixpoint subtree (t : HuffmanTree) (q : list bool) {struct q}
  : option HuffmanTree :=
  match q with
  | [] => Some t
  | bit :: q' =>
      match t with
      | Leaf _ => None
      | Node l r => subtree (if bit then r else l) q'
      end
  end.

(** The payload bytes [decompress] slices out of a buffer. *)
Definition data_segment (s : list byte) : list byte :=
  drop (16 + from_bytes (slice s 8 16) * 10) s.

(* ================================================================== *)
(** ** Lemmas on the Python runtime *)

Lemma bind_Ok {A B : Type} (r : result A) (k : A -> result B) (b : B) :
  bind r k = Ok b -> exists a, r = Ok a /\ k a = Ok b.
Proof.
  destruct r as [a|e]; simpl; intros H; [eauto | discriminate].
Qed.

Lemma take_firstn {A : Type} (l : list A) :
  forall n, take n l = firstn (Z.to_nat n) l.
Proof.
  induction l as [|x t IH]; intros n; simpl.
  - now rewrite firstn_nil.
  - destruct (Z.leb_spec n 0) as [Hn|Hn].
    + replace (Z.to_nat n) with O by lia. reflexivity.
    + replace (Z.to_nat n) with (S (Z.to_nat (n - 1))) by lia.
      simpl. now rewrite IH.
Qed.

Lemma drop_skipn {A : Type} (l : list A) :
  forall n, drop n l = skipn (Z.to_nat n) l.
Proof.
  induction l as [|x t IH]; intros n; simpl.
  - now rewrite skipn_nil.
  - destruct (Z.leb_spec n 0) as [Hn|Hn].
    + replace (Z.to_nat n) with O by lia. reflexivity.
    + replace (Z.to_nat n) with (S (Z.to_nat (n - 1))) by lia.
      simpl. now rewrite IH.
Qed.

Lemma take_app_exact {A : Type} (a b : list A) (n : Z) :
  n = Z.of_nat (length a) -> take n (a ++ b) = a.
Proof.
  intros ->. rewrite take_firstn, Nat2Z.id.
  rewrite firstn_app, Nat.sub_diag, firstn_all. simpl. apply app_nil_r.
Qed.

Lemma drop_app_exact {A : Type} (a b : list A) (n : Z) :
  n = Z.of_nat (length a) -> drop n (a ++ b) = b.
Proof.
  intros ->. rewrite drop_skipn, Nat2Z.id.
  rewrite skipn_app, Nat.sub_diag, skipn_all. reflexivity.
Qed.

Lemma take_all {A : Type} (l : list A) (n : Z) :
  Z.of_nat (length l) <= n -> take n l = l.
Proof.
  intros H. rewrite take_firstn. apply firstn_all2. lia.
Qed.

Lemma drop_all {A : Type} (l : list A) (n : Z) :
  Z.of_nat (length l) <= n -> drop n l = [].
Proof.
  intros H. rewrite drop_skipn. apply skipn_all2. lia.
Qed.

Lemma batched_fuel_irrelevant {A : Type} (n : nat) :
  (1 <= n)%nat ->
  forall f1 f2 (l : list A),
    (length l <= f1)%nat -> (length l <= f2)%nat ->
    batched_fuel f1 n l = batched_fuel f2 n l.
Proof.
  intros Hn. induction f1 as [|f1 IH]; intros f2 l H1 H2.
  - destruct l; [now destruct f2 | simpl in H1; lia].
  - destruct l as [|x t]; [now destruct f2|].
    destruct f2 as [|f2]; [simpl in H2; lia|].
    cbn [batched_fuel]. f_equal.
    assert (Hs : (length (skipn n (x :: t)) <= length t)%nat).
    { rewrite length_skipn. cbn [length]. lia. }
    cbn [length] in H1, H2. apply IH; lia.
Qed.

Lemma batched_fuel_enough {A : Type} (n : nat) :
  (1 <= n)%nat ->
  forall fuel (l : list A),
    (length l <= fuel)%nat -> batched_fuel fuel n l = batched l n.
Proof.
  intros Hn fuel l Hl. unfold batched.
  apply batched_fuel_irrelevant; auto.
Qed.

Lemma batched_nil {A : Type} (n : nat) : batched (@nil A) n = [].
Proof. reflexivity. Qed.

Lemma batched_fuel_S {A : Type} (f n : nat) (l : list A) :
  l <> [] ->
  batched_fuel (S f) n l = firstn n l :: batched_fuel f n (skipn n l).
Proof. destruct l; [congruence | reflexivity]. Qed.

Lemma batched_app {A : Type} (n : nat) (c rest : list A) :
  (1 <= n)%nat -> length c = n ->
  batched (c ++ rest) n = c :: batched rest n.
Proof.
  intros Hn Hc. unfold batched at 1.
  assert (Hne : c ++ rest <> []).
  { destruct c; [simpl in Hc; lia | discriminate]. }
  rewrite length_app, Hc.
  replace (n + length rest)%nat with (S (n - 1 + length rest)) by lia.
  rewrite batched_fuel_S by exact Hne.
  rewrite firstn_app, skipn_app.
  rewrite (firstn_all2 c), (skipn_all2 c) by lia.
  rewrite Hc, Nat.sub_diag. simpl firstn. simpl skipn.
  rewrite app_nil_r. simpl app. f_equal.
  apply batched_fuel_enough; lia.
Qed.

Lemma batched_short {A : Type} (n : nat) (l : list A) :
  l <> [] -> (length l <= n)%nat -> batched l n = [l].
Proof.
  intros Hl Hn. unfold batched. destruct l as [|x t]; [congruence|].
  cbn [length batched_fuel]. rewrite firstn_all2 by exact Hn.
  rewrite skipn_all2 by exact Hn. now destruct (length t).
Qed.

(** Induction over a list in chunks of [n] items, the last one shorter. *)
Lemma chunk_ind {A : Type} (n : nat) (P : list A -> Prop) :
  (1 <= n)%nat ->
  P [] ->
  (forall l, l <> [] -> (length l < n)%nat -> P l) ->
  (forall c rest, length c = n -> P rest -> P (c ++ rest)) ->
  forall l, P l.
Proof.
  intros Hn Hnil Hshort Hchunk l.
  remember (length l) as k eqn:Hk. revert l Hk.
  induction k as [k IH] using lt_wf_ind. intros l Hk.
  destruct l as [|x t]; [exact Hnil|].
  destruct (Nat.lt_ge_cases (length (x :: t)) n) as [Hlt|Hge].
  - apply Hshort; [discriminate | exact Hlt].
  - rewrite <- (firstn_skipn n (x :: t)). apply Hchunk.
    + rewrite length_firstn. lia.
    + apply (IH (length (skipn n (x :: t)))); [|reflexivity].
      rewrite length_skipn. subst k. cbn [length] in *. lia.
Qed.

Lemma Z_of_byte_range (b : byte) : 0 <= Z_of_byte b < 256.
Proof.
  unfold Z_of_byte. pose proof (Byte.to_N_bounded b). lia.
Qed.

Lemma byte_of_Z_of_byte (b : byte) : byte_of_Z (Z_of_byte b) = b.
Proof.
  unfold byte_of_Z, Z_of_byte. now rewrite N2Z.id, Byte.of_to_N.
Qed.

Lemma Z_of_byte_of_Z (z : Z) : 0 <= z < 256 -> Z_of_byte (byte_of_Z z) = z.
Proof.
  intros Hz. unfold byte_of_Z, Z_of_byte.
  destruct (Byte.of_N (Z.to_N z)) as [b|] eqn:E.
  - apply Byte.to_of_N in E. rewrite E. lia.
  - apply Byte.of_N_None_iff in E. lia.
Qed.

Lemma length_be_digits (len : nat) : forall n, length (be_digits len n) = len.
Proof.
  induction len as [|k IH]; intros n; simpl; [reflexivity|].
  rewrite length_app, IH. simpl. lia.
Qed.

Lemma from_bytes_app (a b : list byte) :
  from_bytes (a ++ b) =
  fold_left (fun acc x => acc * 256 + Z_of_byte x) b (from_bytes a).
Proof. unfold from_bytes. apply fold_left_app. Qed.

Lemma from_bytes_be_digits (len : nat) :
  forall n, 0 <= n < 256 ^ Z.of_nat len -> from_bytes (be_digits len n) = n.
Proof.
  induction len as [|k IH]; intros n Hn.
  - simpl in *. unfold from_bytes. simpl. lia.
  - cbn [be_digits]. rewrite from_bytes_app. simpl.
    rewrite Nat2Z.inj_succ, Z.pow_succ_r in Hn by lia.
    rewrite IH.
    + rewrite Z_of_byte_of_Z by (apply Z.mod_pos_bound; lia).
      pose proof (Z.div_mod n 256). lia.
    + split; [apply Z.div_pos; lia|].
      apply Z.div_lt_upper_bound; lia.
Qed.

Lemma to_bytes_Ok (n : Z) (len : nat) (bs : list byte) :
  to_bytes n len = Ok bs ->
  0 <= n < 256 ^ Z.of_nat len /\ length bs = len /\ from_bytes bs = n.
Proof.
  unfold to_bytes. intros H.
  destruct (0 <=? n) eqn:E1; [|discriminate].
  destruct (n <? 256 ^ Z.of_nat len) eqn:E2; [|discriminate].
  simpl in H. injection H as <-.
  apply Z.leb_le in E1. apply Z.ltb_lt in E2.
  split; [lia|]. split; [apply length_be_digits|].
  apply from_bytes_be_digits. lia.
Qed.

Lemma to_bytes_in_range (n : Z) (len : nat) :
  0 <= n < 256 ^ Z.of_nat len -> to_bytes n len = Ok (be_digits len n).
Proof.
  intros [H1 H2]. unfold to_bytes.
  apply Z.leb_le in H1. apply Z.ltb_lt in H2. now rewrite H1, H2.
Qed.

(* ================================================================== *)
(** ** Bit vectors *)

Lemma byte_to_bits_key (i : byte) :
  exists b, dict_get Byte.eqb byte_to_bits_dict i = Some b /\ length b = 8%nat.
Proof. destruct i; eexists; split; reflexivity. Qed.

Lemma byte_to_bits_length (i : byte) : length (byte_to_bits i) = 8%nat.
Proof. destruct i; reflexivity. Qed.

Lemma bits_to_byte_to_bits (i : byte) : bits_to_byte (byte_to_bits i) = i.
Proof. destruct i; reflexivity. Qed.

Lemma length_8_inv {A : Type} (l : list A) :
  length l = 8%nat ->
  exists a b c d e f g h, l = [a; b; c; d; e; f; g; h].
Proof.
  intros H.
  do 8 (destruct l as [|? l]; [discriminate|]).
  destruct l; [|discriminate]. repeat eexists.
Qed.

Lemma bits_to_byte_key (b : list bool) :
  length b = 8%nat ->
  exists i, dict_get (list_eqb Bool.eqb) bits_to_byte_dict b = Some i.
Proof.
  intros H. destruct (length_8_inv b H) as (b0&b1&b2&b3&b4&b5&b6&b7&->).
  destruct b0, b1, b2, b3, b4, b5, b6, b7; eexists; reflexivity.
Qed.

Lemma byte_to_bits_to_byte (b : list bool) :
  length b = 8%nat -> byte_to_bits (bits_to_byte b) = b.
Proof.
  intros H. destruct (length_8_inv b H) as (b0&b1&b2&b3&b4&b5&b6&b7&->).
  destruct b0, b1, b2, b3, b4, b5, b6, b7; reflexivity.
Qed.

Lemma bits_to_bytes_app (c rest : list bool) :
  length c = 8%nat ->
  bits_to_bytes (c ++ rest) = bits_to_byte c :: bits_to_bytes rest.
Proof.
  intros Hc. unfold bits_to_bytes.
  rewrite batched_app by (auto; lia). cbn [map].
  rewrite Hc, Nat.sub_diag. cbn [repeat]. now rewrite app_nil_r.
Qed.

Lemma bits_to_bytes_short (l : list bool) :
  l <> [] -> (length l <= 8)%nat ->
  bits_to_bytes l = [bits_to_byte (l ++ repeat false (8 - length l))].
Proof.
  intros Hl Hn. unfold bits_to_bytes. now rewrite batched_short.
Qed.

Lemma bits_to_bytes_to_bits (bs : list byte) :
  bits_to_bytes (bytes_to_bits bs) = bs.
Proof.
  induction bs as [|b bs IH]; [reflexivity|].
  cbn [bytes_to_bits flat_map].
  rewrite bits_to_bytes_app by apply byte_to_bits_length.
  rewrite bits_to_byte_to_bits. f_equal. exact IH.
Qed.

(** Unpacking what was packed gives the bits back, followed by the zero
    bits that filled the last byte. *)
Lemma bytes_to_bits_to_bytes_pad (bits : list bool) :
  exists k, bytes_to_bits (bits_to_bytes bits) = bits ++ repeat false k.
Proof.
  revert bits.
  apply (chunk_ind (A:=bool) 8);
    [lia | exists O; reflexivity | intros l Hl Hlen | intros c rest Hc [k IH]].
  - exists (8 - length l)%nat.
    rewrite bits_to_bytes_short by (auto; lia).
    cbn [bytes_to_bits flat_map]. rewrite app_nil_r.
    apply byte_to_bits_to_byte. rewrite length_app, repeat_length. lia.
  - exists k. rewrite bits_to_bytes_app by exact Hc.
    cbn [bytes_to_bits flat_map]. fold (bytes_to_bits (bits_to_bytes rest)).
    rewrite IH, byte_to_bits_to_byte by exact Hc. now rewrite app_assoc.
Qed.

Lemma bytes_to_bits_to_bytes_aligned (bits : list bool) :
  (length bits mod 8 = 0)%nat ->
  bytes_to_bits (bits_to_bytes bits) = bits.
Proof.
  revert bits.
  apply (chunk_ind 8 (fun bits => (length bits mod 8 = 0)%nat ->
                                  bytes_to_bits (bits_to_bytes bits) = bits));
    [lia | reflexivity | intros l Hl Hlen Hmod | intros c rest Hc IH Hmod].
  - rewrite Nat.mod_small in Hmod by exact Hlen.
    destruct l; [congruence | discriminate].
  - rewrite bits_to_bytes_app by exact Hc.
    cbn [bytes_to_bits flat_map]. fold (bytes_to_bits (bits_to_bytes rest)).
    rewrite byte_to_bits_to_byte by exact Hc. f_equal. apply IH.
    rewrite length_app, Hc in Hmod.
    replace (8 + length rest)%nat with (length rest + 1 * 8)%nat in Hmod by lia.
    now rewrite Nat.Div0.mod_add in Hmod.
Qed.

Lemma length_bytes_to_bits (bs : list byte) :
  length (bytes_to_bits bs) = (8 * length bs)%nat.
Proof.
  induction bs as [|b bs IH]; [reflexivity|].
  cbn [bytes_to_bits flat_map length]. rewrite length_app.
  fold (bytes_to_bits bs). rewrite IH, byte_to_bits_length. lia.
Qed.

(** The first bit of a byte's tuple is its most significant bit, the last
    one its least significant bit. *)
Lemma byte_to_bits_msb_first (i : byte) :
  Z_of_byte i =
  fold_left (fun acc (b : bool) => 2 * acc + (if b then 1 else 0))
            (byte_to_bits i) 0.
Proof. destruct i; reflexivity. Qed.

(** C10: packing the bits of a byte buffer gives the buffer back, and
    unpacking the bytes packed from a bit sequence whose length is a
    multiple of 8 gives the bit sequence back; every byte's tuple lists
    its bits most significant first. *)
Theorem bits_bytes_inverse :
  (forall b : list byte, bits_to_bytes (bytes_to_bits b) = b) /\
  (forall bits : list bool,
     (length bits mod 8 = 0)%nat ->
     bytes_to_bits (bits_to_bytes bits) = bits) /\
  (forall i : byte,
     Z_of_byte i =
     fold_left (fun acc (b : bool) => 2 * acc + (if b then 1 else 0))
               (byte_to_bits i) 0).
Proof.
  split; [exact bits_to_bytes_to_bits|].
  split; [exact bytes_to_bits_to_bytes_aligned | exact byte_to_bits_msb_first].
Qed.

(* ================================================================== *)
(** ** Dictionaries keyed by bytes *)

Lemma byte_eqb_refl (b : byte) : Byte.eqb b b = true.
Proof. now apply Byte.byte_dec_lb. Qed.

Lemma byte_eqb_neq (a b : byte) : a <> b -> Byte.eqb a b = false.
Proof.
  intros H. destruct (Byte.eqb a b) eqn:E; [|reflexivity].
  now apply Byte.byte_dec_bl in E.
Qed.

Section ByteDict.
Context {V : Type}.
Implicit Types (d : list (byte * V)) (k : byte) (v : V).

Lemma dict_get_None d k :
  dict_get Byte.eqb d k = None <-> ~ In k (map fst d).
Proof.
  induction d as [|[k' v'] d IH]; simpl; [tauto|].
  destruct (Byte.eqb k' k) eqn:E.
  - apply Byte.byte_dec_bl in E. split; [discriminate | tauto].
  - apply Byte.eqb_false in E. tauto.
Qed.

Lemma dict_get_In d k v :
  NoDup (map fst d) -> (In (k, v) d <-> dict_get Byte.eqb d k = Some v).
Proof.
  induction d as [|[k' v'] d IH]; simpl; intros Hnd.
  - split; [tauto | discriminate].
  - inversion Hnd as [|? ? Hk' Hnd']; subst.
    destruct (Byte.eqb k' k) eqn:E.
    + apply Byte.byte_dec_bl in E. subst k'. split.
      * intros [H|H]; [congruence|].
        exfalso. apply Hk'. now apply (in_map fst) in H.
      * intros H. left. congruence.
    + apply Byte.eqb_false in E. rewrite <- (IH Hnd'). split.
      * intros [H|H]; [congruence | exact H].
      * tauto.
Qed.

Lemma dict_get_Some_In d k v :
  dict_get Byte.eqb d k = Some v -> In (k, v) d.
Proof.
  induction d as [|[k' v'] d IH]; simpl; [discriminate|].
  destruct (Byte.eqb k' k) eqn:E.
  - apply Byte.byte_dec_bl in E. intros H. left. congruence.
  - intros H. right. now apply IH.
Qed.

Lemma dict_set_fresh d k v :
  ~ In k (map fst d) -> dict_set Byte.eqb d k v = d ++ [(k, v)].
Proof.
  induction d as [|[k' v'] d IH]; simpl; intros H; [reflexivity|].
  rewrite byte_eqb_neq by tauto. f_equal. apply IH. tauto.
Qed.

Lemma dict_set_keys_present d k v :
  In k (map fst d) -> map fst (dict_set Byte.eqb d k v) = map fst d.
Proof.
  induction d as [|[k' v'] d IH]; simpl; intros H; [tauto|].
  destruct (Byte.eqb k' k) eqn:E; [reflexivity|].
  apply Byte.eqb_false in E. simpl. f_equal. apply IH.
  destruct H; [congruence | assumption].
Qed.
End ByteDict.

(* ================================================================== *)
(** ** Counter *)

Lemma Counter_add_keys (d : list (byte * Z)) (b : byte) :
  NoDup (map fst d) ->
  NoDup (map fst (Counter_add d b)) /\
  (forall k, In k (map fst (Counter_add d b)) <-> k = b \/ In k (map fst d)).
Proof.
  intros Hnd. unfold Counter_add.
  destruct (in_dec Byte.byte_eq_dec b (map fst d)) as [Hin|Hout].
  - rewrite dict_set_keys_present by exact Hin. split; [exact Hnd|].
    intros k. split; [tauto | intros [->|H]; assumption].
  - rewrite dict_set_fresh by exact Hout. rewrite map_app. simpl. split.
    + apply NoDup_app; [exact Hnd | repeat constructor; simpl; tauto |].
      intros x Hx [<-|[]]. contradiction.
    + intros k. rewrite in_app_iff. simpl. intuition congruence.
Qed.

Lemma Counter_fold_keys (s : list byte) :
  forall d, NoDup (map fst d) ->
    NoDup (map fst (fold_left Counter_add s d)) /\
    (forall k, In k (map fst (fold_left Counter_add s d)) <->
               In k s \/ In k (map fst d)).
Proof.
  induction s as [|b s IH]; intros d Hnd; simpl.
  - split; [exact Hnd | tauto].
  - destruct (Counter_add_keys d b Hnd) as [Hnd' Hk].
    destruct (IH _ Hnd') as [Hnd'' Hk'']. split; [exact Hnd''|].
    intros k. rewrite Hk'', Hk. intuition congruence.
Qed.

Lemma Counter_NoDup (s : list byte) : NoDup (map fst (Counter s)).
Proof. apply (Counter_fold_keys s []). constructor. Qed.

Lemma Counter_keys (s : list byte) (k : byte) :
  In k (map fst (Counter s)) <-> In k s.
Proof.
  unfold Counter. destruct (Counter_fold_keys s [] (NoDup_nil _)) as [_ H].
  rewrite H. simpl. tauto.
Qed.

(** The number of keys of [Counter s] is below 2 exactly when no two
    distinct byte values occur in [s]. *)
Lemma Counter_length_lt_2 (s : list byte) :
  (length (Counter s) < 2)%nat <-> ~ two_distinct s.
Proof.
  pose proof (Counter_NoDup s) as Hnd.
  pose proof (Counter_keys s) as Hk.
  rewrite <- (length_map fst).
  destruct (map fst (Counter s)) as [|a [|b l]] eqn:E; simpl.
  - split; [|lia]. intros _ (a & b & _ & Ha & _). now apply Hk in Ha.
  - split; [|lia]. intros _ (x & y & Hxy & Hx & Hy).
    apply Hk in Hx, Hy. simpl in Hx, Hy. intuition congruence.
  - split; [lia|]. intros H. exfalso. apply H. exists a, b.
    inversion Hnd as [|? ? Ha _]; subst. simpl in Ha.
    repeat split; [intuition congruence | |]; apply Hk; simpl; tauto.
Qed.

Lemma Counter_length_ge_2 (s : list byte) :
  (2 <= length (Counter s))%nat -> two_distinct s.
Proof.
  pose proof (Counter_NoDup s) as Hnd.
  pose proof (Counter_keys s) as Hk.
  rewrite <- (length_map fst).
  destruct (map fst (Counter s)) as [|a [|b l]] eqn:E; simpl; try lia.
  intros _. exists a, b. inversion Hnd as [|? ? Ha _]; subst. simpl in Ha.
  repeat split; [intuition congruence | |]; apply Hk; simpl; tauto.
Qed.

(* ================================================================== *)
(** ** The priority queue *)

Lemma priority_leb_spec (p q : priority) :
  priority_leb p q = true <-> priority_le p q.
Proof.
  destruct p as [pf pi], q as [qf qi]. unfold priority_leb, priority_le. simpl.
  rewrite orb_true_iff, andb_true_iff, Z.ltb_lt, Z.eqb_eq, Nat.leb_le.
  tauto.
Qed.

Lemma priority_le_total (p q : priority) : priority_le p q \/ priority_le q p.
Proof. unfold priority_le. lia. Qed.

Lemma priority_le_trans (p q r : priority) :
  priority_le p q -> priority_le q r -> priority_le p r.
Proof. unfold priority_le. lia. Qed.

Lemma priority_le_lt (p q : priority) :
  priority_le p q -> snd p <> snd q -> priority_lt p q.
Proof. unfold priority_le, priority_lt. lia. Qed.

Lemma heappop_None (pq : list item) : heappop pq = None -> pq = [].
Proof.
  destruct pq as [|x rest]; [reflexivity|]. simpl.
  destruct (heappop rest) as [[m rest']|]; [|discriminate].
  destruct (priority_leb (fst x) (fst m)); discriminate.
Qed.

(** [heappop] returns an item that is least among the items of the queue,
    and the queue without it. *)
Lemma heappop_spec (pq : list item) :
  forall m rest,
    heappop pq = Some (m, rest) ->
    Permutation pq (m :: rest) /\
    Forall (fun x => priority_le (fst m) (fst x)) rest.
Proof.
  induction pq as [|x tl IH]; intros m rest H; [discriminate|].
  simpl in H. destruct (heappop tl) as [[m' rest']|] eqn:E.
  - destruct (IH _ _ eq_refl) as [Hperm Hall].
    destruct (priority_leb (fst x) (fst m')) eqn:Hle.
    + injection H as <- <-. split; [reflexivity|].
      apply priority_leb_spec in Hle.
      rewrite Forall_forall. intros y Hy.
      apply (Permutation_in _ Hperm) in Hy. destruct Hy as [<-|Hy]; [exact Hle|].
      rewrite Forall_forall in Hall.
      eapply priority_le_trans; [exact Hle | now apply Hall].
    + injection H as <- <-. split.
      * rewrite Hperm. apply perm_swap.
      * constructor; [|exact Hall].
        destruct (priority_le_total (fst m') (fst x)) as [H|H]; [exact H|].
        apply priority_leb_spec in H. congruence.
  - injection H as <- <-. apply heappop_None in E. subst tl.
    split; [reflexivity | constructor].
Qed.

Lemma heappop_Some (pq : list item) :
  pq <> [] -> exists m rest, heappop pq = Some (m, rest).
Proof.
  destruct (heappop pq) as [[m rest]|] eqn:E; [eauto|].
  apply heappop_None in E. congruence.
Qed.

(** What one iteration of the merge loop does to the queue. *)
Lemma huffman_step_spec (pq : list item) :
  (2 <= length pq)%nat ->
  exists l r rest,
    huffman_step pq = Some (merge l r :: rest) /\
    Permutation pq (l :: r :: rest) /\
    Forall (fun x => priority_le (fst l) (fst x)) (r :: rest) /\
    Forall (fun x => priority_le (fst r) (fst x)) rest.
Proof.
  intros Hlen. unfold huffman_step.
  destruct (heappop_Some pq) as (l & pq1 & E1).
  { destruct pq; [simpl in Hlen; lia | discriminate]. }
  destruct (heappop_spec _ _ _ E1) as [P1 F1].
  destruct (heappop_Some pq1) as (r & pq2 & E2).
  { apply Permutation_length in P1. destruct pq1; [|discriminate].
    simpl in P1. lia. }
  destruct (heappop_spec _ _ _ E2) as [P2 F2].
  exists l, r, pq2. rewrite E1, E2. split; [reflexivity|].
  split; [now rewrite P1, P2|]. split; [|exact F2].
  rewrite Forall_forall in *. intros x Hx. apply F1.
  now apply (Permutation_in _ (Permutation_sym P2)).
Qed.

Lemma merge_priority (l r : item) :
  fst (merge l r) =
  (fst (fst l) + fst (fst r), Nat.min (snd (fst l)) (snd (fst r))).
Proof.
  destruct l as [[lf li] lt], r as [[rf ri] rt]. simpl.
  now destruct (lf <=? rf).
Qed.

Lemma merge_tree_ordered (l r : item) :
  priority_le (fst l) (fst r) -> snd (merge l r) = Node (snd l) (snd r).
Proof.
  destruct l as [[lf li] lt], r as [[rf ri] rt]. unfold priority_le. simpl.
  intros H. destruct (Z.leb_spec lf rf); [reflexivity | lia].
Qed.

Lemma merge_leaves (l r : item) :
  Permutation (leaves (snd (merge l r))) (leaves (snd l) ++ leaves (snd r)).
Proof.
  destruct l as [[lf li] lt], r as [[rf ri] rt]. simpl.
  destruct (lf <=? rf); simpl; [reflexivity | apply Permutation_app_comm].
Qed.

Lemma merge_is_Node (l r : item) : exists a b, snd (merge l r) = Node a b.
Proof.
  destruct l as [[lf li] lt], r as [[rf ri] rt]. simpl.
  destruct (lf <=? rf); simpl; eauto.
Qed.

Lemma all_leaves_perm (pq pq' : list item) :
  Permutation pq pq' -> Permutation (all_leaves pq) (all_leaves pq').
Proof.
  unfold all_leaves. induction 1; simpl.
  - reflexivity.
  - now apply Permutation_app_head.
  - rewrite !app_assoc. apply Permutation_app_tail, Permutation_app_comm.
  - etransitivity; eassumption.
Qed.

Lemma indices_perm (pq pq' : list item) :
  Permutation pq pq' -> Permutation (indices pq) (indices pq').
Proof. apply Permutation_map. Qed.

(** The merge loop keeps the tie-break indices of the queue pairwise
    distinct, so no two items ever compare equal on [(freq, i)]. *)
Lemma huffman_step_indices (pq pq' : list item) :
  NoDup (indices pq) -> huffman_step pq = Some pq' -> NoDup (indices pq').
Proof.
  intros Hnd Hstep.
  destruct (Nat.lt_ge_cases (length pq) 2) as [Hlt|Hge].
  - exfalso. unfold huffman_step in Hstep.
    destruct (heappop pq) as [[l pq1]|] eqn:E1; [|discriminate].
    destruct (heappop pq1) as [[r pq2]|] eqn:E2; [|discriminate].
    apply heappop_spec in E1, E2. destruct E1 as [P1 _], E2 as [P2 _].
    apply Permutation_length in P1, P2. simpl in P1, P2. lia.
  - destruct (huffman_step_spec pq Hge) as (l & r & rest & E & P & _).
    rewrite E in Hstep. injection Hstep as <-.
    apply indices_perm in P.
    apply (Permutation_NoDup P) in Hnd. unfold indices in *. simpl in *.
    rewrite merge_priority. simpl.
    inversion Hnd as [|? ? Hl Hnd1]; subst.
    inversion Hnd1 as [|? ? Hr Hnd2]; subst.
    constructor; [|exact Hnd2].
    destruct (Nat.min_spec (snd (fst l)) (snd (fst r))) as [[_ ->]|[_ ->]].
    + simpl in Hl. tauto.
    + exact Hr.
Qed.

Lemma huffman_step_leaves (pq pq' : list item) :
  huffman_step pq = Some pq' ->
  Permutation (all_leaves pq) (all_leaves pq') /\ length pq = S (length pq').
Proof.
  unfold huffman_step. intros H.
  destruct (heappop pq) as [[l pq1]|] eqn:E1; [|discriminate].
  destruct (heappop pq1) as [[r pq2]|] eqn:E2; [|discriminate].
  injection H as <-.
  apply heappop_spec in E1, E2. destruct E1 as [P1 _], E2 as [P2 _].
  split.
  - rewrite (all_leaves_perm _ _ P1). unfold all_leaves at 1. simpl.
    rewrite (all_leaves_perm _ _ P2). unfold all_leaves. simpl.
    rewrite app_assoc. apply Permutation_app_tail.
    symmetry. apply merge_leaves.
  - apply Permutation_length in P1, P2. unfold heappush. simpl in *. lia.
Qed.

Lemma huffman_loop_done (fuel : nat) (pq : list item) :
  (length pq <= 1)%nat -> huffman_loop fuel pq = Ok pq.
Proof.
  intros H. destruct fuel; simpl;
    (replace (1 <? length pq)%nat with false
       by (symmetry; apply Nat.ltb_ge; lia)); reflexivity.
Qed.

(** The loop stops with one item; its leaves are those the queue started
    with, and it comes out of a merge when the queue held two or more. *)
Lemma huffman_loop_spec (fuel : nat) :
  forall pq,
    pq <> [] -> (length pq <= S fuel)%nat ->
    exists root,
      huffman_loop fuel pq = Ok [root] /\
      Permutation (all_leaves pq) (leaves (snd root)) /\
      ((2 <= length pq)%nat -> exists a b, snd root = Node a b).
Proof.
  induction fuel as [|f IH]; intros pq Hne Hlen.
  - destruct pq as [|x [|y tl]]; [congruence | | simpl in Hlen; lia].
    exists x. simpl. unfold all_leaves. simpl. rewrite app_nil_r.
    split; [reflexivity|]. split; [reflexivity | lia].
  - destruct (Nat.lt_ge_cases (length pq) 2) as [Hlt|Hge].
    + destruct pq as [|x [|y tl]]; [congruence | | simpl in Hlt; lia].
      exists x. simpl. unfold all_leaves. simpl. rewrite app_nil_r.
      split; [reflexivity|]. split; [reflexivity | lia].
    + destruct (huffman_step_spec pq Hge) as (l & r & rest & E & P & _).
      destruct (huffman_step_leaves _ _ E) as [PL HL].
      destruct (IH (merge l r :: rest)) as (root & Hloop & Hperm & Hnode);
        [discriminate | lia |].
      exists root. cbn [huffman_loop].
      replace (1 <? length pq)%nat with true
        by (symmetry; apply Nat.ltb_lt; lia).
      rewrite E. split; [exact Hloop|]. split; [now rewrite PL|].
      intros _. destruct rest as [|y rest'].
      * rewrite huffman_loop_done in Hloop by (simpl; lia).
        injection Hloop as <-. apply merge_is_Node.
      * apply Hnode. simpl. lia.
Qed.

Lemma initial_pq_shape (freqs : list (byte * Z)) :
  length (initial_pq freqs) = length freqs /\
  indices (initial_pq freqs) = seq 0 (length freqs) /\
  all_leaves (initial_pq freqs) = map fst freqs.
Proof.
  unfold initial_pq, enumerate. generalize 0%nat as start.
  induction freqs as [|[val freq] freqs IH]; intros start; simpl.
  - repeat split.
  - destruct (IH (S start)) as (H1 & H2 & H3).
    unfold indices, all_leaves in *. simpl. now rewrite H1, H2, H3.
Qed.

(** For a non-empty frequency map the tree is built, and its leaves are
    the keys of the map. *)
Lemma build_huffman_tree_spec (freqs : list (byte * Z)) :
  freqs <> [] ->
  exists root,
    build_huffman_tree freqs = Ok root /\
    Permutation (leaves root) (map fst freqs) /\
    ((2 <= length freqs)%nat -> exists a b, root = Node a b).
Proof.
  intros Hne. destruct (initial_pq_shape freqs) as (Hlen & _ & Hleaves).
  unfold build_huffman_tree, heapify.
  destruct (huffman_loop_spec (length (initial_pq freqs)) (initial_pq freqs))
    as (root & Hloop & Hperm & Hnode).
  - destruct freqs; [congruence|]. simpl in Hlen.
    destruct (initial_pq _); [discriminate | discriminate].
  - lia.
  - exists (snd root). rewrite Hloop. simpl. split; [reflexivity|].
    split; [now rewrite <- Hperm, Hleaves | now rewrite <- Hlen].
Qed.

(* ================================================================== *)
(** ** The prefix table *)

Lemma paths_keys (t : HuffmanTree) :
  forall p, map fst (paths t p) = leaves t.
Proof.
  induction t as [data|l IHl r IHr]; intros p; simpl; [reflexivity|].
  now rewrite map_app, IHl, IHr.
Qed.

(** With pairwise distinct leaves no assignment of [visit] overwrites
    another, and the dictionary lists the entries in visiting order. *)
Lemma visit_paths (t : HuffmanTree) :
  forall p d,
    NoDup (map fst d ++ leaves t) -> visit t p d = d ++ paths t p.
Proof.
  induction t as [data|l IHl r IHr]; intros p d Hnd; simpl.
  - apply dict_set_fresh. apply NoDup_remove_2 in Hnd.
    now rewrite app_nil_r in Hnd.
  - simpl in Hnd. rewrite app_assoc in Hnd.
    rewrite IHl by (now apply NoDup_app_remove_r in Hnd).
    rewrite IHr by (now rewrite map_app, paths_keys).
    now rewrite app_assoc.
Qed.

Lemma leaves_nonempty (t : HuffmanTree) : (1 <= length (leaves t))%nat.
Proof.
  induction t as [data|l IHl r IHr]; simpl; [lia|]. rewrite length_app. lia.
Qed.

Lemma paths_extend (t : HuffmanTree) :
  forall p a pa,
    In (a, pa) (paths t p) ->
    exists q, pa = p ++ q /\ (S (length q) <= length (leaves t))%nat.
Proof.
  induction t as [data|l IHl r IHr]; intros p a pa H; simpl in H.
  - destruct H as [H|[]]. injection H as <- <-. exists [].
    now rewrite app_nil_r.
  - pose proof (leaves_nonempty l) as Hl.
    pose proof (leaves_nonempty r) as Hr.
    simpl. rewrite length_app. apply in_app_or in H. destruct H as [H|H].
    + destruct (IHl _ _ _ H) as (q & -> & Hq). exists (false :: q).
      rewrite <- app_assoc. simpl. split; [reflexivity | lia].
    + destruct (IHr _ _ _ H) as (q & -> & Hq). exists (true :: q).
      rewrite <- app_assoc. simpl. split; [reflexivity | lia].
Qed.

Lemma paths_prefix_free (t : HuffmanTree) :
  forall p, prefix_free (paths t p).
Proof.
  induction t as [data|l IHl r IHr]; intros p a pa b pb Ha Hb Hab; simpl in *.
  - destruct Ha as [Ha|[]], Hb as [Hb|[]]. congruence.
  - apply in_app_or in Ha, Hb. destruct Ha as [Ha|Ha], Hb as [Hb|Hb].
    + exact (IHl _ _ _ _ _ Ha Hb Hab).
    + destruct (paths_extend _ _ _ _ Ha) as (qa & -> & _).
      destruct (paths_extend _ _ _ _ Hb) as (qb & -> & _).
      intros [x Hx]. rewrite <- !app_assoc in Hx.
      apply app_inv_head in Hx. discriminate.
    + destruct (paths_extend _ _ _ _ Ha) as (qa & -> & _).
      destruct (paths_extend _ _ _ _ Hb) as (qb & -> & _).
      intros [x Hx]. rewrite <- !app_assoc in Hx.
      apply app_inv_head in Hx. discriminate.
    + exact (IHr _ _ _ _ _ Ha Hb Hab).
Qed.

(** The table of a frequency map with pairwise distinct keys: it is built,
    it is the list of root-to-leaf paths of the Huffman tree, and the tree
    has the keys of the map at its leaves. *)
Lemma build_optimal_prefix_table_spec (freqs : list (byte * Z)) :
  NoDup (map fst freqs) -> freqs <> [] ->
  exists root,
    build_huffman_tree freqs = Ok root /\
    build_optimal_prefix_table freqs = Ok (paths root []) /\
    Permutation (leaves root) (map fst freqs) /\
    ((2 <= length freqs)%nat -> exists a b, root = Node a b).
Proof.
  intros Hnd Hne.
  destruct (build_huffman_tree_spec freqs Hne) as (root & Hroot & Hperm & Hnode).
  exists root. unfold build_optimal_prefix_table. rewrite Hroot. simpl.
  repeat split; [|exact Hperm | exact Hnode].
  unfold build_table_from_huffman. rewrite visit_paths; [reflexivity|].
  simpl. now apply (Permutation_NoDup (Permutation_sym Hperm)).
Qed.

(** C5: for a frequency map with at least two entries the prefix table is
    built, holds exactly the symbols of the map, and no symbol's bit
    sequence is a prefix of another symbol's bit sequence. *)
Theorem prefix_table_is_prefix_code (freqs : list (byte * Z)) :
  NoDup (map fst freqs) ->
  (2 <= length freqs)%nat ->
  exists table,
    build_optimal_prefix_table freqs = Ok table /\
    Permutation (map fst table) (map fst freqs) /\
    forall a pa b pb,
      dict_get Byte.eqb table a = Some pa ->
      dict_get Byte.eqb table b = Some pb ->
      a <> b -> ~ is_prefix pa pb.
Proof.
  intros Hnd Hlen.
  destruct (build_optimal_prefix_table_spec freqs Hnd)
    as (root & _ & Htable & Hperm & _).
  { destruct freqs; [simpl in Hlen; lia | discriminate]. }
  exists (paths root []). split; [exact Htable|].
  split; [now rewrite paths_keys|].
  intros a pa b pb Ha Hb. apply dict_get_Some_In in Ha, Hb.
  now apply (paths_prefix_free root [] a pa b pb).
Qed.

Lemma prefix_table_is_prefix_code_witness :
  exists table,
    build_optimal_prefix_table [(x61, 1); (x62, 2); (x63, 2)] = Ok table /\
    Permutation (map fst table) [x61; x62; x63] /\
    forall a pa b pb,
      dict_get Byte.eqb table a = Some pa ->
      dict_get Byte.eqb table b = Some pb ->
      a <> b -> ~ is_prefix pa pb.
Proof.
  apply (prefix_table_is_prefix_code [(x61, 1); (x62, 2); (x63, 2)]).
  - repeat constructor; simpl; intuition discriminate.
  - simpl. lia.
Defined.

(* ================================================================== *)
(** ** The merge step *)

Lemma after_merges_indices (n : nat) :
  forall pq pq',
    NoDup (indices pq) -> after_merges n pq = Some pq' -> NoDup (indices pq').
Proof.
  induction n as [|k IH]; intros pq pq' Hnd H; simpl in H.
  - now injection H as <-.
  - destruct (huffman_step pq) as [pq1|] eqn:E; [|discriminate].
    eapply IH; [|exact H]. eapply huffman_step_indices; eassumption.
Qed.

(** Every queue the merge loop goes through has pairwise distinct
    tie-break indices. *)
Lemma huffman_loop_indices (freqs : list (byte * Z)) (n : nat) (pq : list item) :
  after_merges n (initial_pq freqs) = Some pq -> NoDup (indices pq).
Proof.
  apply after_merges_indices.
  destruct (initial_pq_shape freqs) as (_ & -> & _). apply seq_NoDup.
Qed.

(** *** Where a merged node ends up in the final tree *)

Lemma subtree_app (t u v : HuffmanTree) (q q' : list bool) :
  subtree t q = Some u -> subtree u q' = Some v -> subtree t (q ++ q') = Some v.
Proof.
  revert t. induction q as [|bit q IH]; intros t Hu Hv; simpl in *.
  - congruence.
  - destruct t as [data|l r]; [discriminate|]. now apply IH.
Qed.

Lemma paths_subtree (q : list bool) :
  forall root t p0 a p,
    subtree root q = Some t ->
    In (a, p) (paths t (p0 ++ q)) -> In (a, p) (paths root p0).
Proof.
  induction q as [|bit q IH]; intros root t p0 a p Hs Hin; simpl in Hs.
  - injection Hs as ->. now rewrite app_nil_r in Hin.
  - destruct root as [data|l r]; [discriminate|].
    replace (p0 ++ bit :: q) with ((p0 ++ [bit]) ++ q) in Hin
      by now rewrite <- app_assoc.
    apply (IH _ _ _ _ _ Hs) in Hin. simpl. apply in_or_app.
    destruct bit; [now right | now left].
Qed.

Lemma paths_In_leaves (t : HuffmanTree) (p0 : list bool) (a : byte) :
  In a (leaves t) -> exists p, In (a, p0 ++ p) (paths t p0).
Proof.
  intros H. rewrite <- (paths_keys t p0) in H.
  apply in_map_iff in H. destruct H as ([a' pa] & Ha & Hin).
  simpl in Ha. subst a'.
  destruct (paths_extend _ _ _ _ Hin) as (q & -> & _). now exists q.
Qed.

Lemma merge_tree_cases (l r : item) :
  snd (merge l r) = Node (snd l) (snd r) \/
  snd (merge l r) = Node (snd r) (snd l).
Proof.
  destruct l as [[lf li] l], r as [[rf ri] r]. unfold merge.
  destruct (lf <=? rf); simpl; auto.
Qed.

(** Every tree waiting in the queue is a subtree of the tree the loop
    ends with. *)
Lemma huffman_loop_subtree (fuel : nat) :
  forall pq root,
    huffman_loop fuel pq = Ok [root] ->
    forall x, In x pq -> exists q, subtree (snd root) q = Some (snd x).
Proof.
  induction fuel as [|f IH]; intros pq root Hloop x Hx; cbn [huffman_loop] in Hloop;
    destruct (1 <? length pq)%nat eqn:E; try discriminate.
  - injection Hloop as ->. destruct Hx as [->|[]]. now exists [].
  - destruct (huffman_step pq) as [pq'|] eqn:Es; [|discriminate].
    apply Nat.ltb_lt in E.
    destruct (huffman_step_spec pq ltac:(lia)) as (l & r & rest & Es' & P & _).
    rewrite Es in Es'. injection Es' as ->.
    apply (Permutation_in _ P) in Hx.
    destruct (IH _ _ Hloop (merge l r) ltac:(now left)) as (q & Hq).
    assert (Hl : exists b, subtree (snd root) (q ++ [b]) = Some (snd l)).
    { destruct (merge_tree_cases l r) as [Hm|Hm]; rewrite Hm in Hq.
      - exists false. now apply (subtree_app _ _ _ _ _ Hq).
      - exists true. now apply (subtree_app _ _ _ _ _ Hq). }
    assert (Hr : exists b, subtree (snd root) (q ++ [b]) = Some (snd r)).
    { destruct (merge_tree_cases l r) as [Hm|Hm]; rewrite Hm in Hq.
      - exists true. now apply (subtree_app _ _ _ _ _ Hq).
      - exists false. now apply (subtree_app _ _ _ _ _ Hq). }
    destruct Hx as [<-|[<-|Hx]].
    + destruct Hl as (b & Hl). eauto.
    + destruct Hr as (b & Hr). eauto.
    + apply (IH _ _ Hloop x). now right.
  - injection Hloop as ->. destruct Hx as [->|[]]. now exists [].
Qed.

Lemma huffman_step_Some_length (pq pq' : list item) :
  huffman_step pq = Some pq' -> (2 <= length pq)%nat.
Proof.
  unfold huffman_step. intros H.
  destruct (heappop pq) as [[l pq1]|] eqn:E1; [|discriminate].
  destruct (heappop pq1) as [[r pq2]|] eqn:E2; [|discriminate].
  apply heappop_spec in E1, E2. destruct E1 as [P1 _], E2 as [P2 _].
  apply Permutation_length in P1, P2. simpl in *. lia.
Qed.

(** The loop, started from a queue it reaches after [n] merges, ends
    with the same tree. *)
Lemma huffman_loop_after_merges (n : nat) :
  forall fuel pq pq' root,
    after_merges n pq = Some pq' ->
    huffman_loop fuel pq = Ok [root] ->
    exists fuel', huffman_loop fuel' pq' = Ok [root].
Proof.
  induction n as [|k IH]; intros fuel pq pq' root Hn Hloop; simpl in Hn.
  - injection Hn as <-. eauto.
  - destruct (huffman_step pq) as [pq1|] eqn:Es; [|discriminate].
    pose proof (huffman_step_Some_length _ _ Es) as H2.
    destruct fuel as [|f]; cbn [huffman_loop] in Hloop;
      (replace (1 <? length pq)%nat with true in Hloop
         by (symmetry; apply Nat.ltb_lt; lia)); [discriminate|].
    rewrite Es in Hloop. eapply IH; eassumption.
Qed.

Lemma after_merges_length (n : nat) :
  forall pq pq',
    after_merges n pq = Some pq' -> (length pq' <= length pq)%nat.
Proof.
  induction n as [|k IH]; intros pq pq' H; simpl in H.
  - injection H as <-. lia.
  - destruct (huffman_step pq) as [pq1|] eqn:Es; [|discriminate].
    destruct (huffman_step_leaves _ _ Es) as [_ HL].
    specialize (IH _ _ H). lia.
Qed.

(** The children of a merge in the derived table: all the symbols below
    the merged node share the path [q] of that node, those below the
    first child go on with bit 0 and those below the second with bit 1. *)
Lemma merge_children_paths (freqs : list (byte * Z)) (n : nat)
  (pq rest : list item) (l r : item) :
  NoDup (map fst freqs) ->
  after_merges n (initial_pq freqs) = Some pq ->
  huffman_step pq = Some (merge l r :: rest) ->
  snd (merge l r) = Node (snd l) (snd r) ->
  exists table q,
    build_optimal_prefix_table freqs = Ok table /\
    (forall a, In a (leaves (snd l)) ->
       exists p, dict_get Byte.eqb table a = Some (q ++ false :: p)) /\
    (forall a, In a (leaves (snd r)) ->
       exists p, dict_get Byte.eqb table a = Some (q ++ true :: p)).
Proof.
  intros Hnd Hreach Hstep Hm.
  destruct (huffman_step_leaves _ _ Hstep) as [_ HL]. simpl in HL.
  pose proof (after_merges_length _ _ _ Hreach) as Hlen.
  destruct (initial_pq_shape freqs) as (Hlen0 & _ & _).
  pose proof (huffman_step_Some_length _ _ Hstep) as H2.
  assert (Hge : (2 <= length freqs)%nat) by lia.
  assert (Hne : freqs <> []).
  { intros E. rewrite E in Hge. simpl in Hge. lia. }
  assert (Hne0 : initial_pq freqs <> []).
  { intros E. rewrite E in Hlen0. simpl in Hlen0. lia. }
  destruct (huffman_loop_spec (length (initial_pq freqs)) (initial_pq freqs)
              Hne0 ltac:(lia)) as (root & Hloop & Hperm & _).
  destruct (build_optimal_prefix_table_spec freqs Hnd Hne)
    as (root' & Hroot & Htable & Hperm' & _).
  assert (root' = snd root) as ->.
  { unfold build_huffman_tree, heapify in Hroot. rewrite Hloop in Hroot.
    simpl in Hroot. congruence. }
  destruct (huffman_loop_after_merges _ _ _ _ _ Hreach Hloop) as (f' & Hloop').
  destruct f' as [|f]; cbn [huffman_loop] in Hloop';
    (replace (1 <? length pq)%nat with true in Hloop'
       by (symmetry; apply Nat.ltb_lt; lia)); [discriminate|].
  rewrite Hstep in Hloop'.
  destruct (huffman_loop_subtree _ _ _ Hloop' (merge l r) ltac:(now left))
    as (q & Hq).
  rewrite Hm in Hq.
  assert (Hkeys : NoDup (map fst (paths (snd root) []))).
  { rewrite paths_keys.
    now apply (Permutation_NoDup (Permutation_sym Hperm')). }
  exists (paths (snd root) []), q. split; [exact Htable|].
  split; intros a Ha.
  - destruct (paths_In_leaves (snd l) (q ++ [false]) a Ha) as (p & Hin).
    exists p. apply dict_get_In; [exact Hkeys|].
    apply (paths_subtree (q ++ [false]) (snd root) (snd l) []).
    + now apply (subtree_app _ _ _ _ _ Hq).
    + rewrite <- app_assoc in Hin. exact Hin.
  - destruct (paths_In_leaves (snd r) (q ++ [true]) a Ha) as (p & Hin).
    exists p. apply dict_get_In; [exact Hkeys|].
    apply (paths_subtree (q ++ [true]) (snd root) (snd r) []).
    + now apply (subtree_app _ _ _ _ _ Hq).
    + rewrite <- app_assoc in Hin. exact Hin.
Qed.

(** C6: in every merge step of the tree construction the two least items
    [l] and [r] under the order on (frequency, tie-break index) leave the
    queue; the parent that enters it has priority (sum of the two
    frequencies, least of the two indices); [l], which has the strictly
    lesser frequency or, on equal frequencies, the lesser index, is the
    first child, and [visit] extends the paths below it with bit 0 and
    those below [r] with bit 1. In the table derived from the finished
    tree (the keys of the map being distinct, as those of a dict are)
    there is one path [q], that of the parent, such that every symbol
    below [l] has a path that starts with [q] followed by bit 0 and every
    symbol below [r] a path that starts with [q] followed by bit 1. *)
Theorem merge_step_canonical (freqs : list (byte * Z)) (n : nat) (pq : list item) :
  after_merges n (initial_pq freqs) = Some pq ->
  (2 <= length pq)%nat ->
  exists l r rest,
    Permutation pq (l :: r :: rest) /\
    Forall (fun x => priority_le (fst l) (fst x)) (r :: rest) /\
    Forall (fun x => priority_le (fst r) (fst x)) rest /\
    huffman_step pq = Some (merge l r :: rest) /\
    priority_lt (fst l) (fst r) /\
    merge l r =
      ((fst (fst l) + fst (fst r), Nat.min (snd (fst l)) (snd (fst r))),
       Node (snd l) (snd r)) /\
    (forall path d,
      visit (snd (merge l r)) path d =
      visit (snd r) (path ++ [true]) (visit (snd l) (path ++ [false]) d)) /\
    (NoDup (map fst freqs) ->
     exists table q,
       build_optimal_prefix_table freqs = Ok table /\
       (forall a, In a (leaves (snd l)) ->
          exists p, dict_get Byte.eqb table a = Some (q ++ false :: p)) /\
       (forall a, In a (leaves (snd r)) ->
          exists p, dict_get Byte.eqb table a = Some (q ++ true :: p))).
Proof.
  intros Hreach Hlen.
  destruct (huffman_step_spec pq Hlen) as (l & r & rest & E & P & Fl & Fr).
  exists l, r, rest.
  assert (Hle : priority_le (fst l) (fst r)) by now inversion Fl.
  assert (Hlt : priority_lt (fst l) (fst r)).
  { apply priority_le_lt; [exact Hle|].
    pose proof (huffman_loop_indices _ _ _ Hreach) as Hnd.
    apply (Permutation_NoDup (indices_perm _ _ P)) in Hnd.
    unfold indices in Hnd. simpl in Hnd.
    inversion Hnd as [|? ? Hl _]; subst. simpl in Hl. intros Heq.
    apply Hl. left. now symmetry. }
  assert (Hm : merge l r =
    ((fst (fst l) + fst (fst r), Nat.min (snd (fst l)) (snd (fst r))),
     Node (snd l) (snd r))).
  { rewrite (surjective_pairing (merge l r)).
    now rewrite merge_priority, merge_tree_ordered. }
  split; [exact P|]. split; [exact Fl|]. split; [exact Fr|].
  split; [exact E|]. split; [exact Hlt|]. split; [exact Hm|]. split.
  - intros path d. rewrite Hm. reflexivity.
  - intros Hnd. apply (merge_children_paths freqs n pq rest l r Hnd Hreach E).
    now rewrite Hm.
Qed.

Lemma merge_step_canonical_witness :
  exists l r rest,
    Permutation
      [((1, 0%nat), Leaf x61); ((2, 1%nat), Leaf x62); ((1, 2%nat), Leaf x63)]
      (l :: r :: rest) /\
    Forall (fun x => priority_le (fst l) (fst x)) (r :: rest) /\
    Forall (fun x => priority_le (fst r) (fst x)) rest /\
    huffman_step
      [((1, 0%nat), Leaf x61); ((2, 1%nat), Leaf x62); ((1, 2%nat), Leaf x63)]
      = Some (merge l r :: rest) /\
    priority_lt (fst l) (fst r) /\
    merge l r =
      ((fst (fst l) + fst (fst r), Nat.min (snd (fst l)) (snd (fst r))),
       Node (snd l) (snd r)) /\
    (forall path d,
      visit (snd (merge l r)) path d =
      visit (snd r) (path ++ [true]) (visit (snd l) (path ++ [false]) d)) /\
    exists table q,
      build_optimal_prefix_table [(x61, 1); (x62, 2); (x63, 1)] = Ok table /\
      (forall a, In a (leaves (snd l)) ->
         exists p, dict_get Byte.eqb table a = Some (q ++ false :: p)) /\
      (forall a, In a (leaves (snd r)) ->
         exists p, dict_get Byte.eqb table a = Some (q ++ true :: p)).
Proof.
  destruct (merge_step_canonical [(x61, 1); (x62, 2); (x63, 1)] 0
              [((1, 0%nat), Leaf x61); ((2, 1%nat), Leaf x62);
               ((1, 2%nat), Leaf x63)])
    as (l & r & rest & H1 & H2 & H3 & H4 & H5 & H6 & H7 & H8).
  - reflexivity.
  - simpl. lia.
  - exists l, r, rest.
    split; [exact H1|]. split; [exact H2|]. split; [exact H3|].
    split; [exact H4|]. split; [exact H5|]. split; [exact H6|].
    split; [exact H7|]. apply H8.
    repeat constructor; simpl; intuition discriminate.
Defined.

(* ================================================================== *)
(** ** compress *)

Lemma all_bytes_complete (b : byte) : In b all_bytes.
Proof.
  assert (H : existsb (Byte.eqb b) all_bytes = true)
    by (destruct b; vm_compute; reflexivity).
  apply existsb_exists in H. destruct H as (x & Hx & E).
  apply Byte.byte_dec_bl in E. now subst.
Qed.

Lemma NoDup_bytes_length (l : list byte) : NoDup l -> (length l <= 256)%nat.
Proof.
  intros H. change 256%nat with (length all_bytes).
  apply NoDup_incl_length; [exact H|]. intros b _. apply all_bytes_complete.
Qed.

Lemma length_bits_to_bytes (bits : list bool) :
  length (bits_to_bytes bits) = ((length bits + 7) / 8)%nat.
Proof.
  revert bits.
  apply (chunk_ind 8 (fun bits =>
           length (bits_to_bytes bits) = ((length bits + 7) / 8)%nat));
    [lia | reflexivity | intros l Hl Hlen | intros c rest Hc IH].
  - rewrite bits_to_bytes_short by (auto; lia). cbn [length].
    assert (0 < length l)%nat by (destruct l; [congruence | simpl; lia]).
    apply (Nat.div_unique _ 8 1 (length l - 1)); lia.
  - rewrite bits_to_bytes_app by exact Hc. cbn [length].
    rewrite IH, length_app, Hc.
    replace (8 + length rest + 7)%nat with (length rest + 7 + 1 * 8)%nat by lia.
    rewrite Nat.div_add by lia. lia.
Qed.

Lemma length_record (e : byte * list bool) :
  (length (snd e) <= 64)%nat -> length (record e) = 10%nat.
Proof.
  intros H. unfold record. cbn [length].
  rewrite length_bits_to_bytes, length_app, repeat_length.
  replace (length (snd e) + (64 - length (snd e)) + 7)%nat with 71%nat by lia.
  reflexivity.
Qed.

Lemma prefix_table_to_bytes_Ok (table : PrefixTable) :
  Forall (fun e => (length (snd e) < 256)%nat) table ->
  prefix_table_to_bytes table = Ok (flat_map record table).
Proof.
  induction 1 as [|[i p] table Hp _ IH]; [reflexivity|].
  simpl in Hp. cbn [prefix_table_to_bytes prefix_entry_to_bytes].
  unfold byte_of_int.
  replace (0 <=? Z.of_nat (length p)) with true by (symmetry; apply Z.leb_le; lia).
  replace (Z.of_nat (length p) <? 256) with true by (symmetry; apply Z.ltb_lt; lia).
  simpl. rewrite IH. reflexivity.
Qed.

Lemma encode_Ok (table : PrefixTable) (s : list byte) :
  (forall b, In b s -> In b (map fst table)) ->
  exists bits, encode table s = Ok bits.
Proof.
  induction s as [|b s IH]; intros H; simpl; [eauto|].
  destruct (dict_get Byte.eqb table b) as [p|] eqn:E.
  - destruct IH as [bits ->]; [intros; apply H; now right|]. simpl. eauto.
  - apply dict_get_None in E. exfalso. apply E, H. now left.
Qed.

(** What [compress] computes on an input with two distinct byte values:
    the only step that can still fail is the conversion of the bit count
    to 8 bytes. *)
Lemma compress_two_distinct (s : list byte) :
  two_distinct s ->
  exists root bits,
    build_huffman_tree (Counter s) = Ok root /\
    (exists l r, root = Node l r) /\
    Permutation (leaves root) (map fst (Counter s)) /\
    build_optimal_prefix_table (Counter s) = Ok (paths root []) /\
    encode (paths root []) s = Ok bits /\
    compress s =
      (h1 <- to_bytes (Z.of_nat (length bits)) 8 ;;
       Ok (h1 ++ be_digits 8 (Z.of_nat (length (paths root [])))
              ++ flat_map record (paths root []) ++ bits_to_bytes bits)).
Proof.
  intros H2.
  assert (Hlen : (2 <= length (Counter s))%nat).
  { destruct (Nat.lt_ge_cases (length (Counter s)) 2) as [H|H]; [|exact H].
    now apply Counter_length_lt_2 in H. }
  pose proof (Counter_NoDup s) as Hnd.
  destruct (build_optimal_prefix_table_spec (Counter s) Hnd)
    as (root & Hroot & Htable & Hperm & Hnode).
  { destruct (Counter s); [simpl in Hlen; lia | discriminate]. }
  destruct (encode_Ok (paths root []) s) as [bits Hbits].
  { intros b Hb. rewrite paths_keys.
    apply (Permutation_in _ (Permutation_sym Hperm)). now apply Counter_keys. }
  exists root, bits. repeat split; try assumption; [now apply Hnode|].
  assert (Hleaves : (length (leaves root) <= 256)%nat).
  { apply NoDup_bytes_length.
    now apply (Permutation_NoDup (Permutation_sym Hperm)). }
  unfold compress.
  replace (length (Counter s) <? 2)%nat with false
    by (symmetry; apply Nat.ltb_ge; lia).
  rewrite Htable. cbn [bind]. rewrite Hbits. cbn [bind].
  rewrite prefix_table_to_bytes_Ok.
  - cbn [bind]. destruct (to_bytes (Z.of_nat (length bits)) 8); [|reflexivity].
    cbn [bind]. rewrite to_bytes_in_range; [reflexivity|].
    rewrite <- (length_map fst), paths_keys.
    change (256 ^ Z.of_nat 8) with 18446744073709551616. lia.
  - rewrite Forall_forall. intros [a pa] Ha.
    destruct (paths_extend _ _ _ _ Ha) as (q & -> & Hq). simpl. lia.
Qed.

Lemma compress_InvalidInput_iff (s : list byte) :
  compress s = Raise InvalidInput <-> ~ two_distinct s.
Proof.
  split.
  - intros Hc H2.
    destruct (compress_two_distinct s H2) as (root & bits & _ & _ & _ & _ & _ & E).
    rewrite E in Hc. unfold to_bytes in Hc.
    destruct (_ && _) in Hc; discriminate.
  - intros H. apply Counter_length_lt_2 in H. unfold compress.
    apply Nat.ltb_lt in H. now rewrite H.
Qed.

Lemma compress_Ok_two_distinct (s c : list byte) :
  compress s = Ok c -> two_distinct s.
Proof.
  unfold compress. destruct (length (Counter s) <? 2)%nat eqn:E; [discriminate|].
  intros _. apply Counter_length_ge_2. now apply Nat.ltb_ge in E.
Qed.

(** C2: [compress] fails with the error for invalid input exactly on the
    buffers that hold fewer than two distinct byte values; the empty
    buffer and every buffer that repeats one byte value are among them. A
    failed call returns the error and no output. *)
Theorem compress_invalid_input :
  (forall s, compress s = Raise InvalidInput <-> ~ two_distinct s) /\
  compress [] = Raise InvalidInput /\
  (forall b n, compress (repeat b n) = Raise InvalidInput).
Proof.
  split; [exact compress_InvalidInput_iff|]. split; [reflexivity|].
  intros b n. apply compress_InvalidInput_iff. intros (x & y & Hxy & Hx & Hy).
  apply repeat_spec in Hx, Hy. congruence.
Qed.

(* ================================================================== *)
(** ** Reading the table segment back *)

Lemma batched_records (table : PrefixTable) :
  Forall (fun e => (length (snd e) <= 64)%nat) table ->
  batched (flat_map record table) 10 = map record table.
Proof.
  induction 1 as [|e table He _ IH]; [reflexivity|].
  cbn [flat_map map]. rewrite batched_app; [now rewrite IH | lia |].
  now apply length_record.
Qed.

Lemma record_path (p : list bool) :
  (length p <= 64)%nat ->
  take (Z_of_byte (byte_of_Z (Z.of_nat (length p))))
       (bytes_to_bits (bits_to_bytes (p ++ repeat false (64 - length p)))) = p.
Proof.
  intros H. rewrite Z_of_byte_of_Z by lia.
  rewrite bytes_to_bits_to_bytes_aligned.
  - now apply take_app_exact.
  - rewrite length_app, repeat_length.
    now replace (length p + (64 - length p))%nat with 64%nat by lia.
Qed.

Lemma recover_prefix_table_records (table : PrefixTable) :
  forall d,
    Forall (fun e => (length (snd e) <= 64)%nat) table ->
    NoDup (map fst d ++ map fst table) ->
    recover_prefix_table (map record table) d = Ok (d ++ table).
Proof.
  induction table as [|[i p] table IH]; intros d Hlen Hnd.
  - simpl. now rewrite app_nil_r.
  - inversion Hlen as [|? ? Hp Hlen']; subst. simpl in Hp.
    cbn [map record fst snd recover_prefix_table].
    rewrite (record_path p Hp).
    rewrite dict_set_fresh.
    + rewrite IH; [now rewrite <- app_assoc | exact Hlen' |].
      rewrite map_app. simpl. now rewrite <- app_assoc.
    + apply NoDup_remove_2 in Hnd. intros Hin. apply Hnd.
      apply in_or_app. now left.
Qed.

(* ================================================================== *)
(** ** Rebuilding the trie *)

Lemma vacant_app (p : list bool) :
  forall T q, vacant T p -> vacant T (p ++ q).
Proof.
  induction p as [|bit p IH]; intros T q H.
  - destruct T; simpl in *; tauto.
  - destruct T; simpl in *; [tauto | tauto | now apply IH].
Qed.

Lemma add_graft (p : list bool) (data : byte) :
  forall T, vacant T p -> add T p data = Ok (graft T p (PLeaf data)).
Proof.
  induction p as [|bit p IH]; intros T H.
  - destruct T; simpl in *; tauto.
  - destruct T as [|d|l r]; simpl in *; [|tauto|].
    + rewrite (IH PNone I). simpl. now destruct bit.
    + destruct bit; simpl in *; now rewrite IH.
Qed.

Lemma vacant_graft_sibling (p : list bool) (L : PrefixTree) :
  forall T, vacant T p -> vacant (graft T (p ++ [false]) L) (p ++ [true]).
Proof.
  induction p as [|bit p IH]; intros T H.
  - destruct T; simpl in *; tauto.
  - destruct T as [|d|l r]; simpl in *; [|tauto|].
    + destruct bit; simpl; now apply (IH PNone).
    + destruct bit; simpl in *; now apply IH.
Qed.

Lemma graft_graft (p : list bool) (L R : PrefixTree) :
  forall T,
    vacant T p ->
    graft (graft T (p ++ [false]) L) (p ++ [true]) R = graft T p (PNode L R).
Proof.
  induction p as [|bit p IH]; intros T H.
  - destruct T; simpl in *; tauto.
  - destruct T as [|d|l r]; simpl in *; [|tauto|].
    + destruct bit; simpl; now rewrite (IH PNone).
    + destruct bit; simpl in *; now rewrite IH.
Qed.

(** Inserting the entries of a subtree, in visiting order, at a vacant
    position puts the subtree's shape there. *)
Lemma add_all_paths (t : HuffmanTree) :
  forall p T rest,
    vacant T p ->
    add_all T (paths t p ++ rest) = add_all (graft T p (embed t)) rest.
Proof.
  induction t as [data|l IHl r IHr]; intros p T rest H.
  - simpl. now rewrite add_graft.
  - cbn [paths embed]. rewrite <- app_assoc.
    rewrite IHl by now apply vacant_app.
    rewrite IHr by now apply vacant_graft_sibling.
    now rewrite graft_graft.
Qed.

Lemma build_prefix_tree_paths (l r : HuffmanTree) :
  build_prefix_tree (paths (Node l r) []) = Ok (embed (Node l r)).
Proof.
  unfold build_prefix_tree. cbn [paths app].
  rewrite (add_all_paths l [false]) by exact I.
  rewrite <- (app_nil_r (paths r [true])).
  rewrite (add_all_paths r [true]) by exact I.
  reflexivity.
Qed.

(* ================================================================== *)
(** ** Decoding *)

Lemma decode_loop_mono (R : PrefixTree) (f : nat) :
  forall node bits out f',
    decode_loop f R node bits = Ok out -> (f <= f')%nat ->
    decode_loop f' R node bits = Ok out.
Proof.
  induction f as [|f IH]; intros node bits out f' H Hle; [discriminate|].
  destruct f' as [|f']; [lia|]. simpl in *.
  destruct node as [|data|l r]; [discriminate| |].
  - destruct (bind_Ok _ _ _ H) as (o & Ho & Eo).
    rewrite (IH _ _ _ f' Ho) by lia. exact Eo.
  - destruct bits as [|bit bits]; [exact H|]. apply IH; [exact H | lia].
Qed.

(** Reading the code of a symbol from the root of the subtree it lies in
    leads to the leaf of that symbol. *)
Lemma decode_walk (t : HuffmanTree) :
  forall p b pa,
    In (b, pa) (paths t p) ->
    exists q,
      pa = p ++ q /\
      forall fuel R rest,
        decode_loop (length q + fuel) R (embed t) (q ++ rest) =
        decode_loop fuel R (PLeaf b) rest.
Proof.
  induction t as [data|l IHl r IHr]; intros p b pa H; simpl in H.
  - destruct H as [H|[]]. injection H as <- <-. exists [].
    now rewrite app_nil_r.
  - apply in_app_or in H. destruct H as [H|H].
    + destruct (IHl _ _ _ H) as (q & -> & Hq). exists (false :: q).
      rewrite <- app_assoc. split; [reflexivity|].
      intros fuel R rest. simpl. apply Hq.
    + destruct (IHr _ _ _ H) as (q & -> & Hq). exists (true :: q).
      rewrite <- app_assoc. split; [reflexivity|].
      intros fuel R rest. simpl. apply Hq.
Qed.

Lemma decode_encode (l r : HuffmanTree) (s : list byte) :
  forall bits,
    encode (paths (Node l r) []) s = Ok bits ->
    decode_loop (length bits + length s + 1)
      (embed (Node l r)) (embed (Node l r)) bits = Ok s /\
    (length s <= length bits)%nat.
Proof.
  induction s as [|b s IH]; intros bits H.
  - simpl in H. injection H as <-. split; [reflexivity | simpl; lia].
  - cbn [encode] in H.
    destruct (dict_get Byte.eqb (paths (Node l r) []) b) as [pa|] eqn:E;
      [|discriminate].
    destruct (bind_Ok _ _ _ H) as (bits' & Hbits' & Hb). injection Hb as <-.
    destruct (IH _ Hbits') as [Hdec Hlen].
    apply dict_get_Some_In in E.
    assert (Hpa : pa <> []).
    { simpl in E. apply in_app_or in E.
      destruct E as [E|E]; apply paths_extend in E;
        destruct E as (q & -> & _); discriminate. }
    destruct (decode_walk _ _ _ _ E) as (q & Hq & Hwalk). simpl in Hq. subst q.
    split.
    + rewrite length_app. cbn [length].
      replace (length pa + length bits' + S (length s) + 1)%nat
        with (length pa + S (length bits' + length s + 1))%nat by lia.
      rewrite Hwalk. cbn [decode_loop]. now rewrite Hdec.
    + rewrite length_app. cbn [length].
      destruct pa; [congruence | simpl; lia].
Qed.

Lemma decode_data_bits_encode (l r : HuffmanTree) (s : list byte) (bits : list bool) :
  encode (paths (Node l r) []) s = Ok bits ->
  decode_data_bits (embed (Node l r)) bits = Ok s.
Proof.
  intros H. destruct (decode_encode l r s bits H) as [Hdec Hlen].
  unfold decode_data_bits. eapply decode_loop_mono; [exact Hdec | lia].
Qed.

(* ================================================================== *)
(** ** Parsing a container *)

Lemma parse_container (h1 h2 tbl data : list byte) :
  length h1 = 8%nat -> length h2 = 8%nat ->
  Z.of_nat (length tbl) = from_bytes h2 * 10 ->
  let c := h1 ++ h2 ++ tbl ++ data in
  take 8 c = h1 /\
  slice c 8 16 = h2 /\
  slice c 16 (16 + from_bytes h2 * 10) = tbl /\
  drop (16 + from_bytes h2 * 10) c = data.
Proof.
  intros H1 H2 Ht c. subst c. unfold slice. repeat split.
  - apply take_app_exact. lia.
  - rewrite drop_app_exact by lia. apply take_app_exact. lia.
  - rewrite (app_assoc h1 h2), drop_app_exact by (rewrite length_app; lia).
    apply take_app_exact. lia.
  - rewrite (app_assoc h1 h2), (app_assoc (h1 ++ h2) tbl).
    apply drop_app_exact. rewrite !length_app. lia.
Qed.

Lemma length_flat_map_record (table : PrefixTable) :
  Forall (fun e => (length (snd e) <= 64)%nat) table ->
  length (flat_map record table) = (10 * length table)%nat.
Proof.
  induction 1 as [|e table He _ IH]; [reflexivity|].
  cbn [flat_map length]. rewrite length_app, IH, length_record by exact He. lia.
Qed.

(** The round trip, for an input with two distinct byte values whose
    codes have at most 64 bits and whose encoding has fewer than 2^64
    bits. *)
Lemma decompress_compress (x : list byte) (table : PrefixTable) (bits : list bool) :
  two_distinct x ->
  build_optimal_prefix_table (Counter x) = Ok table ->
  encode table x = Ok bits ->
  (forall sym p, In (sym, p) table -> (length p <= 64)%nat) ->
  Z.of_nat (length bits) < 2 ^ 64 ->
  exists c, compress x = Ok c /\ decompress c = Ok x.
Proof.
  intros H2 Htable Hbits Hshort Hfit.
  destruct (compress_two_distinct x H2)
    as (root & bits' & Hroot & (l & r & Hnode) & Hperm & Htable' & Hbits' & Hc).
  rewrite Htable in Htable'. injection Htable' as ->.
  rewrite Hbits in Hbits'. injection Hbits' as <-.
  assert (Hnd : NoDup (leaves root))
    by (apply (Permutation_NoDup (Permutation_sym Hperm)), Counter_NoDup).
  assert (Hlen256 : (length (paths root []) <= 256)%nat).
  { rewrite <- (length_map fst), paths_keys. now apply NoDup_bytes_length. }
  assert (Hall : Forall (fun e => (length (snd e) <= 64)%nat) (paths root [])).
  { rewrite Forall_forall. intros [sym p] Hin. simpl. eauto. }
  rewrite to_bytes_in_range in Hc
    by (change (256 ^ Z.of_nat 8) with (2 ^ 64); lia).
  cbn [bind] in Hc. eexists. split; [exact Hc|].
  unfold decompress.
  destruct (parse_container
              (be_digits 8 (Z.of_nat (length bits)))
              (be_digits 8 (Z.of_nat (length (paths root []))))
              (flat_map record (paths root []))
              (bits_to_bytes bits)) as (P1 & P2 & P3 & P4).
  { apply length_be_digits. }
  { apply length_be_digits. }
  { rewrite length_flat_map_record by exact Hall.
    rewrite from_bytes_be_digits by (change (256 ^ Z.of_nat 8) with (2 ^ 64); lia).
    lia. }
  rewrite P1, P2, P3, P4.
  rewrite batched_records by exact Hall.
  rewrite recover_prefix_table_records;
    [|exact Hall | simpl; now rewrite paths_keys].
  cbn [bind app]. subst root. rewrite build_prefix_tree_paths. cbn [bind].
  rewrite from_bytes_be_digits by (change (256 ^ Z.of_nat 8) with (2 ^ 64); lia).
  destruct (bytes_to_bits_to_bytes_pad bits) as [k ->].
  rewrite take_app_exact by reflexivity.
  now apply decode_data_bits_encode.
Qed.

(* ================================================================== *)
(** ** Buffers given by their runs *)

Lemma dict_get_last {V : Type} (d : list (byte * V)) (b : byte) (c : V) :
  ~ In b (map fst d) -> dict_get Byte.eqb (d ++ [(b, c)]) b = Some c.
Proof.
  induction d as [|[k v] d IH]; simpl; intros H.
  - now rewrite byte_eqb_refl.
  - rewrite byte_eqb_neq by (intros ->; tauto). apply IH. tauto.
Qed.

Lemma dict_set_last {V : Type} (d : list (byte * V)) (b : byte) (c v : V) :
  ~ In b (map fst d) ->
  dict_set Byte.eqb (d ++ [(b, c)]) b v = d ++ [(b, v)].
Proof.
  induction d as [|[k w] d IH]; simpl; intros H.
  - now rewrite byte_eqb_refl.
  - rewrite byte_eqb_neq by (intros ->; tauto). f_equal. apply IH. tauto.
Qed.

Lemma Counter_fold_repeat_last (d : list (byte * Z)) (b : byte) (k : nat) :
  ~ In b (map fst d) ->
  forall c,
    fold_left Counter_add (repeat b k) (d ++ [(b, c)]) =
    d ++ [(b, c + Z.of_nat k)].
Proof.
  intros H. induction k as [|k IH]; intros c.
  - simpl. now rewrite Z.add_0_r.
  - cbn [repeat fold_left]. unfold Counter_add at 2.
    rewrite dict_get_last, dict_set_last by exact H.
    rewrite IH. do 3 f_equal. lia.
Qed.

Lemma Counter_fold_repeat_fresh (d : list (byte * Z)) (b : byte) (n : Z) :
  ~ In b (map fst d) -> 0 < n ->
  fold_left Counter_add (repeat b (Z.to_nat n)) d = d ++ [(b, n)].
Proof.
  intros H Hn.
  replace (Z.to_nat n) with (S (Z.to_nat (n - 1))) by lia.
  cbn [repeat fold_left]. unfold Counter_add at 2.
  replace (dict_get Byte.eqb d b) with (@None Z)
    by (symmetry; now apply dict_get_None).
  rewrite dict_set_fresh by exact H.
  rewrite Counter_fold_repeat_last by exact H. do 3 f_equal. lia.
Qed.

Lemma Counter_fold_runs (l : list (byte * Z)) :
  forall d,
    NoDup (map fst d ++ map fst l) ->
    Forall (fun e => 0 < snd e) l ->
    fold_left Counter_add (runs l) d = d ++ l.
Proof.
  induction l as [|[b n] l IH]; intros d Hnd Hpos.
  - simpl. now rewrite app_nil_r.
  - inversion Hpos as [|? ? Hn Hpos']; subst. simpl in Hn.
    unfold runs. cbn [flat_map fst snd]. rewrite fold_left_app.
    fold (runs l). rewrite Counter_fold_repeat_fresh; [|  | exact Hn].
    + rewrite IH; [now rewrite <- app_assoc | | exact Hpos'].
      rewrite map_app. simpl. now rewrite <- app_assoc.
    + apply NoDup_remove_2 in Hnd. intros Hin. apply Hnd.
      apply in_or_app. now left.
Qed.

(** Counting the bytes of a buffer made of runs of pairwise distinct
    bytes gives the runs back. *)
Lemma Counter_runs (l : list (byte * Z)) :
  NoDup (map fst l) -> Forall (fun e => 0 < snd e) l -> Counter (runs l) = l.
Proof.
  intros Hnd Hpos. unfold Counter. now rewrite Counter_fold_runs.
Qed.

Lemma encode_app (table : PrefixTable) (a b : list byte) :
  encode table (a ++ b) =
  (x <- encode table a ;; y <- encode table b ;; Ok (x ++ y)).
Proof.
  induction a as [|i a IH]; simpl.
  - destruct (encode table b); reflexivity.
  - destruct (dict_get Byte.eqb table i) as [p|]; [|reflexivity].
    rewrite IH. destruct (encode table a) as [x|]; [|reflexivity]. simpl.
    destruct (encode table b) as [y|]; [|reflexivity]. simpl.
    now rewrite app_assoc.
Qed.

Lemma encode_repeat (table : PrefixTable) (b : byte) (p : list bool) (k : nat) :
  dict_get Byte.eqb table b = Some p ->
  exists bits,
    encode table (repeat b k) = Ok bits /\
    length bits = (k * length p)%nat.
Proof.
  intros H. induction k as [|k (bits & E & L)]; simpl; [eauto|].
  rewrite H, E. simpl. eexists. split; [reflexivity|].
  rewrite length_app. lia.
Qed.

Lemma encode_runs (table : PrefixTable) (l : list (byte * Z)) :
  Forall (fun e => 0 <= snd e /\ dict_get Byte.eqb table (fst e) <> None) l ->
  exists bits,
    encode table (runs l) = Ok bits /\
    Z.of_nat (length bits) = runs_size table l.
Proof.
  induction 1 as [|[b n] l [Hn Hp] _ (bits & E & L)]; simpl; [eauto|].
  simpl in Hn, Hp.
  destruct (dict_get Byte.eqb table b) as [p|] eqn:Eb; [|congruence].
  destruct (encode_repeat table b p (Z.to_nat n) Eb) as (bits1 & E1 & L1).
  unfold runs in *. cbn [flat_map fst snd]. rewrite encode_app, E1, E.
  simpl. eexists. split; [reflexivity|].
  rewrite length_app, Nat2Z.inj_add, L, L1. nia.
Qed.

Lemma NoDup_by_nodup (l : list byte) :
  nodup Byte.byte_eq_dec l = l -> NoDup l.
Proof. intros <-. apply NoDup_nodup. Qed.

Lemma Forall_by_forallb {A : Type} (f : A -> bool) (P : A -> Prop) (l : list A) :
  (forall x, f x = true -> P x) -> forallb f l = true -> Forall P l.
Proof.
  intros HP H. rewrite forallb_forall in H. apply Forall_forall.
  intros x Hx. now apply HP, H.
Qed.

Lemma runs_two_distinct (l : list (byte * Z)) (a b : byte) :
  NoDup (map fst l) -> Forall (fun e => 0 < snd e) l ->
  In a (map fst l) -> In b (map fst l) -> a <> b -> two_distinct (runs l).
Proof.
  intros Hnd Hpos Ha Hb Hab. exists a, b. split; [exact Hab|].
  split; apply Counter_keys; now rewrite Counter_runs.
Qed.

(** What [compress] returns for a buffer made of runs: the table comes
    from the runs themselves, and the payload is the only part that is as
    long as the buffer. *)
Lemma compress_runs (l : list (byte * Z)) (root : HuffmanTree) :
  NoDup (map fst l) -> Forall (fun e => 0 < snd e) l ->
  (2 <= length l)%nat ->
  build_huffman_tree l = Ok root ->
  exists bits,
    encode (paths root []) (runs l) = Ok bits /\
    Z.of_nat (length bits) = runs_size (paths root []) l /\
    compress (runs l) =
      (h1 <- to_bytes (runs_size (paths root []) l) 8 ;;
       Ok (h1 ++ be_digits 8 (Z.of_nat (length (paths root [])))
              ++ flat_map record (paths root []) ++ bits_to_bytes bits)).
Proof.
  intros Hnd Hpos Hlen Hroot.
  assert (H2 : two_distinct (runs l)).
  { destruct l as [|[a na] [|[b nb] l']]; try (simpl in Hlen; lia).
    apply (runs_two_distinct _ a b); simpl; auto.
    inversion Hnd as [|? ? Ha _]; subst. simpl in Ha. intuition congruence. }
  destruct (compress_two_distinct _ H2)
    as (root' & bits & Hroot' & _ & Hperm & _ & Hbits & Hc).
  rewrite Counter_runs in Hroot', Hperm by assumption.
  rewrite Hroot in Hroot'. injection Hroot' as <-.
  destruct (encode_runs (paths root []) l) as (bits' & Hbits' & Hsize).
  { rewrite Forall_forall in *. intros e He. split; [specialize (Hpos e He); lia|].
    rewrite dict_get_None, paths_keys. intros Hout. apply Hout.
    apply (Permutation_in _ (Permutation_sym Hperm)). now apply in_map. }
  rewrite Hbits in Hbits'. injection Hbits' as <-.
  exists bits. rewrite <- Hsize. auto.
Qed.

(* ================================================================== *)
(** ** decompress on arbitrary buffers *)

Lemma from_bytes_nonneg (bs : list byte) : 0 <= from_bytes bs.
Proof.
  unfold from_bytes.
  assert (H : forall acc, 0 <= acc ->
            0 <= fold_left (fun a b => a * 256 + Z_of_byte b) bs acc).
  { induction bs as [|b bs IH]; intros acc Hacc; simpl; [exact Hacc|].
    apply IH. pose proof (Z_of_byte_range b). lia. }
  apply H. lia.
Qed.

Lemma recover_prefix_table_error (batches : list (list byte)) :
  forall d e, recover_prefix_table batches d = Raise e -> e = unpack_error.
Proof.
  induction batches as [|b batches IH]; intros d e H; [discriminate|].
  destruct b as [|data [|pathlen path]]; simpl in H;
    try (injection H as <-; reflexivity).
  eapply IH. exact H.
Qed.

(** A table segment whose last record holds a single byte cannot be
    unpacked. *)
Lemma recover_prefix_table_cut (bs : list byte) :
  (length bs mod 10 = 1)%nat ->
  forall d, recover_prefix_table (batched bs 10) d = Raise unpack_error.
Proof.
  revert bs.
  apply (chunk_ind 10 (fun bs => (length bs mod 10 = 1)%nat ->
           forall d, recover_prefix_table (batched bs 10) d = Raise unpack_error));
    [lia | discriminate | intros l Hl Hlen Hmod d | intros c rest Hc IH Hmod d].
  - rewrite Nat.mod_small in Hmod by exact Hlen.
    destruct l as [|x [|y l]]; try discriminate. reflexivity.
  - rewrite batched_app by (auto; lia).
    destruct c as [|data [|pathlen path]]; try discriminate.
    cbn [recover_prefix_table]. apply IH.
    rewrite length_app, Hc in Hmod.
    replace (10 + length rest)%nat with (length rest + 1 * 10)%nat in Hmod by lia.
    now rewrite Nat.Div0.mod_add in Hmod.
Qed.

Lemma add_error (path : list bool) (data : byte) :
  forall node e, add node path data = Raise e -> e = ValueError "unreachable".
Proof.
  induction path as [|bit rest IH]; intros node e H.
  - destruct node; simpl in H; [discriminate | |]; now injection H as <-.
  - destruct node as [|d|l r]; simpl in H.
    + destruct (add PNone rest data) as [t|e'] eqn:E; simpl in H.
      * destruct bit; discriminate.
      * injection H as <-. eapply IH. exact E.
    + now injection H as <-.
    + destruct bit; simpl in H.
      * destruct (add r rest data) as [t|e'] eqn:E; simpl in H; [discriminate|].
        injection H as <-. eapply IH. exact E.
      * destruct (add l rest data) as [t|e'] eqn:E; simpl in H; [discriminate|].
        injection H as <-. eapply IH. exact E.
Qed.

Lemma add_PNode (l r : PrefixTree) (path : list bool) (data : byte) (T : PrefixTree) :
  add (PNode l r) path data = Ok T -> exists l' r', T = PNode l' r'.
Proof.
  destruct path as [|bit rest]; simpl; [discriminate|].
  destruct bit; simpl.
  - destruct (add r rest data); simpl; [|discriminate].
    intros H. injection H as <-. eauto.
  - destruct (add l rest data); simpl; [|discriminate].
    intros H. injection H as <-. eauto.
Qed.

Lemma add_all_PNode (table : PrefixTable) :
  forall l r,
    match add_all (PNode l r) table with
    | Ok T => exists l' r', T = PNode l' r'
    | Raise e => e = ValueError "unreachable"
    end.
Proof.
  induction table as [|[data prefix] table IH]; intros l r; simpl; [eauto|].
  destruct (add (PNode l r) prefix data) as [T|e] eqn:E; simpl.
  - destruct (add_PNode _ _ _ _ _ E) as (l' & r' & ->). apply IH.
  - eapply add_error. exact E.
Qed.

(** With a trie whose root is an internal node the decoding loop ends
    within the fuel [decode_data_bits] gives it. *)
Lemma decode_loop_terminates (l r : PrefixTree) (fuel : nat) :
  forall node bits,
    (2 * length bits + match node with PLeaf _ => 2 | _ => 1 end <= fuel)%nat ->
    match decode_loop fuel (PNode l r) node bits with
    | Ok _ => True
    | Raise e => e = ValueError "unreachable"
    end.
Proof.
  induction fuel as [|f IH]; intros node bits Hf.
  - destruct node; lia.
  - destruct node as [|data|a b]; cbv iota in Hf; simpl; [reflexivity | |].
    + specialize (IH (PNode l r) bits ltac:(cbv iota; lia)).
      destruct (decode_loop f (PNode l r) (PNode l r) bits); simpl; auto.
    + destruct bits as [|bit bits]; [exact I|].
      apply IH. cbn [length] in Hf. destruct (if negb bit then a else b); lia.
Qed.

(** [decompress] always ends, and the only errors it raises are the two
    [ValueError]s of unpacking a record and of the unreachable cases. *)
Lemma decompress_errors (s : list byte) (e : exn) :
  decompress s = Raise e -> e = unpack_error \/ e = ValueError "unreachable".
Proof.
  unfold decompress. intros H.
  destruct (recover_prefix_table _ _) as [table|e1] eqn:E1; simpl in H.
  - unfold build_prefix_tree in H.
    pose proof (add_all_PNode table PNone PNone) as HT.
    destruct (add_all (PNode PNone PNone) table) as [T|e2]; simpl in H.
    + destruct HT as (l & r & ->). unfold decode_data_bits in H.
      match type of H with
      | decode_loop ?f _ ?n ?b = _ =>
          pose proof (decode_loop_terminates l r f n b ltac:(cbv iota; lia)) as HD
      end.
      rewrite H in HD. now right.
    + injection H as <-. now right.
  - injection H as <-. left. eapply recover_prefix_table_error. exact E1.
Qed.

Lemma decompress_short (s : list byte) :
  (length s < 16)%nat -> decompress s = Ok [].
Proof.
  intros H. unfold decompress.
  pose proof (from_bytes_nonneg (slice s 8 16)) as Hn.
  assert (E1 : slice s 16 (16 + from_bytes (slice s 8 16) * 10) = []).
  { unfold slice. rewrite (drop_all s 16) by lia. reflexivity. }
  assert (E2 : drop (16 + from_bytes (slice s 8 16) * 10) s = []).
  { apply drop_all. lia. }
  rewrite E1, E2. reflexivity.
Qed.

Lemma decompress_cut_record (s : list byte) :
  (length (prefix_segment s) mod 10 = 1)%nat ->
  decompress s = Raise unpack_error.
Proof.
  intros H. unfold decompress. fold (prefix_segment s).
  now rewrite recover_prefix_table_cut.
Qed.

(** A declared number of table entries that reaches past the end of the
    buffer is clipped by the slices: all the bytes after the header are
    read as table records, no payload is left, and the result is the
    empty buffer when the records are accepted. *)
Lemma decompress_table_clipped (s : list byte) :
  Z.of_nat (length s) <= 16 + from_bytes (slice s 8 16) * 10 ->
  prefix_segment s = drop 16 s /\
  data_segment s = [] /\
  decompress s =
    (table <- recover_prefix_table (batched (drop 16 s) 10) [] ;;
     tree <- build_prefix_tree table ;;
     Ok []).
Proof.
  intros H.
  assert (E1 : prefix_segment s = drop 16 s).
  { unfold prefix_segment.
    pose proof (from_bytes_nonneg (slice s 8 16)) as Hn0.
    generalize dependent (from_bytes (slice s 8 16)).
    intros n Hn Hn0. unfold slice. apply take_all.
    rewrite drop_skipn, length_skipn. lia. }
  assert (E2 : data_segment s = []) by (apply drop_all; exact H).
  split; [exact E1|]. split; [exact E2|].
  unfold decompress. fold (prefix_segment s). fold (data_segment s).
  rewrite E1, E2.
  destruct (recover_prefix_table _ _) as [table|e]; [|reflexivity].
  cbn [bind]. unfold build_prefix_tree.
  pose proof (add_all_PNode table PNone PNone) as HT.
  destruct (add_all (PNode PNone PNone) table) as [T|e]; [|reflexivity].
  destruct HT as (l & r & ->). reflexivity.
Qed.

(** A declared number of payload bits that reaches past the end of the
    buffer is clipped as well: all the bits of the payload bytes present
    are decoded. *)
Lemma decompress_bits_clipped (s : list byte) :
  8 * Z.of_nat (length (data_segment s)) <= from_bytes (take 8 s) ->
  decompress s =
    (table <- recover_prefix_table (batched (prefix_segment s) 10) [] ;;
     tree <- build_prefix_tree table ;;
     decode_data_bits tree (bytes_to_bits (data_segment s))).
Proof.
  intros H. unfold decompress. fold (prefix_segment s). fold (data_segment s).
  rewrite (take_all (bytes_to_bits (data_segment s)));
    [reflexivity | rewrite length_bytes_to_bits; lia].
Qed.

(* ================================================================== *)
(** ** The order of the queue is not observable *)

Lemma priority_le_refl (p : priority) : priority_le p p.
Proof. unfold priority_le. lia. Qed.

Lemma item_by_index (pq : list item) (a b : item) :
  NoDup (indices pq) -> In a pq -> In b pq ->
  snd (fst a) = snd (fst b) -> a = b.
Proof.
  unfold indices. induction pq as [|x pq IH]; intros Hnd Ha Hb E; [destruct Ha|].
  simpl in Hnd. inversion Hnd as [|? ? Hx Hnd']; subst.
  destruct Ha as [<-|Ha], Hb as [<-|Hb]; auto.
  - exfalso. apply Hx. rewrite E.
    now apply (in_map (fun y : item => snd (fst y))).
  - exfalso. apply Hx. rewrite <- E.
    now apply (in_map (fun y : item => snd (fst y))).
Qed.

(** With pairwise distinct indices a queue has one least item. *)
Lemma least_unique (pq : list item) (a b : item) :
  NoDup (indices pq) -> In a pq -> In b pq ->
  Forall (fun x => priority_le (fst a) (fst x)) pq ->
  Forall (fun x => priority_le (fst b) (fst x)) pq ->
  a = b.
Proof.
  intros Hnd Ha Hb Fa Fb. apply (item_by_index pq); auto.
  rewrite Forall_forall in Fa, Fb.
  specialize (Fa b Hb). specialize (Fb a Ha).
  unfold priority_le in *. lia.
Qed.

Lemma heappop_perm (pq pq' : list item) (m : item) (rest : list item) :
  NoDup (indices pq) -> Permutation pq pq' ->
  heappop pq = Some (m, rest) ->
  exists rest', heappop pq' = Some (m, rest') /\ Permutation rest rest'.
Proof.
  intros Hnd P E.
  destruct (heappop_spec _ _ _ E) as [P1 F1].
  destruct (heappop_Some pq') as (m' & rest' & E').
  { intros ->. apply Permutation_sym, Permutation_nil in P. subst.
    discriminate. }
  destruct (heappop_spec _ _ _ E') as [P1' F1'].
  assert (m' = m) as ->.
  { apply (least_unique pq); auto.
    - apply (Permutation_in _ (Permutation_sym P)).
      apply (Permutation_in _ (Permutation_sym P1')). now left.
    - apply (Permutation_in _ (Permutation_sym P1)). now left.
    - apply (Permutation_Forall (Permutation_sym P)).
      apply (Permutation_Forall (Permutation_sym P1')).
      constructor; [apply priority_le_refl | exact F1'].
    - apply (Permutation_Forall (Permutation_sym P1)).
      constructor; [apply priority_le_refl | exact F1]. }
  exists rest'. split; [exact E'|].
  apply (Permutation_cons_inv (a := m)).
  now rewrite <- P1, <- P1'.
Qed.

Lemma huffman_step_perm (pq pq' q : list item) :
  NoDup (indices pq) -> Permutation pq pq' ->
  huffman_step pq = Some q ->
  exists q', huffman_step pq' = Some q' /\ Permutation q q'.
Proof.
  unfold huffman_step. intros Hnd P H.
  destruct (heappop pq) as [[l pq1]|] eqn:E1; [|discriminate].
  destruct (heappop pq1) as [[r pq2]|] eqn:E2; [|discriminate].
  injection H as <-.
  destruct (heappop_perm _ _ _ _ Hnd P E1) as (pq1' & E1' & P1).
  assert (Hnd1 : NoDup (indices pq1)).
  { destruct (heappop_spec _ _ _ E1) as [Q _].
    apply (Permutation_NoDup (indices_perm _ _ Q)) in Hnd.
    now inversion Hnd. }
  destruct (heappop_perm _ _ _ _ Hnd1 P1 E2) as (pq2' & E2' & P2).
  rewrite E1', E2'. eexists. split; [reflexivity|].
  unfold heappush. now constructor.
Qed.

Lemma huffman_loop_perm (fuel : nat) :
  forall pq pq' out,
    NoDup (indices pq) -> Permutation pq pq' ->
    huffman_loop fuel pq = Ok out ->
    exists out', huffman_loop fuel pq' = Ok out' /\ Permutation out out'.
Proof.
  induction fuel as [|f IH]; intros pq pq' out Hnd P H;
    pose proof (Permutation_length P) as HL; cbn [huffman_loop] in *;
    rewrite <- HL; destruct (1 <? length pq)%nat; try discriminate;
    try (injection H as <-; eauto; fail).
  destruct (huffman_step pq) as [q|] eqn:E; [|discriminate].
  destruct (huffman_step_perm _ _ _ Hnd P E) as (q' & E' & Pq).
  rewrite E'. apply (IH q); auto. eapply huffman_step_indices; eassumption.
Qed.

(** Whatever order the queue holds the initial items in, the merge loop
    ends with the same item. *)
Lemma huffman_loop_order_irrelevant (freqs : list (byte * Z)) (pq : list item) :
  Permutation (initial_pq freqs) pq ->
  huffman_loop (length pq) pq =
  huffman_loop (length (initial_pq freqs)) (initial_pq freqs).
Proof.
  intros P. destruct freqs as [|e freqs].
  - apply Permutation_nil in P. now subst.
  - rewrite <- (Permutation_length P).
    destruct (huffman_loop_spec (length (initial_pq (e :: freqs)))
                (initial_pq (e :: freqs))) as (root & Hloop & _);
      [discriminate | lia |].
    destruct (huffman_loop_perm _ _ _ _
                (huffman_loop_indices (e :: freqs) 0 _ eq_refl) P Hloop)
      as (out' & Hloop' & Pout).
    apply Permutation_length_1_inv in Pout. subst out'.
    now rewrite Hloop, Hloop'.
Qed.

(** C9: [compress] is a function of its input buffer, so two runs on the
    same buffer return the same result; the one place where an order
    could be left open, the priority queue, never holds two items that
    tie on (frequency, index), and the merge loop ends with the same tree
    whatever order the queue keeps its items in. *)
Theorem compress_deterministic :
  (forall x r1 r2, compress x = r1 -> compress x = r2 -> r1 = r2) /\
  (forall freqs n pq,
     after_merges n (initial_pq freqs) = Some pq -> NoDup (indices pq)) /\
  (forall freqs pq,
     Permutation (initial_pq freqs) pq ->
     huffman_loop (length pq) pq =
     huffman_loop (length (initial_pq freqs)) (initial_pq freqs)).
Proof.
  split; [congruence|]. split.
  - exact huffman_loop_indices.
  - exact huffman_loop_order_irrelevant.
Qed.

Lemma compress_deterministic_witness :
  compress [x61; x62; x62] = compress [x61; x62; x62] /\
  huffman_loop 3
    [((1, 2%nat), Leaf x63); ((2, 1%nat), Leaf x62); ((1, 0%nat), Leaf x61)] =
  huffman_loop 3
    [((1, 0%nat), Leaf x61); ((2, 1%nat), Leaf x62); ((1, 2%nat), Leaf x63)].
Proof.
  split.
  - apply (proj1 compress_deterministic [x61; x62; x62]); reflexivity.
  - apply (proj2 (proj2 compress_deterministic)
             [(x61, 1); (x62, 2); (x63, 1)]
             [((1, 2%nat), Leaf x63); ((2, 1%nat), Leaf x62);
              ((1, 0%nat), Leaf x61)]).
    simpl. apply Permutation_rev.
Defined.

(* ================================================================== *)
(** ** The container header *)

Lemma distinct_count (s : list byte) (l : list byte) :
  NoDup l -> (forall b, In b l <-> In b s) ->
  length l = length (nodup Byte.byte_eq_dec s).
Proof.
  intros Hnd H. apply Permutation_length, NoDup_Permutation;
    [exact Hnd | apply NoDup_nodup |].
  intros b. now rewrite H, nodup_In.
Qed.

(** The two header fields of every container [compress] returns: the
    first is the number of bits [encode] produced, the second the number
    of table entries, which is the number of distinct byte values of the
    input; the entries that follow are 10 bytes each as long as no path
    has more than 64 bits. *)
Lemma compress_header_fields (s c : list byte) :
  compress s = Ok c ->
  exists table bits,
    build_optimal_prefix_table (Counter s) = Ok table /\
    encode table s = Ok bits /\
    c = be_digits 8 (Z.of_nat (length bits))
          ++ be_digits 8 (Z.of_nat (length table))
          ++ flat_map record table ++ bits_to_bytes bits /\
    from_bytes (take 8 c) = Z.of_nat (length bits) /\
    from_bytes (slice c 8 16) = Z.of_nat (length table) /\
    length table = length (nodup Byte.byte_eq_dec s) /\
    (Forall (fun e => (length (snd e) <= 64)%nat) table ->
     length (flat_map record table) = (10 * length table)%nat).
Proof.
  intros Hc. pose proof (compress_Ok_two_distinct _ _ Hc) as H2.
  destruct (compress_two_distinct s H2)
    as (root & bits & _ & _ & Hperm & Htable & Hbits & E).
  exists (paths root []), bits. rewrite E in Hc.
  destruct (to_bytes (Z.of_nat (length bits)) 8) as [h1|] eqn:Eh; [|discriminate].
  destruct (to_bytes_Ok _ _ _ Eh) as (Hrange & _ & _).
  assert (h1 = be_digits 8 (Z.of_nat (length bits))) as ->
    by (rewrite to_bytes_in_range in Eh by exact Hrange; congruence).
  cbn [bind] in Hc.
  assert (c = be_digits 8 (Z.of_nat (length bits))
                ++ be_digits 8 (Z.of_nat (length (paths root [])))
                ++ flat_map record (paths root []) ++ bits_to_bytes bits) as ->
    by congruence.
  clear Hc.
  assert (Hn : length (paths root []) = length (nodup Byte.byte_eq_dec s)).
  { rewrite <- (length_map fst), paths_keys. apply distinct_count.
    - apply (Permutation_NoDup (Permutation_sym Hperm)), Counter_NoDup.
    - intros b. split; intros Hb.
      + apply Counter_keys. exact (Permutation_in _ Hperm Hb).
      + apply (Permutation_in _ (Permutation_sym Hperm)).
        now apply Counter_keys. }
  assert (H256 : (length (nodup Byte.byte_eq_dec s) <= 256)%nat)
    by apply NoDup_bytes_length, NoDup_nodup.
  split; [exact Htable|]. split; [exact Hbits|]. split; [reflexivity|].
  split; [|split; [|split; [exact Hn|]]].
  - rewrite take_app_exact by (rewrite length_be_digits; reflexivity).
    now apply from_bytes_be_digits.
  - unfold slice.
    rewrite drop_app_exact by (rewrite length_be_digits; reflexivity).
    rewrite take_app_exact by (rewrite length_be_digits; reflexivity).
    apply from_bytes_be_digits.
    change (256 ^ Z.of_nat 8) with 18446744073709551616. lia.
  - apply length_flat_map_record.
Qed.

(* ================================================================== *)
(** ** Two very long buffers *)

Lemma fib_freqs_wf :
  NoDup (map fst fib_freqs) /\ Forall (fun e => 0 < snd e) fib_freqs /\
  (2 <= length fib_freqs)%nat /\ build_huffman_tree fib_freqs = Ok fib_root.
Proof.
  split; [|split; [|split]].
  - apply NoDup_by_nodup. vm_compute. reflexivity.
  - apply (Forall_by_forallb (fun e => 0 <? snd e)).
    + intros e. apply Z.ltb_lt.
    + vm_compute. reflexivity.
  - vm_compute. lia.
  - vm_compute. reflexivity.
Qed.

Lemma uniform_freqs_wf :
  NoDup (map fst uniform_freqs) /\ Forall (fun e => 0 < snd e) uniform_freqs /\
  (2 <= length uniform_freqs)%nat /\
  build_huffman_tree uniform_freqs = Ok uniform_root.
Proof.
  split; [|split; [|split]].
  - apply NoDup_by_nodup. vm_compute. reflexivity.
  - apply (Forall_by_forallb (fun e => 0 <? snd e)).
    + intros e. apply Z.ltb_lt.
    + vm_compute. reflexivity.
  - vm_compute. lia.
  - vm_compute. reflexivity.
Qed.

Lemma x_fib_two_distinct : two_distinct x_fib.
Proof.
  destruct fib_freqs_wf as (Hnd & Hpos & _).
  apply (runs_two_distinct fib_freqs x00 x01 Hnd Hpos);
    [vm_compute; tauto | vm_compute; tauto | discriminate].
Qed.

Lemma x_fib_table :
  build_optimal_prefix_table (Counter x_fib) = Ok (paths fib_root []).
Proof.
  destruct fib_freqs_wf as (Hnd & Hpos & _ & Hroot).
  unfold x_fib. rewrite Counter_runs by assumption.
  destruct (build_optimal_prefix_table_spec fib_freqs Hnd)
    as (root & Hroot' & Htable & _); [discriminate|].
  rewrite Hroot in Hroot'. now injection Hroot' as <-.
Qed.

(** The container of [x_fib]: everything but the payload is known. *)
Lemma compress_x_fib :
  exists bits,
    compress x_fib =
    Ok (be_digits 8 190392490709065 ++ be_digits 8 66
          ++ flat_map record (paths fib_root []) ++ bits_to_bytes bits).
Proof.
  destruct fib_freqs_wf as (Hnd & Hpos & Hlen & Hroot).
  destruct (compress_runs fib_freqs fib_root Hnd Hpos Hlen Hroot)
    as (bits & _ & _ & Hc).
  exists bits. unfold x_fib. rewrite Hc.
  assert (E1 : to_bytes (runs_size (paths fib_root []) fib_freqs) 8 =
               Ok (be_digits 8 190392490709065)) by (vm_compute; reflexivity).
  assert (E2 : Z.of_nat (length (paths fib_root [])) = 66)
    by (vm_compute; reflexivity).
  rewrite E1, E2. reflexivity.
Qed.

(** [decompress] cuts the table segment of that container after 660
    bytes, reads a table in which byte 0 has the one-bit path of byte 65,
    and fails when it builds the trie. *)
Lemma decompress_x_fib (payload : list byte) :
  decompress (be_digits 8 190392490709065 ++ be_digits 8 66
                ++ flat_map record (paths fib_root []) ++ payload) =
  Raise (ValueError "unreachable").
Proof.
  assert (Esplit : flat_map record (paths fib_root []) =
                   firstn 660 (flat_map record (paths fib_root []))
                   ++ skipn 660 (flat_map record (paths fib_root [])))
    by (symmetry; apply firstn_skipn).
  rewrite Esplit, <- app_assoc.
  destruct (parse_container
              (be_digits 8 190392490709065) (be_digits 8 66)
              (firstn 660 (flat_map record (paths fib_root [])))
              (skipn 660 (flat_map record (paths fib_root [])) ++ payload))
    as (P1 & P2 & P3 & P4);
    [reflexivity | reflexivity | vm_compute; reflexivity |].
  unfold decompress. rewrite P2, P3.
  assert (E : exists t,
             recover_prefix_table
               (batched (firstn 660 (flat_map record (paths fib_root []))) 10) []
             = Ok t /\
             build_prefix_tree t = Raise (ValueError "unreachable")).
  { eexists. split; vm_compute; reflexivity. }
  destruct E as (t & -> & Et). cbn [bind]. rewrite Et. reflexivity.
Qed.

Lemma compress_x_overflow : compress x_overflow = Raise OverflowError.
Proof.
  destruct uniform_freqs_wf as (Hnd & Hpos & Hlen & Hroot).
  destruct (compress_runs uniform_freqs uniform_root Hnd Hpos Hlen Hroot)
    as (bits & _ & _ & Hc).
  unfold x_overflow. rewrite Hc.
  assert (E1 : to_bytes (runs_size (paths uniform_root []) uniform_freqs) 8 =
               Raise OverflowError) by (vm_compute; reflexivity).
  rewrite E1. reflexivity.
Qed.

(* ================================================================== *)
(** ** The claims on compress and decompress *)

(** C1, amended: for every buffer [x] with at least two distinct byte
    values, whose prefix table holds no path longer than 64 bits and
    whose encoding has fewer than 2^64 bits, [compress] succeeds and
    [decompress] gives [x] back. *)
Theorem roundtrip_identity (x : list byte) (table : PrefixTable) (bits : list bool) :
  two_distinct x ->
  build_optimal_prefix_table (Counter x) = Ok table ->
  encode table x = Ok bits ->
  (forall sym p, In (sym, p) table -> (length p <= 64)%nat) ->
  Z.of_nat (length bits) < 2 ^ 64 ->
  roundtrip x = Ok x.
Proof.
  intros H2 Htable Hbits Hshort Hfit.
  destruct (decompress_compress x table bits H2 Htable Hbits Hshort Hfit)
    as (c & Hc & Hd).
  unfold roundtrip. now rewrite Hc.
Qed.

Lemma roundtrip_identity_witness :
  roundtrip [x62; x61; x6e; x61; x6e; x61] = Ok [x62; x61; x6e; x61; x6e; x61].
Proof.
  apply (roundtrip_identity [x62; x61; x6e; x61; x6e; x61]
           [(x62, [false; false]); (x6e, [false; true]); (x61, [true])]
           [false; false; true; false; true; true; false; true; true]).
  - exists x62, x61. simpl. intuition discriminate.
  - vm_compute. reflexivity.
  - vm_compute. reflexivity.
  - intros sym p [H|[H|[H|[]]]]; injection H as <- <-; simpl; lia.
  - vm_compute. reflexivity.
Defined.

(** C1 fails as stated, at two buffers with 16 and 66 distinct byte
    values. The encoding of [x_overflow], 2^58 copies of each of 16 byte
    values, has 2^64 bits: the bit count does not fit the 8-byte header
    field and [compress] raises [OverflowError]. The table of [x_fib]
    holds 65-bit paths: [compress] returns a container, and [decompress]
    of that container raises [ValueError]. *)
Lemma roundtrip_counterexample :
  two_distinct x_overflow /\
  roundtrip x_overflow = Raise OverflowError /\
  two_distinct x_fib /\
  roundtrip x_fib = Raise (ValueError "unreachable").
Proof.
  split; [|split; [|split; [exact x_fib_two_distinct|]]].
  - destruct uniform_freqs_wf as (Hnd & Hpos & _).
    apply (runs_two_distinct uniform_freqs x00 x01 Hnd Hpos);
      [vm_compute; tauto | vm_compute; tauto | discriminate].
  - unfold roundtrip. now rewrite compress_x_overflow.
  - destruct compress_x_fib as (bits & Hc). unfold roundtrip.
    rewrite Hc. cbn [bind]. apply decompress_x_fib.
Qed.

(** C3, amended: [decompress] does not check the headers against the
    buffer. A buffer shorter than the 16-byte header decompresses to the
    empty buffer. Counts that exceed what the buffer holds are decoded
    from the bytes present: with a declared number of table entries that
    reaches past the end of the buffer, all the bytes after the header
    are read as table records and the payload is empty; with a declared
    number of payload bits above the bits present, all the bits of the
    payload bytes present are decoded. [decompress] fails when the table
    segment it slices out ends in a record of a single byte, and whenever
    it fails the error is one of its two [ValueError]s (unpacking a
    record, or an unreachable case while the trie is built or walked). *)
Theorem decompress_malformed (s : list byte) :
  ((length s < 16)%nat -> decompress s = Ok []) /\
  (Z.of_nat (length s) <= 16 + from_bytes (slice s 8 16) * 10 ->
   prefix_segment s = drop 16 s /\
   data_segment s = [] /\
   decompress s =
     (table <- recover_prefix_table (batched (drop 16 s) 10) [] ;;
      tree <- build_prefix_tree table ;;
      Ok [])) /\
  (8 * Z.of_nat (length (data_segment s)) <= from_bytes (take 8 s) ->
   decompress s =
     (table <- recover_prefix_table (batched (prefix_segment s) 10) [] ;;
      tree <- build_prefix_tree table ;;
      decode_data_bits tree (bytes_to_bits (data_segment s)))) /\
  ((length (prefix_segment s) mod 10 = 1)%nat ->
   decompress s = Raise unpack_error) /\
  (forall e, decompress s = Raise e ->
             e = unpack_error \/ e = ValueError "unreachable").
Proof.
  split; [apply decompress_short|].
  split; [apply decompress_table_clipped|].
  split; [apply decompress_bits_clipped|].
  split; [apply decompress_cut_record | apply decompress_errors].
Qed.

Lemma decompress_malformed_witness :
  decompress [x00; x00; x00] = Ok [] /\
  decompress [x00; x00; x00; x00; x00; x00; x00; x02;
              x00; x00; x00; x00; x00; x00; x00; x03;
              x61; x01; x00; x00; x00; x00; x00; x00; x00; x00;
              x62; x01; x80; x00; x00; x00; x00; x00; x00; x00]
  = Ok [] /\
  decompress [x00; x00; x00; x00; x00; x00; x00; x10;
              x00; x00; x00; x00; x00; x00; x00; x02;
              x61; x01; x00; x00; x00; x00; x00; x00; x00; x00;
              x62; x01; x80; x00; x00; x00; x00; x00; x00; x00;
              x40]
  = Ok [x61; x62; x61; x61; x61; x61; x61; x61] /\
  decompress [x00; x00; x00; x00; x00; x00; x00; x02;
              x00; x00; x00; x00; x00; x00; x00; x02;
              x61; x01; x00; x00; x00; x00; x00; x00; x00; x00; x62]
  = Raise unpack_error.
Proof.
  split; [|split; [|split]].
  - apply (proj1 (decompress_malformed [x00; x00; x00])). simpl. lia.
  - eapply eq_trans.
    + apply (proj1 (proj2 (decompress_malformed
               [x00; x00; x00; x00; x00; x00; x00; x02;
                x00; x00; x00; x00; x00; x00; x00; x03;
                x61; x01; x00; x00; x00; x00; x00; x00; x00; x00;
                x62; x01; x80; x00; x00; x00; x00; x00; x00; x00]))).
      vm_compute. intros H. discriminate H.
    + vm_compute. reflexivity.
  - eapply eq_trans.
    + apply (proj1 (proj2 (proj2 (decompress_malformed
               [x00; x00; x00; x00; x00; x00; x00; x10;
                x00; x00; x00; x00; x00; x00; x00; x02;
                x61; x01; x00; x00; x00; x00; x00; x00; x00; x00;
                x62; x01; x80; x00; x00; x00; x00; x00; x00; x00;
                x40])))).
      vm_compute. intros H. discriminate H.
    + vm_compute. reflexivity.
  - apply (proj1 (proj2 (proj2 (proj2 (decompress_malformed
             [x00; x00; x00; x00; x00; x00; x00; x02;
              x00; x00; x00; x00; x00; x00; x00; x02;
              x61; x01; x00; x00; x00; x00; x00; x00; x00; x00; x62]))))).
    vm_compute. reflexivity.
Defined.

(** C3 fails as stated: the empty buffer, a buffer cut inside the second
    header field, and a buffer that declares two table entries and two
    payload bits but ends after the header all decompress to the empty
    buffer; a container that declares 16 payload bits and holds one
    payload byte is decoded from the 8 bits present. *)
Lemma decompress_truncated_counterexample :
  decompress [] = Ok [] /\
  decompress [x00; x00; x00; x00; x00; x00; x00; x02;
              x00; x00; x00; x00] = Ok [] /\
  decompress [x00; x00; x00; x00; x00; x00; x00; x02;
              x00; x00; x00; x00; x00; x00; x00; x02] = Ok [] /\
  decompress [x00; x00; x00; x00; x00; x00; x00; x10;
              x00; x00; x00; x00; x00; x00; x00; x02;
              x61; x01; x00; x00; x00; x00; x00; x00; x00; x00;
              x62; x01; x80; x00; x00; x00; x00; x00; x00; x00;
              x40]
  = Ok [x61; x62; x61; x61; x61; x61; x61; x61].
Proof. repeat split; vm_compute; reflexivity. Qed.

(** C4 fails on the code: [x_fib] holds bytes 0 to 65 with the Fibonacci
    numbers as counts; byte 0 gets a path of 65 bits, its table record
    has 11 bytes, and [compress] returns a container, which [decompress]
    then rejects. *)
Theorem compress_fib_unguarded :
  two_distinct x_fib /\
  build_optimal_prefix_table (Counter x_fib) = Ok (paths fib_root []) /\
  (exists p,
     dict_get Byte.eqb (paths fib_root []) x00 = Some p /\
     length p = 65%nat /\ length (record (x00, p)) = 11%nat) /\
  (exists c,
     compress x_fib = Ok c /\
     decompress c = Raise (ValueError "unreachable")).
Proof.
  split; [exact x_fib_two_distinct|]. split; [exact x_fib_table|]. split.
  - eexists. split; [vm_compute; reflexivity|]. split; vm_compute; reflexivity.
  - destruct compress_x_fib as (bits & Hc). eexists. split; [exact Hc|].
    apply decompress_x_fib.
Qed.

(** C7 fails on the code at [x_fib]: the second header field of the
    container is 66, the number of distinct byte values, but the 66
    records that follow take 662 bytes, two of them being 11 bytes
    long. *)
Theorem compress_fib_table_segment :
  exists c payload,
    compress x_fib = Ok c /\
    c = be_digits 8 190392490709065 ++ be_digits 8 66
          ++ flat_map record (paths fib_root []) ++ payload /\
    from_bytes (slice c 8 16) = 66 /\
    length (nodup Byte.byte_eq_dec x_fib) = 66%nat /\
    length (paths fib_root []) = 66%nat /\
    length (flat_map record (paths fib_root [])) = 662%nat /\
    map (fun e => length (record e)) (skipn 63 (paths fib_root [])) =
      [11; 11; 10]%nat.
Proof.
  destruct compress_x_fib as (bits & Hc).
  destruct (compress_header_fields _ _ Hc) as (table & bits' & Ht & _ & _ & _ & _ & Hn & _).
  rewrite x_fib_table in Ht. injection Ht as <-.
  assert (L : length (paths fib_root []) = 66%nat) by (vm_compute; reflexivity).
  eexists. exists (bits_to_bytes bits). split; [exact Hc|].
  split; [reflexivity|]. split.
  - unfold slice. rewrite drop_app_exact by reflexivity.
    rewrite take_app_exact by reflexivity. vm_compute. reflexivity.
  - split; [now rewrite <- Hn|]. split; [exact L|].
    split; vm_compute; reflexivity.
Qed.

(** C8: for the input "ab" the prefix table has the two entries a -> 0
    and b -> 1, [compress] returns a container of 37 bytes (16 of header,
    20 of table, 1 of payload), and [decompress] of that container
    returns "ab". *)
Theorem scenario_ab :
  build_optimal_prefix_table (Counter [x61; x62]) =
    Ok [(x61, [false]); (x62, [true])] /\
  exists header table payload,
    compress [x61; x62] = Ok (header ++ table ++ payload) /\
    length header = 16%nat /\ length table = 20%nat /\
    length payload = 1%nat /\
    length (header ++ table ++ payload) = 37%nat /\
    decompress (header ++ table ++ payload) = Ok [x61; x62].
Proof.
  split; [vm_compute; reflexivity|].
  exists [x00; x00; x00; x00; x00; x00; x00; x02;
          x00; x00; x00; x00; x00; x00; x00; x02],
         [x61; x01; x00; x00; x00; x00; x00; x00; x00; x00;
          x62; x01; x80; x00; x00; x00; x00; x00; x00; x00],
         [x40].
  repeat split; vm_compute; reflexivity.
Qed.

Lemma bits_bytes_inverse_witness :
  bytes_to_bits
    (bits_to_bytes [true; false; true; true; false; false; false; true]) =
  [true; false; true; true; false; false; false; true].
Proof.
  apply (proj1 (proj2 bits_bytes_inverse)). reflexivity.
Defined.

(* ================================================================== *)
(** ** The inputs of test.py *)

Example test_bytes_ab :
  roundtrip (list_byte_of_string "ab") = Ok (list_byte_of_string "ab").
Proof. vm_compute. reflexivity. Qed.

Example test_bytes_abb :
  roundtrip (list_byte_of_string "abb") = Ok (list_byte_of_string "abb").
Proof. vm_compute. reflexivity. Qed.

Example test_bytes_apple :
  roundtrip (list_byte_of_string "apple") = Ok (list_byte_of_string "apple").
Proof. vm_compute. reflexivity. Qed.

Example test_bytes_banana :
  roundtrip (list_byte_of_string "banana") = Ok (list_byte_of_string "banana").
Proof. vm_compute. reflexivity. Qed.

Example test_bytes_range_256 : roundtrip all_bytes = Ok all_bytes.
Proof. vm_compute. reflexivity. Qed.

Example test_raises_empty : compress [] = Raise InvalidInput.
Proof. reflexivity. Qed.

Example test_raises_aaaaaa :
  compress (list_byte_of_string "aaaaaa") = Raise InvalidInput.
Proof. reflexivity. Qed.
(* ================================================================== *)
(** ** Further properties: the frequency map *)

Lemma dict_get_set {V : Type} (d : list (byte * V)) (k k' : byte) (v : V) :
  dict_get Byte.eqb (dict_set Byte.eqb d k v) k' =
  if Byte.eqb k k' then Some v else dict_get Byte.eqb d k'.
Proof.
  induction d as [|[k0 v0] d IH]; simpl; [reflexivity|].
  destruct (Byte.eqb k0 k) eqn:E0; simpl.
  - apply Byte.byte_dec_bl in E0. subst k0.
    now destruct (Byte.eqb k k').
  - rewrite IH. destruct (Byte.eqb k0 k') eqn:E1; [|reflexivity].
    apply Byte.byte_dec_bl in E1. subst k0. now rewrite byte_eqb_neq
      by (intros ->; rewrite byte_eqb_refl in E0; discriminate).
Qed.

Lemma count_of_Counter_add (d : list (byte * Z)) (b k : byte) :
  count_of (Counter_add d b) k =
  count_of d k + (if Byte.eqb b k then 1 else 0).
Proof.
  unfold count_of, Counter_add. rewrite dict_get_set.
  destruct (Byte.eqb b k) eqn:E; [|lia].
  apply Byte.byte_dec_bl in E. now subst.
Qed.

Lemma count_of_fold (s : list byte) (k : byte) :
  forall d,
    count_of (fold_left Counter_add s d) k =
    count_of d k + Z.of_nat (count_occ Byte.byte_eq_dec s k).
Proof.
  induction s as [|b s IH]; intros d; simpl; [lia|].
  rewrite IH, count_of_Counter_add.
  destruct (Byte.byte_eq_dec b k) as [->|Hne].
  - rewrite byte_eqb_refl. lia.
  - rewrite byte_eqb_neq by exact Hne. lia.
Qed.

Lemma total_dict_set (d : list (byte * Z)) (k : byte) (v : Z) :
  total (dict_set Byte.eqb d k v) = total d - count_of d k + v.
Proof.
  unfold total, count_of.
  induction d as [|[k0 v0] d IH]; simpl; [lia|].
  destruct (Byte.eqb k0 k); simpl; lia.
Qed.

Lemma total_fold (s : list byte) :
  forall d, total (fold_left Counter_add s d) = total d + Z.of_nat (length s).
Proof.
  induction s as [|b s IH]; intros d; [simpl; lia|].
  cbn [fold_left length]. rewrite IH. unfold Counter_add.
  rewrite total_dict_set. unfold count_of. lia.
Qed.

Lemma filter_negb_eqb_notin (b : byte) (l : list byte) :
  ~ In b l -> filter (fun x => negb (Byte.eqb x b)) l = l.
Proof.
  induction l as [|x l IH]; simpl; intros H; [reflexivity|].
  rewrite byte_eqb_neq by (intros ->; tauto). simpl. f_equal. apply IH. tauto.
Qed.

Lemma first_seen_In (s : list byte) (b : byte) : In b (first_seen s) <-> In b s.
Proof.
  induction s as [|x s IH]; simpl; [tauto|].
  rewrite filter_In, IH. split.
  - intros [H|[H _]]; auto.
  - intros [H|H]; auto. destruct (Byte.byte_eq_dec x b) as [E|E]; auto.
    right. split; [exact H|]. now rewrite byte_eqb_neq by congruence.
Qed.

Lemma filter_twice {A : Type} (f g : A -> bool) (l : list A) :
  filter f (filter g l) = filter (fun x => f x && g x) l.
Proof.
  induction l as [|x l IH]; simpl; [reflexivity|].
  destruct (g x); simpl; [|now rewrite andb_false_r].
  rewrite andb_true_r. destruct (f x); now rewrite IH.
Qed.

(** The keys of the map after counting [s] on top of [d]: those of [d],
    then the bytes of [s] that are new, in the order they first occur. *)
Lemma Counter_fold_order (s : list byte) :
  forall d,
    map fst (fold_left Counter_add s d) =
    map fst d ++
    filter (fun x => negb (existsb (Byte.eqb x) (map fst d))) (first_seen s).
Proof.
  induction s as [|b s IH]; intros d.
  - simpl. now rewrite app_nil_r.
  - cbn [fold_left first_seen filter]. rewrite IH. unfold Counter_add.
    destruct (in_dec Byte.byte_eq_dec b (map fst d)) as [Hin|Hout].
    + rewrite dict_set_keys_present by exact Hin.
      replace (existsb (Byte.eqb b) (map fst d)) with true.
      2:{ symmetry. apply existsb_exists. exists b. split; [exact Hin|].
          apply byte_eqb_refl. }
      simpl. f_equal. rewrite filter_twice. apply filter_ext_in.
      intros x Hx. destruct (Byte.eqb x b) eqn:E; simpl; [|now rewrite andb_true_r].
      apply Byte.byte_dec_bl in E. subst x. rewrite andb_false_r.
      apply negb_false_iff, existsb_exists. exists b. split; [exact Hin|].
      apply byte_eqb_refl.
    + rewrite dict_set_fresh by exact Hout. rewrite map_app. simpl.
      replace (existsb (Byte.eqb b) (map fst d)) with false.
      2:{ symmetry. apply not_true_is_false. intros H.
          apply existsb_exists in H. destruct H as (x & Hx & E).
          apply Byte.byte_dec_bl in E. now subst. }
      simpl. rewrite <- app_assoc. simpl. do 2 f_equal.
      rewrite filter_twice. apply filter_ext. intros x.
      rewrite existsb_app. simpl. now rewrite orb_false_r, negb_orb.
Qed.

(** X1: [Counter(s)] lists the distinct bytes of [s] in the order they
    first occur; the count of a byte is the number of its occurrences, a
    byte that does not occur has no entry, and the counts add up to
    [len(s)]. *)
Theorem Counter_counts (s : list byte) :
  map fst (Counter s) = first_seen s /\
  (forall b, In b s ->
     dict_get Byte.eqb (Counter s) b =
     Some (Z.of_nat (count_occ Byte.byte_eq_dec s b))) /\
  (forall b, ~ In b s -> dict_get Byte.eqb (Counter s) b = None) /\
  (forall b n, In (b, n) (Counter s) -> 0 < n) /\
  total (Counter s) = Z.of_nat (length s).
Proof.
  assert (Hget : forall b, In b s ->
     dict_get Byte.eqb (Counter s) b =
     Some (Z.of_nat (count_occ Byte.byte_eq_dec s b))).
  { intros b Hb. pose proof (count_of_fold s b []) as H.
    fold (Counter s) in H. unfold count_of in H. simpl in H.
    destruct (dict_get Byte.eqb (Counter s) b) as [c|] eqn:E.
    - now rewrite H.
    - apply dict_get_None in E. now rewrite Counter_keys in E. }
  split; [|split; [exact Hget|split; [|split]]].
  - unfold Counter. rewrite Counter_fold_order. cbn [map app].
    clear. induction (first_seen s) as [|x l IH]; simpl in *; congruence.
  - intros b Hb. apply dict_get_None. now rewrite Counter_keys.
  - intros b n Hin.
    assert (Hb : In b s) by (apply Counter_keys; now apply (in_map fst) in Hin).
    apply (dict_get_In _ _ _ (Counter_NoDup s)) in Hin.
    rewrite (Hget b Hb) in Hin. injection Hin as <-.
    apply (count_occ_In Byte.byte_eq_dec) in Hb. lia.
  - unfold Counter. rewrite total_fold. reflexivity.
Qed.

Lemma Counter_counts_witness :
  dict_get Byte.eqb (Counter [x61; x62; x61]) x61 =
  Some (Z.of_nat (count_occ Byte.byte_eq_dec [x61; x62; x61] x61)).
Proof.
  apply (proj1 (proj2 (Counter_counts [x61; x62; x61])) x61).
  simpl. tauto.
Defined.

(* ================================================================== *)
(** ** Further properties: the Huffman tree and the table *)

(** X2: [build_optimal_prefix_table] raises [IndexError] on the empty
    map (the [pq[0]] of line 45), gives the one symbol of a one-entry map
    the empty path, and on every non-empty map with pairwise distinct
    keys returns a table that holds each key of the map once. *)
Theorem build_optimal_prefix_table_total :
  build_optimal_prefix_table [] = Raise IndexError /\
  (forall b n, build_optimal_prefix_table [(b, n)] = Ok [(b, [])]) /\
  (forall freqs,
     NoDup (map fst freqs) -> freqs <> [] ->
     exists table,
       build_optimal_prefix_table freqs = Ok table /\
       NoDup (map fst table) /\
       Permutation (map fst table) (map fst freqs)).
Proof.
  split; [reflexivity|]. split; [reflexivity|].
  intros freqs Hnd Hne.
  destruct (build_optimal_prefix_table_spec freqs Hnd Hne)
    as (root & _ & Htable & Hperm & _).
  exists (paths root []). rewrite paths_keys. split; [exact Htable|].
  split; [|exact Hperm].
  now apply (Permutation_NoDup (Permutation_sym Hperm)).
Qed.

Lemma build_optimal_prefix_table_total_witness :
  exists table,
    build_optimal_prefix_table [(x61, 3); (x62, 1); (x63, 1)] = Ok table /\
    NoDup (map fst table) /\
    Permutation (map fst table) [x61; x62; x63].
Proof.
  apply (proj2 (proj2 build_optimal_prefix_table_total)
           [(x61, 3); (x62, 1); (x63, 1)]).
  - repeat constructor; simpl; intuition discriminate.
  - discriminate.
Defined.

Lemma queue_weight_perm (pq pq' : list item) :
  Permutation pq pq' -> queue_weight pq = queue_weight pq'.
Proof.
  unfold queue_weight. induction 1; simpl; lia.
Qed.

Lemma huffman_step_weight (pq pq' : list item) :
  huffman_step pq = Some pq' ->
  queue_weight pq' = queue_weight pq /\
  (In 0%nat (indices pq) -> In 0%nat (indices pq')).
Proof.
  unfold huffman_step. intros H.
  destruct (heappop pq) as [[l pq1]|] eqn:E1; [|discriminate].
  destruct (heappop pq1) as [[r pq2]|] eqn:E2; [|discriminate].
  injection H as <-.
  apply heappop_spec in E1, E2. destruct E1 as [P1 _], E2 as [P2 _].
  assert (P : Permutation pq (l :: r :: pq2)) by now rewrite P1, P2.
  split.
  - rewrite (queue_weight_perm _ _ P). unfold heappush, queue_weight. simpl.
    rewrite merge_priority. simpl. lia.
  - intros H0. apply (Permutation_in _ (indices_perm _ _ P)) in H0.
    unfold heappush, indices in *. simpl in *. rewrite merge_priority. simpl.
    destruct H0 as [H0|[H0|H0]]; [left; lia | left; lia | now right].
Qed.

Lemma huffman_loop_weight (fuel : nat) :
  forall pq out,
    huffman_loop fuel pq = Ok out ->
    queue_weight out = queue_weight pq /\
    (In 0%nat (indices pq) -> In 0%nat (indices out)).
Proof.
  induction fuel as [|f IH]; intros pq out H; cbn [huffman_loop] in H;
    destruct (1 <? length pq)%nat; try discriminate;
    try (injection H as <-; tauto).
  destruct (huffman_step pq) as [pq'|] eqn:E; [|discriminate].
  destruct (huffman_step_weight _ _ E) as [W Z0].
  destruct (IH _ _ H) as [W' Z0']. split; [lia | tauto].
Qed.

Lemma initial_pq_weight (freqs : list (byte * Z)) :
  queue_weight (initial_pq freqs) = total freqs.
Proof.
  unfold initial_pq, enumerate, queue_weight, total.
  generalize 0%nat as start.
  induction freqs as [|[val freq] freqs IH]; intros start; simpl; [reflexivity|].
  now rewrite IH.
Qed.

(** X3: the merge loop keeps the sum of the frequencies in the queue and
    the least tie-break index: for a non-empty frequency map it ends with
    one item, whose priority is (sum of all counts, 0). *)
Theorem huffman_loop_root_priority (freqs : list (byte * Z)) :
  freqs <> [] ->
  exists root,
    huffman_loop (length (heapify (initial_pq freqs)))
                 (heapify (initial_pq freqs)) = Ok [root] /\
    fst root = (total freqs, 0%nat) /\
    build_huffman_tree freqs = Ok (snd root).
Proof.
  intros Hne. unfold heapify.
  destruct (initial_pq_shape freqs) as (Hlen & Hidx & _).
  destruct (huffman_loop_spec (length (initial_pq freqs)) (initial_pq freqs))
    as (root & Hloop & _).
  { destruct freqs; [congruence|]. destruct (initial_pq _); discriminate. }
  { lia. }
  exists root. split; [exact Hloop|].
  destruct (huffman_loop_weight _ _ _ Hloop) as [W Z0].
  rewrite initial_pq_weight in W. unfold queue_weight in W. simpl in W.
  split.
  - rewrite (surjective_pairing (fst root)). f_equal; [lia|].
    rewrite Hidx in Z0. unfold indices in Z0. simpl in Z0.
    destruct Z0 as [Z0|[]]; [|exact Z0].
    apply in_seq. destruct freqs; [congruence | simpl; lia].
  - unfold build_huffman_tree, heapify. now rewrite Hloop.
Qed.

Lemma huffman_loop_root_priority_witness :
  exists root,
    huffman_loop (length (heapify (initial_pq [(x61, 3); (x62, 1); (x63, 1)])))
                 (heapify (initial_pq [(x61, 3); (x62, 1); (x63, 1)]))
      = Ok [root] /\
    fst root = (total [(x61, 3); (x62, 1); (x63, 1)], 0%nat) /\
    build_huffman_tree [(x61, 3); (x62, 1); (x63, 1)] = Ok (snd root).
Proof.
  apply (huffman_loop_root_priority [(x61, 3); (x62, 1); (x63, 1)]).
  discriminate.
Defined.

(** X4: in the table of a frequency map with [n >= 2] pairwise distinct
    keys every path has at least 1 and at most [n - 1] bits; the keys are
    bytes, so no path has more than 255 bits. *)
Theorem code_length_bounds (freqs : list (byte * Z)) (table : PrefixTable) :
  NoDup (map fst freqs) ->
  (2 <= length freqs)%nat ->
  build_optimal_prefix_table freqs = Ok table ->
  forall a p,
    In (a, p) table ->
    (1 <= length p <= length freqs - 1)%nat /\ (length p <= 255)%nat.
Proof.
  intros Hnd Hlen Htable a p Hin.
  destruct (build_optimal_prefix_table_spec freqs Hnd)
    as (root & _ & Htable' & Hperm & Hnode).
  { destruct freqs; [simpl in Hlen; lia | discriminate]. }
  rewrite Htable in Htable'. injection Htable' as ->.
  destruct (Hnode Hlen) as (l & r & ->).
  pose proof (Permutation_length Hperm) as HL. rewrite length_map in HL.
  assert (H256 : (length freqs <= 256)%nat).
  { rewrite <- (length_map fst). now apply NoDup_bytes_length. }
  destruct (paths_extend _ _ _ _ Hin) as (q & -> & Hq). simpl app.
  assert (q <> []).
  { intros ->. simpl in Hin. apply in_app_or in Hin.
    destruct Hin as [Hin|Hin]; apply paths_extend in Hin;
      destruct Hin as (q & Hq' & _); destruct q; discriminate. }
  destruct q; [congruence|]. simpl in *. lia.
Qed.

Lemma code_length_bounds_witness :
  (1 <= length [true] <= length [(x61, 3); (x62, 1); (x63, 1)] - 1)%nat /\
  (length [true] <= 255)%nat.
Proof.
  apply (code_length_bounds [(x61, 3); (x62, 1); (x63, 1)]
           [(x62, [false; false]); (x63, [false; true]); (x61, [true])]
           ltac:(repeat constructor; simpl; intuition discriminate)
           ltac:(simpl; lia) ltac:(vm_compute; reflexivity) x61 [true]).
  simpl. tauto.
Defined.

(* ================================================================== *)
(** ** Further properties: compress *)

(** X5: [compress] raises nothing but the error for invalid input and
    [OverflowError]. On a buffer with two distinct byte values the table
    is built and every byte has a code; [compress] then returns a
    container when the encoding has fewer than 2^64 bits and raises
    [OverflowError] otherwise. The [KeyError] of [prefix_table[i]] and
    the [ValueError] of [bytes(...)] never occur. *)
Theorem compress_outcomes (s : list byte) :
  (forall e, compress s = Raise e -> e = InvalidInput \/ e = OverflowError) /\
  (two_distinct s ->
   exists table bits,
     build_optimal_prefix_table (Counter s) = Ok table /\
     encode table s = Ok bits /\
     (Z.of_nat (length bits) < 2 ^ 64 -> exists c, compress s = Ok c) /\
     (2 ^ 64 <= Z.of_nat (length bits) -> compress s = Raise OverflowError)).
Proof.
  assert (H2 : two_distinct s ->
   exists table bits,
     build_optimal_prefix_table (Counter s) = Ok table /\
     encode table s = Ok bits /\
     (Z.of_nat (length bits) < 2 ^ 64 -> exists c, compress s = Ok c) /\
     (2 ^ 64 <= Z.of_nat (length bits) -> compress s = Raise OverflowError)).
  { intros H.
    destruct (compress_two_distinct s H)
      as (root & bits & _ & _ & _ & Htable & Hbits & Hc).
    exists (paths root []), bits. split; [exact Htable|].
    split; [exact Hbits|]. rewrite Hc. split; intros Hn.
    - rewrite to_bytes_in_range
        by (change (256 ^ Z.of_nat 8) with (2 ^ 64); lia).
      cbn [bind]. eauto.
    - unfold to_bytes. change (256 ^ Z.of_nat 8) with (2 ^ 64).
      replace (Z.of_nat (length bits) <? 2 ^ 64) with false
        by (symmetry; apply Z.ltb_ge; lia).
      now rewrite andb_false_r. }
  split; [|exact H2].
  intros e He.
  destruct (Nat.lt_ge_cases (length (Counter s)) 2) as [Hlt|Hge].
  - left. apply Counter_length_lt_2, compress_InvalidInput_iff in Hlt.
    congruence.
  - right. destruct (H2 (Counter_length_ge_2 s Hge))
      as (table & bits & _ & _ & Hok & Hov).
    destruct (Z.lt_ge_cases (Z.of_nat (length bits)) (2 ^ 64)) as [Hn|Hn].
    + destruct (Hok Hn) as [c Hc]. congruence.
    + rewrite (Hov Hn) in He. congruence.
Qed.

Lemma compress_outcomes_witness :
  exists table bits,
    build_optimal_prefix_table (Counter [x61; x62; x62]) = Ok table /\
    encode table [x61; x62; x62] = Ok bits /\
    (Z.of_nat (length bits) < 2 ^ 64 ->
     exists c, compress [x61; x62; x62] = Ok c) /\
    (2 ^ 64 <= Z.of_nat (length bits) ->
     compress [x61; x62; x62] = Raise OverflowError).
Proof.
  apply (proj2 (compress_outcomes [x61; x62; x62])).
  exists x61, x62. simpl. intuition discriminate.
Defined.

Lemma runs_size_dict_set (table : PrefixTable) (d : list (byte * Z))
  (k : byte) (v : Z) :
  runs_size table (dict_set Byte.eqb d k v) =
  runs_size table d
  + (v - count_of d k)
    * match dict_get Byte.eqb table k with
      | Some p => Z.of_nat (length p)
      | None => 0
      end.
Proof.
  unfold count_of. induction d as [|[k0 v0] d IH]; simpl; [lia|].
  destruct (Byte.eqb k0 k) eqn:E; simpl.
  - apply Byte.byte_dec_bl in E. subst k0. lia.
  - rewrite IH. lia.
Qed.

Lemma runs_size_fold (table : PrefixTable) (s : list byte) :
  forall bits d,
    encode table s = Ok bits ->
    runs_size table (fold_left Counter_add s d) =
    runs_size table d + Z.of_nat (length bits).
Proof.
  induction s as [|b s IH]; intros bits d H.
  - simpl in H. injection H as <-. simpl. lia.
  - cbn [encode] in H.
    destruct (dict_get Byte.eqb table b) as [p|] eqn:E; [|discriminate].
    destruct (bind_Ok _ _ _ H) as (bits' & Hbits' & Hb). injection Hb as <-.
    cbn [fold_left]. rewrite (IH _ _ Hbits'). unfold Counter_add.
    rewrite runs_size_dict_set, E, length_app. unfold count_of. lia.
Qed.

(** X6: the number of bits [compress] encodes, which is the first header
    field of the container, is the sum over the distinct bytes of the
    input of (count of the byte) x (length of its path). *)
Theorem payload_bits_weighted (s c : list byte) :
  compress s = Ok c ->
  exists table bits,
    build_optimal_prefix_table (Counter s) = Ok table /\
    encode table s = Ok bits /\
    Z.of_nat (length bits) = runs_size table (Counter s) /\
    from_bytes (take 8 c) = runs_size table (Counter s).
Proof.
  intros Hc.
  destruct (compress_header_fields s c Hc)
    as (table & bits & Htable & Hbits & _ & Hfrom & _).
  exists table, bits. split; [exact Htable|]. split; [exact Hbits|].
  pose proof (runs_size_fold table s bits [] Hbits) as H. simpl in H.
  fold (Counter s) in H. split; [lia | rewrite Hfrom; lia].
Qed.

Lemma payload_bits_weighted_witness :
  exists table bits,
    build_optimal_prefix_table (Counter [x61; x62]) = Ok table /\
    encode table [x61; x62] = Ok bits /\
    Z.of_nat (length bits) = runs_size table (Counter [x61; x62]) /\
    from_bytes
      (take 8
         [x00; x00; x00; x00; x00; x00; x00; x02;
          x00; x00; x00; x00; x00; x00; x00; x02;
          x61; x01; x00; x00; x00; x00; x00; x00; x00; x00;
          x62; x01; x80; x00; x00; x00; x00; x00; x00; x00; x40])
    = runs_size table (Counter [x61; x62]).
Proof.
  apply (payload_bits_weighted [x61; x62]). vm_compute. reflexivity.
Defined.

(** X7: the size of a container whose table holds no path longer than
    64 bits: 16 header bytes, 10 bytes for each distinct byte value of
    the input, and the encoded bits rounded up to whole bytes. *)
Theorem compress_length (s c : list byte) (table : PrefixTable) (bits : list bool) :
  compress s = Ok c ->
  build_optimal_prefix_table (Counter s) = Ok table ->
  encode table s = Ok bits ->
  Forall (fun e => (length (snd e) <= 64)%nat) table ->
  length c =
  (16 + 10 * length (nodup Byte.byte_eq_dec s) + (length bits + 7) / 8)%nat.
Proof.
  intros Hc Htable Hbits Hshort.
  destruct (compress_header_fields s c Hc)
    as (table' & bits' & Htable' & Hbits' & -> & _ & _ & Hn & H10).
  rewrite Htable in Htable'. injection Htable' as <-.
  rewrite Hbits in Hbits'. injection Hbits' as <-.
  rewrite !length_app, !length_be_digits, (H10 Hshort), length_bits_to_bytes.
  rewrite Hn. lia.
Qed.

Lemma compress_length_witness :
  length
    [x00; x00; x00; x00; x00; x00; x00; x02;
     x00; x00; x00; x00; x00; x00; x00; x02;
     x61; x01; x00; x00; x00; x00; x00; x00; x00; x00;
     x62; x01; x80; x00; x00; x00; x00; x00; x00; x00; x40] =
  (16 + 10 * length (nodup Byte.byte_eq_dec [x61; x62])
   + (length [false; true] + 7) / 8)%nat.
Proof.
  apply (compress_length [x61; x62] _ [(x61, [false]); (x62, [true])]).
  - vm_compute. reflexivity.
  - vm_compute. reflexivity.
  - vm_compute. reflexivity.
  - repeat constructor; simpl; lia.
Defined.

(* ================================================================== *)
(** ** Further properties: packing bits and serializing the table *)

(** X8: [bits_to_bytes] packs [n] bits into [ceil(n / 8)] bytes, and
    unpacking them gives the bits back followed by fewer than 8 zero
    bits, those that fill the last byte. *)
Theorem bits_to_bytes_padding (bits : list bool) :
  length (bits_to_bytes bits) = ((length bits + 7) / 8)%nat /\
  exists k,
    (k < 8)%nat /\ ((length bits + k) mod 8 = 0)%nat /\
    bytes_to_bits (bits_to_bytes bits) = bits ++ repeat false k.
Proof.
  split; [apply length_bits_to_bytes|].
  destruct (bytes_to_bits_to_bytes_pad bits) as [k Hk]. exists k.
  pose proof (f_equal (@length bool) Hk) as HL.
  rewrite length_bytes_to_bits, length_bits_to_bytes, length_app,
    repeat_length in HL.
  pose proof (Nat.div_mod_eq (length bits + 7) 8) as HD.
  pose proof (Nat.mod_upper_bound (length bits + 7) 8 ltac:(lia)) as HM.
  split; [lia|]. split; [|exact Hk].
  rewrite <- HL. rewrite Nat.mul_comm. apply Nat.Div0.mod_mul.
Qed.

Lemma length_record_general (e : byte * list bool) :
  length (record e) = (2 + Nat.max 8 ((length (snd e) + 7) / 8))%nat.
Proof.
  unfold record. cbn [length].
  rewrite length_bits_to_bytes, length_app, repeat_length.
  destruct (Nat.le_gt_cases (length (snd e)) 64) as [H|H].
  - replace (length (snd e) + (64 - length (snd e)) + 7)%nat with 71%nat by lia.
    change (71 / 8)%nat with 8%nat.
    pose proof (Nat.Div0.div_le_mono (length (snd e) + 7) 71 8 ltac:(lia)) as HD.
    change (71 / 8)%nat with 8%nat in HD. lia.
  - replace (64 - length (snd e))%nat with 0%nat by lia. rewrite Nat.add_0_r.
    assert (8 <= (length (snd e) + 7) / 8)%nat
      by (apply Nat.div_le_lower_bound; lia).
    lia.
Qed.

Lemma prefix_table_to_bytes_error (table : PrefixTable) :
  Exists (fun e => (256 <= length (snd e))%nat) table ->
  prefix_table_to_bytes table =
  Raise (ValueError "bytes must be in range(0, 256)").
Proof.
  induction table as [|[i p] table IH]; intros H; [inversion H|].
  cbn [prefix_table_to_bytes prefix_entry_to_bytes]. unfold byte_of_int.
  destruct (Nat.lt_ge_cases (length p) 256) as [Hp|Hp].
  - replace (0 <=? Z.of_nat (length p)) with true
      by (symmetry; apply Z.leb_le; lia).
    replace (Z.of_nat (length p) <? 256) with true
      by (symmetry; apply Z.ltb_lt; lia).
    cbn [andb bind]. rewrite IH; [reflexivity|].
    inversion H as [? ? Hh|? ? Ht]; subst; [simpl in Hh; lia | exact Ht].
  - replace (Z.of_nat (length p) <? 256) with false
      by (symmetry; apply Z.ltb_ge; lia).
    now rewrite andb_false_r.
Qed.

(** X9: [prefix_table_to_bytes] fails, with the [ValueError] of
    [bytes(...)], exactly when some path has more than 255 bits.
    Otherwise it emits one record per entry, which starts with the
    symbol and the path length and has 10 bytes for a path of at most 64
    bits and [2 + ceil(len / 8)] bytes for a longer one. *)
Theorem prefix_table_to_bytes_outcomes (table : PrefixTable) :
  (Forall (fun e => (length (snd e) < 256)%nat) table ->
   prefix_table_to_bytes table = Ok (flat_map record table)) /\
  (Exists (fun e => (256 <= length (snd e))%nat) table ->
   prefix_table_to_bytes table =
   Raise (ValueError "bytes must be in range(0, 256)")) /\
  (forall e,
     length (record e) = (2 + Nat.max 8 ((length (snd e) + 7) / 8))%nat /\
     firstn 2 (record e) =
       [fst e; byte_of_Z (Z.of_nat (length (snd e)))]).
Proof.
  split; [apply prefix_table_to_bytes_Ok|].
  split; [apply prefix_table_to_bytes_error|].
  intros e. split; [apply length_record_general | reflexivity].
Qed.

Lemma prefix_table_to_bytes_outcomes_witness :
  prefix_table_to_bytes [(x61, [false]); (x62, [true])] =
    Ok (flat_map record [(x61, [false]); (x62, [true])]) /\
  prefix_table_to_bytes [(x61, repeat true 256)] =
    Raise (ValueError "bytes must be in range(0, 256)").
Proof.
  split.
  - apply (proj1 (prefix_table_to_bytes_outcomes
                    [(x61, [false]); (x62, [true])])).
    repeat constructor; simpl; lia.
  - apply (proj1 (proj2 (prefix_table_to_bytes_outcomes
                           [(x61, repeat true 256)]))).
    constructor. cbn [snd]. rewrite repeat_length. lia.
Defined.

(* ================================================================== *)
(** ** Further properties: the table segment and the trie *)

(** X10: a table with pairwise distinct symbols and no path longer than
    64 bits survives serialization: [prefix_table_to_bytes] gives 10
    bytes per entry, and the loop of lines 115-117 reads the same table
    back from them, entries in the same order. *)
Theorem prefix_table_roundtrip (table : PrefixTable) :
  NoDup (map fst table) ->
  Forall (fun e => (length (snd e) <= 64)%nat) table ->
  exists bs,
    prefix_table_to_bytes table = Ok bs /\
    length bs = (10 * length table)%nat /\
    recover_prefix_table (batched bs 10) [] = Ok table.
Proof.
  intros Hnd Hall. exists (flat_map record table).
  split; [|split].
  - apply prefix_table_to_bytes_Ok. eapply Forall_impl; [|exact Hall].
    simpl. intros e He. lia.
  - now apply length_flat_map_record.
  - rewrite batched_records by exact Hall.
    now apply recover_prefix_table_records.
Qed.

Lemma prefix_table_roundtrip_witness :
  exists bs,
    prefix_table_to_bytes [(x61, [true]); (x62, [false; true])] = Ok bs /\
    length bs = (10 * length [(x61, [true]); (x62, [false; true])])%nat /\
    recover_prefix_table (batched bs 10) [] =
      Ok [(x61, [true]); (x62, [false; true])].
Proof.
  apply (prefix_table_roundtrip [(x61, [true]); (x62, [false; true])]).
  - repeat constructor; simpl; intuition discriminate.
  - repeat constructor; simpl; lia.
Defined.

Lemma add_Ok_vacant (p : list bool) (data : byte) :
  forall T T', add T p data = Ok T' -> vacant T p.
Proof.
  induction p as [|bit p IH]; intros T T' H.
  - destruct T; simpl in *; [exact I | discriminate | discriminate].
  - destruct T as [|d|l r]; simpl in *; [exact I | discriminate |].
    destruct bit; simpl in *.
    + destruct (add r p data) eqn:E; [|discriminate]. eapply IH. exact E.
    + destruct (add l p data) eqn:E; [|discriminate]. eapply IH. exact E.
Qed.

Lemma is_prefix_nil (p : list bool) : is_prefix [] p.
Proof. now exists p. Qed.

Lemma is_prefix_cons (a b : bool) (p q : list bool) :
  is_prefix (a :: p) (b :: q) <-> a = b /\ is_prefix p q.
Proof.
  unfold is_prefix. split.
  - intros [r H]. simpl in H. injection H as -> ->. eauto.
  - intros [-> [r ->]]. now exists r.
Qed.

Lemma is_prefix_cons_nil (a : bool) (p : list bool) : ~ is_prefix (a :: p) [].
Proof. intros [r H]. discriminate. Qed.

Lemma incomparable_cons (a b : bool) (p q : list bool) :
  incomparable (a :: p) (b :: q) <-> a <> b \/ incomparable p q.
Proof.
  unfold incomparable. rewrite !is_prefix_cons.
  destruct a, b; intuition congruence.
Qed.

(** After a path is inserted, the positions still vacant are those that
    were vacant and are incomparable with the path. *)
Lemma vacant_graft (q : list bool) (data : byte) :
  forall T p,
    vacant T q ->
    (vacant (graft T q (PLeaf data)) p <-> vacant T p /\ incomparable q p).
Proof.
  induction q as [|bit q IH]; intros T p Hq.
  - destruct T; simpl in Hq; try tauto. simpl. unfold incomparable.
    pose proof (is_prefix_nil p). tauto.
  - destruct p as [|c p].
    + unfold incomparable. pose proof (is_prefix_nil (bit :: q)).
      destruct T as [|d|l r]; simpl in *; destruct bit; simpl; tauto.
    + rewrite incomparable_cons.
      destruct T as [|d|l r]; simpl in Hq; [|tauto|].
      * destruct bit, c; simpl; try (rewrite (IH PNone p I)); simpl;
          intuition congruence.
      * destruct bit, c; simpl in *; try (rewrite (IH _ p Hq));
          intuition congruence.
Qed.

Lemma add_all_accepts (table : PrefixTable) :
  forall T,
    (exists T', add_all T table = Ok T') <->
    Forall (fun e => vacant T (snd e)) table /\
    ForallOrdPairs (fun e1 e2 => incomparable (snd e1) (snd e2)) table.
Proof.
  induction table as [|[d q] table IH]; intros T.
  - simpl. split; [intros _; split; constructor | eauto].
  - cbn [add_all]. destruct (add T q d) as [T1|e] eqn:E; cbn [bind].
    + pose proof (add_Ok_vacant _ _ _ _ E) as Hq.
      rewrite (add_graft q d T Hq) in E. injection E as <-.
      rewrite IH. split.
      * intros [HF HP]. split.
        -- constructor; [exact Hq|]. eapply Forall_impl; [|exact HF].
           intros e He. now apply (vacant_graft q d T) in He.
        -- constructor; [|exact HP]. eapply Forall_impl; [|exact HF].
           intros e He. now apply (vacant_graft q d T) in He.
      * intros [HF HP]. inversion HF as [|? ? _ HF']; subst.
        inversion HP as [|? ? HI HP']; subst. split; [|exact HP'].
        rewrite Forall_forall in *. intros e He.
        apply (vacant_graft q d T); auto.
    + split; [intros [T' H]; discriminate|].
      intros [HF _]. inversion HF as [|? ? Hq _]; subst. simpl in Hq.
      rewrite (add_graft q d T Hq) in E. discriminate.
Qed.

(** X11: [build_prefix_tree] accepts a table exactly when no path is
    empty and no path is a prefix of (or equal to) the path of another
    entry; every other table makes it raise [ValueError]. *)
Theorem build_prefix_tree_accepts (table : PrefixTable) :
  ((exists T, build_prefix_tree table = Ok T) <->
   Forall (fun e => snd e <> []) table /\
   ForallOrdPairs (fun e1 e2 => incomparable (snd e1) (snd e2)) table) /\
  ((forall T, build_prefix_tree table <> Ok T) ->
   build_prefix_tree table = Raise (ValueError "unreachable")).
Proof.
  unfold build_prefix_tree. split.
  - rewrite add_all_accepts.
    assert (H : forall p, vacant (PNode PNone PNone) p <-> p <> []).
    { intros [|b p]; simpl; [tauto|]. split; [discriminate|].
      now destruct b. }
    split; intros [HF HP]; (split; [|exact HP]);
      (eapply Forall_impl; [|exact HF]); intros e He; now apply H.
  - intros Hno. pose proof (add_all_PNode table PNone PNone) as H.
    destruct (add_all (PNode PNone PNone) table) as [T|e].
    + now destruct (Hno T).
    + now subst.
Qed.

Lemma build_prefix_tree_accepts_witness :
  build_prefix_tree [(x61, [false]); (x62, [false; true])] =
  Raise (ValueError "unreachable").
Proof.
  apply (proj2 (build_prefix_tree_accepts
                  [(x61, [false]); (x62, [false; true])])).
  intros T. vm_compute. discriminate.
Defined.

Lemma reaches_PNone (p : list bool) (b : byte) : ~ reaches PNone p b.
Proof. destruct p; simpl; tauto. Qed.

Lemma reaches_graft (q : list bool) (data : byte) :
  forall T p b,
    vacant T q ->
    (reaches (graft T q (PLeaf data)) p b <->
     (p = q /\ b = data) \/ reaches T p b).
Proof.
  induction q as [|bit q IH]; intros T p b Hq.
  - destruct T; simpl in Hq; try tauto.
    destruct p; simpl; intuition congruence.
  - destruct p as [|c p].
    + destruct T as [|d|l r]; simpl in *; destruct bit; simpl;
        intuition congruence.
    + destruct T as [|d|l r]; simpl in Hq; [|tauto|].
      * pose proof (reaches_PNone p b).
        destruct bit, c; simpl; try (rewrite (IH PNone p b I)); simpl;
          intuition congruence.
      * destruct bit, c; simpl in *; try (rewrite (IH _ p b Hq));
          intuition congruence.
Qed.

Lemma add_all_reaches (table : PrefixTable) :
  forall T T',
    add_all T table = Ok T' ->
    forall p b, reaches T' p b <-> In (b, p) table \/ reaches T p b.
Proof.
  induction table as [|[d q] table IH]; intros T T' H p b.
  - simpl in H. injection H as <-. simpl. tauto.
  - cbn [add_all] in H. destruct (add T q d) as [T1|e] eqn:E; [|discriminate].
    cbn [bind] in H. pose proof (add_Ok_vacant _ _ _ _ E) as Hq.
    rewrite (add_graft q d T Hq) in E. injection E as <-.
    rewrite (IH _ _ H), (reaches_graft q d T p b Hq). simpl.
    intuition congruence.
Qed.

Lemma build_prefix_tree_reaches (table : PrefixTable) (T : PrefixTree) :
  build_prefix_tree table = Ok T ->
  forall p b, reaches T p b <-> In (b, p) table.
Proof.
  unfold build_prefix_tree. intros H p b.
  rewrite (add_all_reaches _ _ _ H).
  split; [|tauto]. intros [Hin|Hr]; [exact Hin|].
  destruct p as [|[] [|? ?]]; simpl in Hr; tauto.
Qed.

(** X12: in the trie [build_prefix_tree] returns, following a path from
    the root through internal nodes ends at the leaf of a symbol exactly
    when the table holds that symbol with that path. *)
Theorem build_prefix_tree_lookup (table : PrefixTable) (T : PrefixTree) :
  build_prefix_tree table = Ok T ->
  forall p b, reaches T p b <-> In (b, p) table.
Proof. exact (build_prefix_tree_reaches table T). Qed.

Lemma build_prefix_tree_lookup_witness :
  reaches (PNode (PLeaf x61) (PNode (PLeaf x62) PNone)) [true; false] x62 <->
  In (x62, [true; false]) [(x61, [false]); (x62, [true; false])].
Proof.
  apply (build_prefix_tree_lookup [(x61, [false]); (x62, [true; false])]).
  reflexivity.
Defined.

(* ================================================================== *)
(** ** Further properties: decoding *)

Lemma bind_ret {A : Type} (r : result A) : (x <- r ;; Ok x) = r.
Proof. now destruct r. Qed.

Lemma decode_reaches (p : list bool) (b : byte) :
  forall N fuel R rest,
    reaches N p b ->
    decode_loop (length p + fuel) R N (p ++ rest) =
    decode_loop fuel R (PLeaf b) rest.
Proof.
  induction p as [|bit p IH]; intros N fuel R rest H.
  - destruct N; simpl in H; try tauto. now subst.
  - destruct N as [|d|l r]; simpl in H; try tauto.
    simpl. now apply IH.
Qed.

(** Bits that stop inside the path of a symbol yield nothing. *)
Lemma decode_partial (q : list bool) :
  forall N x r b fuel R,
    reaches N (q ++ x :: r) b ->
    decode_loop (length q + S fuel) R N q = Ok [].
Proof.
  induction q as [|bit q IH]; intros N x r b fuel R H.
  - destruct N as [|d|l' r']; simpl in H; try tauto; reflexivity.
  - destruct N as [|d|l' r']; simpl in H; try tauto.
    simpl. eapply IH. exact H.
Qed.

Lemma decode_encode_gen (table : PrefixTable) (l r : PrefixTree) (s : list byte) :
  (forall p b, In (b, p) table -> reaches (PNode l r) p b) ->
  forall bits tail fuel,
    encode table s = Ok bits ->
    decode_loop (length bits + length s + fuel)
      (PNode l r) (PNode l r) (bits ++ tail) =
    (out <- decode_loop fuel (PNode l r) (PNode l r) tail ;; Ok (s ++ out)) /\
    (length s <= length bits)%nat.
Proof.
  intros HT. induction s as [|b s IH]; intros bits tail fuel H.
  - simpl in H. injection H as <-. simpl. now rewrite bind_ret.
  - cbn [encode] in H.
    destruct (dict_get Byte.eqb table b) as [p|] eqn:E; [|discriminate].
    destruct (bind_Ok _ _ _ H) as (bits' & Hbits' & Hb). injection Hb as <-.
    destruct (IH bits' tail fuel Hbits') as [Hdec Hlen].
    apply dict_get_Some_In, HT in E.
    assert (Hp : p <> []) by (intros ->; simpl in E; tauto).
    split.
    + rewrite <- app_assoc, length_app. cbn [length].
      replace (length p + length bits' + S (length s) + fuel)%nat
        with (length p + S (length bits' + length s + fuel))%nat by lia.
      rewrite (decode_reaches p b _ _ _ _ E). cbn [decode_loop].
      rewrite Hdec.
      destruct (decode_loop fuel (PNode l r) (PNode l r) tail); reflexivity.
    + rewrite length_app. cbn [length]. destruct p; [congruence | simpl; lia].
Qed.

Lemma build_prefix_tree_PNode (table : PrefixTable) (T : PrefixTree) :
  build_prefix_tree table = Ok T -> exists l r, T = PNode l r.
Proof.
  unfold build_prefix_tree. intros H.
  pose proof (add_all_PNode table PNone PNone) as HT. now rewrite H in HT.
Qed.

Lemma decode_data_bits_table
  (table : PrefixTable) (T : PrefixTree) (s : list byte) (bits : list bool) :
  build_prefix_tree table = Ok T ->
  encode table s = Ok bits ->
  decode_data_bits T bits = Ok s /\
  (forall b q x r,
     In (b, q ++ x :: r) table -> decode_data_bits T (bits ++ q) = Ok s).
Proof.
  intros HT Hbits.
  destruct (build_prefix_tree_PNode _ _ HT) as (l & r & ->).
  assert (Hreach : forall p b, In (b, p) table -> reaches (PNode l r) p b)
    by (intros p b; apply (build_prefix_tree_reaches table _ HT)).
  split.
  - destruct (decode_encode_gen table l r s Hreach bits [] 1 Hbits)
      as [Hdec Hlen].
    rewrite app_nil_r in Hdec. simpl in Hdec. rewrite app_nil_r in Hdec.
    unfold decode_data_bits. eapply decode_loop_mono; [exact Hdec | lia].
  - intros b q x r' Hin.
    destruct (decode_encode_gen table l r s Hreach bits q (length q + 1) Hbits)
      as [Hdec Hlen].
    replace (length q + 1)%nat with (length q + S 0)%nat in Hdec by lia.
    rewrite (decode_partial q _ x r' b 0 _ (Hreach _ _ Hin)) in Hdec.
    simpl in Hdec. rewrite app_nil_r in Hdec.
    unfold decode_data_bits. eapply decode_loop_mono; [exact Hdec|].
    rewrite length_app. lia.
Qed.

(** X13: with the trie of any table [build_prefix_tree] accepts,
    [decode_data_bits] maps the concatenated paths of a byte sequence
    back to the sequence; bits that follow and stop inside the path of a
    symbol are dropped without an error. *)
Theorem decode_data_bits_correct
  (table : PrefixTable) (T : PrefixTree) (s : list byte) (bits : list bool) :
  build_prefix_tree table = Ok T ->
  encode table s = Ok bits ->
  decode_data_bits T bits = Ok s /\
  (forall b q x r,
     In (b, q ++ x :: r) table -> decode_data_bits T (bits ++ q) = Ok s).
Proof. exact (decode_data_bits_table table T s bits). Qed.

Lemma decode_data_bits_correct_witness :
  decode_data_bits (PNode (PLeaf x61) (PNode (PLeaf x62) PNone))
    [true; false; false] = Ok [x62; x61] /\
  decode_data_bits (PNode (PLeaf x61) (PNode (PLeaf x62) PNone))
    ([true; false; false] ++ [true]) = Ok [x62; x61].
Proof.
  destruct (decode_data_bits_correct [(x61, [false]); (x62, [true; false])]
              (PNode (PLeaf x61) (PNode (PLeaf x62) PNone))
              [x62; x61] [true; false; false] eq_refl eq_refl) as [H1 H2].
  split; [exact H1|].
  apply (H2 x62 [true] false []). simpl. tauto.
Defined.

Lemma length_take {A : Type} (l : list A) (n : Z) :
  0 <= n ->
  Z.of_nat (length (take n l)) <= n /\ (length (take n l) <= length l)%nat.
Proof.
  intros Hn. rewrite take_firstn, length_firstn. lia.
Qed.

Lemma decode_loop_length (l r : PrefixTree) (fuel : nat) :
  forall node bits out,
    decode_loop fuel (PNode l r) node bits = Ok out ->
    (length out <=
     length bits + match node with PLeaf _ => 1 | _ => 0 end)%nat.
Proof.
  induction fuel as [|f IH]; intros node bits out H; [discriminate|].
  destruct node as [|data|a b]; simpl in H; [discriminate | |].
  - destruct (bind_Ok _ _ _ H) as (o & Ho & Eo). injection Eo as <-.
    apply IH in Ho. simpl. lia.
  - destruct bits as [|bit bits].
    + injection H as <-. simpl. lia.
    + apply IH in H. simpl. destruct (if negb bit then a else b); lia.
Qed.

(** X14: [decompress] never returns more bytes than the bit count its
    header declares, nor more than 8 bytes for each byte that follows
    the 16-byte header: every byte it yields costs at least one bit. *)
Theorem decompress_output_bound (s out : list byte) :
  decompress s = Ok out ->
  Z.of_nat (length out) <= from_bytes (take 8 s) /\
  (length out <= 8 * (length s - 16))%nat.
Proof.
  unfold decompress. intros H.
  destruct (bind_Ok _ _ _ H) as (table & _ & H1). clear H.
  destruct (bind_Ok _ _ _ H1) as (T & HT & H2). clear H1.
  destruct (build_prefix_tree_PNode _ _ HT) as (l & r & ->).
  unfold decode_data_bits in H2. apply decode_loop_length in H2.
  rewrite Nat.add_0_r, drop_skipn in H2.
  pose proof (from_bytes_nonneg (take 8 s)) as Hn.
  pose proof (from_bytes_nonneg (slice s 8 16)) as Hm.
  match type of H2 with
  | (_ <= length (take ?n ?l))%nat =>
      destruct (length_take l n Hn) as [L1 L2]
  end.
  split; [lia|].
  rewrite length_bytes_to_bits, length_skipn in L2. lia.
Qed.

Lemma decompress_output_bound_witness :
  Z.of_nat (length [x61; x62]) <=
    from_bytes
      (take 8
         [x00; x00; x00; x00; x00; x00; x00; x02;
          x00; x00; x00; x00; x00; x00; x00; x02;
          x61; x01; x00; x00; x00; x00; x00; x00; x00; x00;
          x62; x01; x80; x00; x00; x00; x00; x00; x00; x00; x40]) /\
  (length [x61; x62] <=
   8 * (length
          [x00; x00; x00; x00; x00; x00; x00; x02;
           x00; x00; x00; x00; x00; x00; x00; x02;
           x61; x01; x00; x00; x00; x00; x00; x00; x00; x00;
           x62; x01; x80; x00; x00; x00; x00; x00; x00; x00; x40] - 16))%nat.
Proof.
  apply decompress_output_bound. vm_compute. reflexivity.
Defined.

(** X15: [decompress] decodes every well-formed container, whatever
    built its table: for a table with pairwise distinct symbols, paths of
    at most 64 bits that [build_prefix_tree] accepts, and the encoding
    [bits] of a byte sequence [s] with fewer than 2^64 bits, the buffer
    made of the two counts, the serialized table and the packed bits
    decompresses to [s]; bytes appended after the payload are ignored. *)
Theorem decompress_container
  (table : PrefixTable) (T : PrefixTree) (s : list byte) (bits : list bool)
  (h1 h2 tbl junk : list byte) :
  NoDup (map fst table) ->
  Forall (fun e => (length (snd e) <= 64)%nat) table ->
  build_prefix_tree table = Ok T ->
  encode table s = Ok bits ->
  to_bytes (Z.of_nat (length bits)) 8 = Ok h1 ->
  to_bytes (Z.of_nat (length table)) 8 = Ok h2 ->
  prefix_table_to_bytes table = Ok tbl ->
  decompress (h1 ++ h2 ++ tbl ++ bits_to_bytes bits ++ junk) = Ok s.
Proof.
  intros Hnd Hall HT Hbits Hh1 Hh2 Htbl.
  destruct (to_bytes_Ok _ _ _ Hh1) as (_ & L1 & F1).
  destruct (to_bytes_Ok _ _ _ Hh2) as (_ & L2 & F2).
  rewrite prefix_table_to_bytes_Ok in Htbl.
  2:{ eapply Forall_impl; [|exact Hall]. simpl. intros e He. lia. }
  injection Htbl as <-.
  destruct (parse_container h1 h2 (flat_map record table)
              (bits_to_bytes bits ++ junk) L1 L2) as (P1 & P2 & P3 & P4).
  { rewrite length_flat_map_record by exact Hall. lia. }
  unfold decompress. rewrite P1, P2, P3, P4, F1.
  rewrite batched_records by exact Hall.
  rewrite recover_prefix_table_records by (simpl; assumption).
  cbn [bind app]. rewrite HT. cbn [bind].
  unfold bytes_to_bits. rewrite flat_map_app.
  fold (bytes_to_bits (bits_to_bytes bits)).
  destruct (bytes_to_bits_to_bytes_pad bits) as [k ->].
  rewrite <- app_assoc, take_app_exact by reflexivity.
  now apply (decode_data_bits_table table T s bits).
Qed.

Lemma decompress_container_witness :
  decompress
    ([x00; x00; x00; x00; x00; x00; x00; x03]
       ++ [x00; x00; x00; x00; x00; x00; x00; x02]
       ++ [x61; x01; x00; x00; x00; x00; x00; x00; x00; x00;
           x62; x02; x80; x00; x00; x00; x00; x00; x00; x00]
       ++ bits_to_bytes [true; false; false] ++ [xff; xff]) = Ok [x62; x61].
Proof.
  apply (decompress_container [(x61, [false]); (x62, [true; false])]
           (PNode (PLeaf x61) (PNode (PLeaf x62) PNone)));
    try reflexivity.
  - repeat constructor; simpl; intuition discriminate.
  - repeat constructor; simpl; lia.
Defined.

(* ================================================================== *)
(** ** Optimality of the Huffman tree: costs and exchanges *)

Lemma NoDup_app_disjoint {A : Type} (l l' : list A) (x : A) :
  NoDup (l ++ l') -> In x l -> In x l' -> False.
Proof.
  induction l as [|y l IH]; simpl; intros Hnd Hl Hl'; [exact Hl|].
  inversion Hnd as [|? ? Hy Hnd']; subst. destruct Hl as [->|Hl].
  - apply Hy. apply in_or_app. now right.
  - now apply IH.
Qed.

Lemma NoDup_map_injective {A B : Type} (f : A -> B) (l : list A) :
  (forall x y, f x = f y -> x = y) -> NoDup l -> NoDup (map f l).
Proof.
  intros Hf. induction 1 as [|x l Hx Hnd IH]; simpl; constructor; [|exact IH].
  intros Hin. apply in_map_iff in Hin. destruct Hin as (y & Hy & Hin).
  apply Hf in Hy. now subst.
Qed.

Lemma has_In (t : HuffmanTree) (a : byte) : has t a = true <-> In a (leaves t).
Proof.
  unfold has. rewrite existsb_exists. split.
  - intros (x & Hx & E). apply Byte.byte_dec_bl in E. now subst.
  - intros H. exists a. split; [exact H | apply byte_eqb_refl].
Qed.

Lemma has_false (t : HuffmanTree) (a : byte) :
  has t a = false <-> ~ In a (leaves t).
Proof.
  rewrite <- has_In. destruct (has t a); split; congruence.
Qed.

Lemma has_Node (l r : HuffmanTree) (a : byte) :
  has (Node l r) a = has l a || has r a.
Proof. unfold has. simpl. apply existsb_app. Qed.

Lemma cost_at_ext (w1 w2 : byte -> Z) (t : HuffmanTree) :
  (forall x, In x (leaves t) -> w2 x = w1 x) ->
  forall d, cost_at w2 t d = cost_at w1 t d.
Proof.
  induction t as [a|l IHl r IHr]; intros H d; simpl.
  - rewrite H by (simpl; tauto). reflexivity.
  - rewrite IHl, IHr; [reflexivity | |]; intros x Hx; apply H; simpl;
      apply in_or_app; tauto.
Qed.

(** Changing the weight of one symbol changes the cost by the change of
    weight times the depth of the symbol. *)
Lemma cost_at_update (w1 w2 : byte -> Z) (a : byte) (t : HuffmanTree) :
  NoDup (leaves t) ->
  (forall x, x <> a -> w2 x = w1 x) ->
  forall d,
    cost_at w2 t d =
    cost_at w1 t d + (w2 a - w1 a) * (if has t a then d + depth t a else 0).
Proof.
  intros Hnd Hw. induction t as [y|l IHl r IHr]; intros d.
  - unfold has. simpl. destruct (Byte.byte_eq_dec a y) as [->|Hne].
    + rewrite byte_eqb_refl. simpl. ring.
    + rewrite byte_eqb_neq by exact Hne. simpl.
      rewrite Hw by congruence. ring.
  - simpl in Hnd. pose proof (NoDup_app_remove_l _ _ Hnd) as Hr.
    pose proof (NoDup_app_remove_r _ _ Hnd) as Hl.
    cbn [cost_at depth]. rewrite (IHl Hl), (IHr Hr), has_Node.
    destruct (has l a) eqn:El; cbn [orb].
    + replace (has r a) with false.
      2:{ symmetry. apply has_false. apply has_In in El. intros Hin.
          eapply NoDup_app_disjoint; eauto. }
      ring.
    + destruct (has r a); ring.
Qed.

Lemma transpose_involutive (a c x : byte) :
  transpose a c (transpose a c x) = x.
Proof.
  unfold transpose.
  destruct (Byte.byte_eq_dec x a) as [->|Ha].
  - rewrite byte_eqb_refl. destruct (Byte.byte_eq_dec c a) as [->|Hc].
    + now rewrite byte_eqb_refl.
    + rewrite (byte_eqb_neq c a) by exact Hc. now rewrite byte_eqb_refl.
  - rewrite (byte_eqb_neq x a) by exact Ha.
    destruct (Byte.byte_eq_dec x c) as [->|Hc].
    + rewrite byte_eqb_refl. now rewrite byte_eqb_refl.
    + rewrite (byte_eqb_neq x c) by exact Hc.
      now rewrite (byte_eqb_neq x a), (byte_eqb_neq x c).
Qed.

Lemma transpose_injective (a c x y : byte) :
  transpose a c x = transpose a c y -> x = y.
Proof.
  intros H. apply (f_equal (transpose a c)) in H.
  now rewrite !transpose_involutive in H.
Qed.

Lemma transpose_l (a c : byte) : transpose a c a = c.
Proof. unfold transpose. now rewrite byte_eqb_refl. Qed.

Lemma transpose_r (a c : byte) : transpose a c c = a.
Proof.
  unfold transpose. destruct (Byte.byte_eq_dec c a) as [->|H].
  - now rewrite byte_eqb_refl.
  - now rewrite byte_eqb_neq, byte_eqb_refl.
Qed.

Lemma transpose_other (a c x : byte) :
  x <> a -> x <> c -> transpose a c x = x.
Proof.
  intros Ha Hc. unfold transpose. now rewrite !byte_eqb_neq.
Qed.

Lemma leaves_tmap (f : byte -> byte) (t : HuffmanTree) :
  leaves (tmap f t) = map f (leaves t).
Proof.
  induction t as [a|l IHl r IHr]; simpl; [reflexivity|].
  now rewrite map_app, IHl, IHr.
Qed.

Lemma cost_at_tmap (w : byte -> Z) (f : byte -> byte) (t : HuffmanTree) :
  forall d, cost_at w (tmap f t) d = cost_at (fun x => w (f x)) t d.
Proof.
  induction t as [a|l IHl r IHr]; intros d; simpl; [reflexivity|].
  now rewrite IHl, IHr.
Qed.

Lemma has_tmap (a c : byte) (t : HuffmanTree) (x : byte) :
  has (tmap (transpose a c) t) (transpose a c x) = has t x.
Proof.
  destruct (has t x) eqn:E.
  - apply has_In. rewrite leaves_tmap. apply in_map. now apply has_In.
  - apply has_false. apply has_false in E. rewrite leaves_tmap.
    intros Hin. apply in_map_iff in Hin. destruct Hin as (y & Hy & Hin).
    apply transpose_injective in Hy. now subst.
Qed.

Lemma depth_tmap (a c : byte) (t : HuffmanTree) (x : byte) :
  depth (tmap (transpose a c) t) (transpose a c x) = depth t x.
Proof.
  induction t as [y|l IHl r IHr]; simpl; [reflexivity|].
  now rewrite has_tmap, IHl, IHr.
Qed.

Lemma height_tmap (f : byte -> byte) (t : HuffmanTree) :
  height (tmap f t) = height t.
Proof.
  induction t as [y|l IHl r IHr]; simpl; [reflexivity|].
  now rewrite IHl, IHr.
Qed.

Lemma NoDup_tmap (a c : byte) (t : HuffmanTree) :
  NoDup (leaves t) -> NoDup (leaves (tmap (transpose a c) t)).
Proof.
  intros H. rewrite leaves_tmap. apply NoDup_map_injective; [|exact H].
  intros x y. apply transpose_injective.
Qed.

Lemma leaves_tmap_perm (a c : byte) (t : HuffmanTree) :
  NoDup (leaves t) -> In a (leaves t) -> In c (leaves t) ->
  Permutation (leaves (tmap (transpose a c) t)) (leaves t).
Proof.
  intros Hnd Ha Hc. apply NoDup_Permutation;
    [now apply NoDup_tmap | exact Hnd |].
  intros x. rewrite leaves_tmap, in_map_iff. split.
  - intros (y & <- & Hy). unfold transpose.
    destruct (Byte.eqb y a); [exact Hc|]. destruct (Byte.eqb y c); assumption.
  - intros Hx. exists (transpose a c x). split; [apply transpose_involutive|].
    unfold transpose.
    destruct (Byte.eqb x a); [exact Hc|]. destruct (Byte.eqb x c); assumption.
Qed.

(** Exchanging two leaves changes the cost by the difference of their
    weights times the difference of their depths. *)
Lemma cost_transpose (w : byte -> Z) (a c : byte) (t : HuffmanTree) :
  NoDup (leaves t) -> In a (leaves t) -> In c (leaves t) ->
  cost w (tmap (transpose a c) t) =
  cost w t + (w c - w a) * (depth t a - depth t c).
Proof.
  intros Hnd Ha Hc. unfold cost. rewrite cost_at_tmap.
  apply has_In in Ha, Hc.
  destruct (Byte.byte_eq_dec a c) as [<-|Hac].
  - rewrite (cost_at_ext w); [lia|]. intros x _. unfold transpose.
    destruct (Byte.eqb x a) eqn:E; [|reflexivity].
    apply Byte.byte_dec_bl in E. now subst.
  - rewrite (cost_at_update
               (fun x => if Byte.eqb x a then w c else w x)
               (fun x => w (transpose a c x)) c t Hnd).
    2:{ intros x Hx. unfold transpose.
        destruct (Byte.eqb x a); [reflexivity|].
        now rewrite byte_eqb_neq by exact Hx. }
    rewrite (cost_at_update w
               (fun x => if Byte.eqb x a then w c else w x) a t Hnd).
    2:{ intros x Hx. now rewrite byte_eqb_neq by exact Hx. }
    rewrite Ha, Hc, transpose_r, byte_eqb_refl.
    rewrite (byte_eqb_neq c a) by congruence. ring.
Qed.

(* ================================================================== *)
(** ** Optimality of the Huffman tree: sibling leaves *)

Lemma sib_In (a b : byte) (t : HuffmanTree) :
  sib a b t -> In a (leaves t) /\ In b (leaves t).
Proof.
  induction 1 as [| |l r _ [Ha Hb]|l r _ [Ha Hb]]; simpl;
    rewrite ?in_app_iff; simpl; tauto.
Qed.

Lemma sib_tmap (f : byte -> byte) (a b : byte) (t : HuffmanTree) :
  sib a b t -> sib (f a) (f b) (tmap f t).
Proof.
  induction 1; simpl;
    [apply sib_here | apply sib_here' | now apply sib_left | now apply sib_right].
Qed.

Lemma depth_le_height (t : HuffmanTree) (a : byte) : 0 <= depth t a <= height t.
Proof.
  induction t as [y|l IHl r IHr]; cbn [depth height]; [lia|].
  destruct (has l a); lia.
Qed.

Lemma height_nonneg (t : HuffmanTree) : 0 <= height t.
Proof. induction t; cbn [height]; lia. Qed.

Lemma depth_Node_l (l r : HuffmanTree) (a : byte) :
  In a (leaves l) -> depth (Node l r) a = 1 + depth l a.
Proof. intros H. apply has_In in H. cbn [depth]. now rewrite H. Qed.

Lemma depth_Node_r (l r : HuffmanTree) (a : byte) :
  NoDup (leaves (Node l r)) -> In a (leaves r) ->
  depth (Node l r) a = 1 + depth r a.
Proof.
  intros Hnd H. cbn [depth].
  replace (has l a) with false; [reflexivity|].
  symmetry. apply has_false. intros Hl.
  exact (NoDup_app_disjoint _ _ _ Hnd Hl H).
Qed.

(** A tree with an internal node has two sibling leaves at its greatest
    depth. *)
Lemma deepest_siblings (t : HuffmanTree) :
  NoDup (leaves t) ->
  0 < height t ->
  exists c d,
    sib c d t /\ c <> d /\ depth t c = height t /\ depth t d = height t.
Proof.
  induction t as [y|l IHl r IHr]; intros Hnd Hh; [cbn [height] in Hh; lia|].
  cbn [leaves] in Hnd.
  pose proof (NoDup_app_remove_l _ _ Hnd) as Hr.
  pose proof (NoDup_app_remove_r _ _ Hnd) as Hl.
  destruct (Z.eq_dec (height l) 0) as [El|El],
           (Z.eq_dec (height r) 0) as [Er|Er].
  - destruct l as [c|]; [|cbn [height] in El; pose proof (height_nonneg l1);
                           pose proof (height_nonneg l2); lia].
    destruct r as [d|]; [|cbn [height] in Er; pose proof (height_nonneg r1);
                           pose proof (height_nonneg r2); lia].
    exists c, d. split; [apply sib_here|]. split.
    + intros ->. simpl in Hnd. inversion Hnd as [|? ? H _]. apply H. now left.
    + cbn [depth height]. unfold has. cbn [leaves existsb].
      rewrite byte_eqb_refl. destruct (Byte.eqb d c); cbn [orb]; lia.
  - pose proof (height_nonneg r).
    destruct (IHr Hr ltac:(lia)) as (c & d & S & Hcd & Dc & Dd).
    destruct (sib_In _ _ _ S) as [Hc Hd].
    exists c, d. split; [now apply sib_right|]. split; [exact Hcd|].
    rewrite !(depth_Node_r l r) by assumption. cbn [height]. lia.
  - pose proof (height_nonneg l).
    destruct (IHl Hl ltac:(lia)) as (c & d & S & Hcd & Dc & Dd).
    destruct (sib_In _ _ _ S) as [Hc Hd].
    exists c, d. split; [now apply sib_left|]. split; [exact Hcd|].
    rewrite !(depth_Node_l l r) by assumption. cbn [height]. lia.
  - pose proof (height_nonneg l). pose proof (height_nonneg r).
    destruct (Z.le_ge_cases (height l) (height r)) as [Hle|Hle].
    + destruct (IHr Hr ltac:(lia)) as (c & d & S & Hcd & Dc & Dd).
      destruct (sib_In _ _ _ S) as [Hc Hd].
      exists c, d. split; [now apply sib_right|]. split; [exact Hcd|].
      rewrite !(depth_Node_r l r) by assumption. cbn [height]. lia.
    + destruct (IHl Hl ltac:(lia)) as (c & d & S & Hcd & Dc & Dd).
      destruct (sib_In _ _ _ S) as [Hc Hd].
      exists c, d. split; [now apply sib_left|]. split; [exact Hcd|].
      rewrite !(depth_Node_l l r) by assumption. cbn [height]. lia.
Qed.

Lemma height_pos (t : HuffmanTree) :
  (2 <= length (leaves t))%nat -> 0 < height t.
Proof.
  destruct t as [y|l r]; cbn [height leaves length]; [lia|]. intros _.
  pose proof (height_nonneg l). pose proof (height_nonneg r). lia.
Qed.

(** The exchange step: a tree in which the least symbol [a] and the
    next one [b] are siblings costs no more. *)
Lemma siblings_exchange (w : byte -> Z) (a b : byte) (t : HuffmanTree) :
  NoDup (leaves t) -> In a (leaves t) -> In b (leaves t) -> a <> b ->
  w a <= w b ->
  (forall x, In x (leaves t) -> x <> a -> w b <= w x) ->
  exists t2,
    NoDup (leaves t2) /\ Permutation (leaves t2) (leaves t) /\
    sib a b t2 /\ cost w t2 <= cost w t.
Proof.
  intros Hnd Ha Hb Hab Hwab Hmin.
  assert (Hlen : (2 <= length (leaves t))%nat).
  { destruct (leaves t) as [|x [|y l]]; simpl in *; try lia;
      intuition congruence. }
  destruct (deepest_siblings t Hnd (height_pos t Hlen))
    as (c & d & S & Hcd & Dc & Dd).
  destruct (sib_In _ _ _ S) as [Hc Hd].
  (* first exchange: [a] takes the place of [c] *)
  set (t1 := tmap (transpose a c) t).
  set (e := transpose a c d).
  assert (Hnd1 : NoDup (leaves t1)) by now apply NoDup_tmap.
  assert (P1 : Permutation (leaves t1) (leaves t))
    by now apply leaves_tmap_perm.
  assert (S1 : sib a e t1).
  { pose proof (sib_tmap (transpose a c) _ _ _ S) as H.
    now rewrite transpose_r in H. }
  assert (Hea : e <> a).
  { unfold e. intros H.
    assert (H' : transpose a c d = transpose a c c)
      by now rewrite transpose_r.
    apply transpose_injective in H'. congruence. }
  assert (De : depth t1 e = height t1).
  { unfold e, t1. now rewrite depth_tmap, height_tmap. }
  assert (C1 : cost w t1 <= cost w t).
  { unfold t1. rewrite cost_transpose by assumption.
    assert (w a <= w c).
    { destruct (Byte.byte_eq_dec c a) as [->|Hca]; [lia|].
      specialize (Hmin c Hc Hca). lia. }
    pose proof (depth_le_height t a). nia. }
  destruct (sib_In _ _ _ S1) as [Ha1 He1].
  assert (Hb1 : In b (leaves t1))
    by now apply (Permutation_in _ (Permutation_sym P1)).
  (* second exchange: [b] takes the place of the sibling of [a] *)
  exists (tmap (transpose b e) t1).
  split; [now apply NoDup_tmap|].
  split; [now rewrite leaves_tmap_perm|].
  split.
  - pose proof (sib_tmap (transpose b e) _ _ _ S1) as H.
    rewrite transpose_r, transpose_other in H by congruence. exact H.
  - rewrite cost_transpose by assumption.
    assert (w b <= w e).
    { apply Hmin; [|exact Hea]. now apply (Permutation_in _ P1). }
    pose proof (depth_le_height t1 b). nia.
Qed.

(** Merging two sibling leaves into one leaf that carries both weights
    lowers the cost by the sum of the two weights. *)
Lemma siblings_merge (a b : byte) (t : HuffmanTree) :
  sib a b t -> NoDup (leaves t) ->
  exists t',
    Permutation (b :: leaves t') (leaves t) /\
    forall (w w' : byte -> Z) d,
      w' a = w a + w b -> (forall x, x <> a -> w' x = w x) ->
      cost_at w' t' d + w a + w b = cost_at w t d.
Proof.
  induction 1 as [| |l r S IH|l r S IH]; intros Hnd.
  - exists (Leaf a). split; [simpl; apply perm_swap|].
    intros w w' d Ha _. simpl. rewrite Ha. ring.
  - exists (Leaf a). split; [reflexivity|].
    intros w w' d Ha _. simpl. rewrite Ha. ring.
  - simpl in Hnd. destruct (IH (NoDup_app_remove_r _ _ Hnd)) as (l' & P & C).
    exists (Node l' r). split; [simpl; now rewrite <- P|].
    intros w w' d Ha Hx. simpl.
    rewrite <- (C w w' (d + 1) Ha Hx).
    rewrite (cost_at_ext w w' r); [ring|].
    intros x Hin. apply Hx. intros ->.
    exact (NoDup_app_disjoint _ _ _ Hnd (proj1 (sib_In _ _ _ S)) Hin).
  - simpl in Hnd. destruct (IH (NoDup_app_remove_l _ _ Hnd)) as (r' & P & C).
    exists (Node l r'). split.
    + simpl. rewrite <- P. apply Permutation_middle.
    + intros w w' d Ha Hx. simpl.
      rewrite <- (C w w' (d + 1) Ha Hx).
      rewrite (cost_at_ext w w' l); [ring|].
      intros x Hin. apply Hx. intros ->.
      exact (NoDup_app_disjoint _ _ _ Hnd Hin (proj1 (sib_In _ _ _ S))).
Qed.

(* ================================================================== *)
(** ** Optimality of the Huffman tree: the merge loop *)

Lemma heappop_isub (sigma : byte -> HuffmanTree) (pq : list item) :
  heappop (map (isub sigma) pq) =
  match heappop pq with
  | Some (m, rest) => Some (isub sigma m, map (isub sigma) rest)
  | None => None
  end.
Proof.
  induction pq as [|x pq IH]; [reflexivity|].
  cbn [map heappop]. rewrite IH.
  destruct (heappop pq) as [[m rest]|]; [|reflexivity].
  cbn [isub fst]. now destruct (priority_leb (fst x) (fst m)).
Qed.

Lemma merge_isub (sigma : byte -> HuffmanTree) (l r : item) :
  merge (isub sigma l) (isub sigma r) = isub sigma (merge l r).
Proof.
  destruct l as [[lf li] lt], r as [[rf ri] rt]. unfold isub. simpl.
  now destruct (lf <=? rf).
Qed.

(** The merge loop looks at the priorities only: it commutes with any
    replacement of the trees the items carry. *)
Lemma huffman_loop_isub (sigma : byte -> HuffmanTree) (fuel : nat) :
  forall pq,
    huffman_loop fuel (map (isub sigma) pq) =
    match huffman_loop fuel pq with
    | Ok out => Ok (map (isub sigma) out)
    | Raise e => Raise e
    end.
Proof.
  induction fuel as [|f IH]; intros pq; cbn [huffman_loop];
    rewrite length_map; destruct (1 <? length pq)%nat; try reflexivity.
  unfold huffman_step. rewrite heappop_isub.
  destruct (heappop pq) as [[l pq1]|]; [|reflexivity].
  rewrite heappop_isub.
  destruct (heappop pq1) as [[r pq2]|]; [|reflexivity].
  unfold heappush. rewrite merge_isub.
  change (isub sigma (merge l r) :: map (isub sigma) pq2)
    with (map (isub sigma) (merge l r :: pq2)).
  apply IH.
Qed.

Lemma split_leaf_same (a b : byte) :
  split_leaf a b a = Node (Leaf a) (Leaf b).
Proof. unfold split_leaf. now rewrite byte_eqb_refl. Qed.

Lemma split_leaf_other (a b x : byte) : x <> a -> split_leaf a b x = Leaf x.
Proof. intros H. unfold split_leaf. now rewrite byte_eqb_neq. Qed.

Lemma cost_at_split (w w' : byte -> Z) (a b : byte) (t : HuffmanTree) :
  NoDup (leaves t) ->
  w' a = w a + w b -> (forall x, x <> a -> w' x = w x) ->
  forall d,
    cost_at w (sub (split_leaf a b) t) d =
    cost_at w' t d + (if has t a then w a + w b else 0).
Proof.
  intros Hnd Ha Hx. induction t as [y|l IHl r IHr]; intros d.
  - unfold has. cbn [sub leaves existsb cost_at].
    destruct (Byte.byte_eq_dec a y) as [<-|Hne].
    + rewrite split_leaf_same, byte_eqb_refl. cbn [cost_at orb].
      rewrite Ha. ring.
    + rewrite split_leaf_other by congruence.
      rewrite (byte_eqb_neq a y) by exact Hne. cbn [cost_at orb].
      rewrite Hx by congruence. ring.
  - cbn [leaves] in Hnd. cbn [sub cost_at].
    rewrite (IHl (NoDup_app_remove_r _ _ Hnd)),
            (IHr (NoDup_app_remove_l _ _ Hnd)), has_Node.
    destruct (has l a) eqn:El; cbn [orb].
    + replace (has r a) with false; [ring|].
      symmetry. apply has_false. apply has_In in El. intros Hin.
      exact (NoDup_app_disjoint _ _ _ Hnd El Hin).
    + destruct (has r a); ring.
Qed.

Lemma single_leaf (u : HuffmanTree) (a : byte) :
  Permutation (leaves u) [a] -> u = Leaf a.
Proof.
  intros P. destruct u as [y|l r].
  - simpl in P. apply Permutation_length_1 in P. now subst.
  - apply Permutation_length in P. simpl in P. rewrite length_app in P.
    pose proof (leaves_nonempty l). pose proof (leaves_nonempty r). lia.
Qed.

(** A queue of leaves: the tree the merge loop ends with costs no more
    than any tree with the same leaves. *)
Lemma huffman_loop_optimal (fuel : nat) :
  forall pq (w : byte -> Z) root,
    Forall (fun x : item => exists a, snd x = Leaf a) pq ->
    NoDup (all_leaves pq) ->
    (forall x a, In x pq -> snd x = Leaf a -> w a = fst (fst x)) ->
    (length pq <= S fuel)%nat ->
    huffman_loop fuel pq = Ok [root] ->
    forall u,
      Permutation (leaves u) (all_leaves pq) ->
      cost w (snd root) <= cost w u.
Proof.
  induction fuel as [|f IH]; intros pq w root Hleaf Hnd Hw Hlen Hloop u Pu.
  - rewrite huffman_loop_done in Hloop by lia. injection Hloop as ->.
    inversion Hleaf as [|? ? [a Ha] _]; subst.
    unfold all_leaves in Pu. simpl in Pu. rewrite Ha in *. simpl in Pu.
    apply single_leaf in Pu. subst u. lia.
  - destruct (Nat.lt_ge_cases (length pq) 2) as [Hlt|Hge].
    + rewrite huffman_loop_done in Hloop by lia. injection Hloop as ->.
      inversion Hleaf as [|? ? [a Ha] _]; subst.
      unfold all_leaves in Pu. simpl in Pu. rewrite Ha in *. simpl in Pu.
      apply single_leaf in Pu. subst u. lia.
    + destruct (huffman_step_spec pq Hge) as (l & r & rest & E & P & Fl & Fr).
      cbn [huffman_loop] in Hloop.
      replace (1 <? length pq)%nat with true in Hloop
        by (symmetry; apply Nat.ltb_lt; lia).
      rewrite E in Hloop.
      (* the two least items are leaves [a] and [b] *)
      apply (Permutation_Forall P) in Hleaf.
      inversion Hleaf as [|? ? [a Ha] Hleaf1]; subst.
      inversion Hleaf1 as [|? ? [b Hb] Hleaf2]; subst.
      pose proof (all_leaves_perm _ _ P) as PL.
      unfold all_leaves in PL at 2. cbn [flat_map] in PL.
      rewrite Ha, Hb in PL. cbn [leaves app] in PL.
      fold (all_leaves rest) in PL.
      apply (Permutation_NoDup PL) in Hnd.
      assert (Hab : a <> b).
      { intros ->. inversion Hnd as [|? ? H _]. apply H. now left. }
      assert (Har : ~ In a (all_leaves rest)).
      { inversion Hnd as [|? ? H _]. intros Hin. apply H. now right. }
      assert (Hwa : w a = fst (fst l)).
      { apply Hw; [|exact Ha]. apply (Permutation_in _ (Permutation_sym P)).
        now left. }
      assert (Hwb : w b = fst (fst r)).
      { apply Hw; [|exact Hb]. apply (Permutation_in _ (Permutation_sym P)).
        right. now left. }
      assert (Hlr : priority_le (fst l) (fst r)) by now inversion Fl.
      assert (Hle : w a <= w b) by (unfold priority_le in Hlr; lia).
      (* the queue after the step, as a queue of leaves *)
      set (p' := (fst (fst l) + fst (fst r),
                  Nat.min (snd (fst l)) (snd (fst r)))).
      set (w' := fun x => if Byte.eqb x a then w a + w b else w x).
      assert (Hw'a : w' a = w a + w b)
        by (unfold w'; now rewrite byte_eqb_refl).
      assert (Hw'x : forall x, x <> a -> w' x = w x)
        by (intros x Hx; unfold w'; now rewrite byte_eqb_neq).
      assert (Hrest : map (isub (split_leaf a b)) rest = rest).
      { rewrite <- (map_id rest) at 2. apply map_ext_in. intros x Hx.
        rewrite Forall_forall in Hleaf2. destruct (Hleaf2 x Hx) as [c Hc].
        destruct x as [px tx]. simpl in Hc. subst tx.
        unfold isub. simpl. rewrite split_leaf_other; [reflexivity|].
        intros ->. apply Har. unfold all_leaves. apply in_flat_map.
        exists (px, Leaf a). split; [exact Hx | simpl; tauto]. }
      assert (Hq : merge l r :: rest =
                   map (isub (split_leaf a b)) ((p', Leaf a) :: rest)).
      { cbn [map]. rewrite Hrest. f_equal.
        rewrite (surjective_pairing (merge l r)).
        rewrite merge_priority, (merge_tree_ordered l r Hlr), Ha, Hb.
        unfold isub. simpl. now rewrite split_leaf_same. }
      rewrite Hq, huffman_loop_isub in Hloop.
      destruct (huffman_loop_spec f ((p', Leaf a) :: rest))
        as (root' & Hloop' & Proot' & _).
      { discriminate. }
      { apply Permutation_length in P. simpl in *. lia. }
      rewrite Hloop' in Hloop. simpl in Hloop. injection Hloop as <-.
      unfold all_leaves in Proot'. cbn [flat_map snd leaves app] in Proot'.
      fold (all_leaves rest) in Proot'.
      assert (Hnd' : NoDup (a :: all_leaves rest)).
      { inversion Hnd as [|? ? _ H1]. inversion H1 as [|? ? _ H2].
        constructor; assumption. }
      assert (Hopt : forall u', Permutation (leaves u') (a :: all_leaves rest) ->
                                cost w' (snd root') <= cost w' u').
      { intros u' Pu'.
        apply (IH ((p', Leaf a) :: rest) w' root'); auto.
        - constructor; [now exists a | exact Hleaf2].
        - intros x c [<-|Hx] Hc.
          + simpl in Hc. injection Hc as <-. rewrite Hw'a. simpl. lia.
          + rewrite Hw'x.
            * apply Hw; [|exact Hc].
              apply (Permutation_in _ (Permutation_sym P)). now do 2 right.
            * intros ->. apply Har. unfold all_leaves. apply in_flat_map.
              exists x. split; [exact Hx | rewrite Hc; simpl; tauto].
        - apply Permutation_length in P. simpl in *. lia. }
      (* the cost of the tree the loop returns *)
      assert (Croot : cost w (snd (isub (split_leaf a b) root')) =
                      cost w' (snd root') + w a + w b).
      { unfold cost. cbn [isub snd].
        rewrite (cost_at_split w w' a b) by
          (auto; apply (Permutation_NoDup Proot'), Hnd').
        replace (has (snd root') a) with true; [ring|].
        symmetry. apply has_In, (Permutation_in _ Proot'). now left. }
      (* any other tree, after the exchange and the merge of [a], [b] *)
      rewrite PL in Pu.
      destruct (siblings_exchange w a b u) as (u2 & Hnd2 & P2 & S2 & C2).
      { apply (Permutation_NoDup (Permutation_sym Pu)), Hnd. }
      { apply (Permutation_in _ (Permutation_sym Pu)). now left. }
      { apply (Permutation_in _ (Permutation_sym Pu)). right. now left. }
      { exact Hab. }
      { exact Hle. }
      { intros x Hx Hxa. apply (Permutation_in _ Pu) in Hx.
        destruct Hx as [->|[->|Hx]]; [congruence | lia |].
        unfold all_leaves in Hx. apply in_flat_map in Hx.
        destruct Hx as (y & Hy & Hxy).
        rewrite Forall_forall in Hleaf2, Fr.
        destruct (Hleaf2 y Hy) as [c Hc]. rewrite Hc in Hxy. simpl in Hxy.
        destruct Hxy as [->|[]].
        rewrite (Hw y x); [|apply (Permutation_in _ (Permutation_sym P));
                            now do 2 right | exact Hc].
        specialize (Fr y Hy). unfold priority_le in Fr. lia. }
      destruct (siblings_merge a b u2 S2 Hnd2) as (u' & Pm & Cm).
      specialize (Cm w w' 0 Hw'a Hw'x). fold (cost w' u') in Cm.
      fold (cost w u2) in Cm.
      assert (Pu' : Permutation (leaves u') (a :: all_leaves rest)).
      { apply (Permutation_cons_inv (a := b)).
        rewrite Pm, P2, Pu. apply perm_swap. }
      specialize (Hopt u' Pu'). lia.
Qed.

(* ================================================================== *)
(** ** Optimality of the Huffman tree: the table and the payload *)

Lemma sum_over_app (L L' : list byte) (g : byte -> Z) :
  sum_over (L ++ L') g = sum_over L g + sum_over L' g.
Proof.
  unfold sum_over. induction L as [|x L IH]; simpl; [reflexivity|].
  rewrite IH. ring.
Qed.

Lemma sum_over_ext (L : list byte) (g g' : byte -> Z) :
  (forall x, In x L -> g x = g' x) -> sum_over L g = sum_over L g'.
Proof.
  unfold sum_over. induction L as [|x L IH]; intros H; simpl; [reflexivity|].
  rewrite (H x) by (simpl; auto). rewrite IH; [reflexivity|].
  intros y Hy. apply H. now right.
Qed.

Lemma sum_over_perm (L L' : list byte) (g : byte -> Z) :
  Permutation L L' -> sum_over L g = sum_over L' g.
Proof.
  unfold sum_over. induction 1; simpl; lia.
Qed.

Lemma cost_at_sum (w : byte -> Z) (t : HuffmanTree) :
  NoDup (leaves t) ->
  forall d,
    cost_at w t d = sum_over (leaves t) (fun x => w x * (d + depth t x)).
Proof.
  induction t as [y|l IHl r IHr]; intros Hnd d.
  - unfold sum_over. cbn [leaves fold_right cost_at depth]. ring.
  - cbn [leaves] in Hnd. cbn [cost_at leaves]. rewrite sum_over_app.
    rewrite (IHl (NoDup_app_remove_r _ _ Hnd)),
            (IHr (NoDup_app_remove_l _ _ Hnd)).
    f_equal; apply sum_over_ext; intros x Hx.
    + rewrite (depth_Node_l l r x Hx). ring.
    + rewrite (depth_Node_r l r x Hnd Hx). ring.
Qed.

Lemma paths_depth (t : HuffmanTree) (x : byte) :
  NoDup (leaves t) ->
  forall p0 p,
    In (x, p) (paths t p0) ->
    Z.of_nat (length p) = Z.of_nat (length p0) + depth t x.
Proof.
  induction t as [y|l IHl r IHr]; intros Hnd p0 p Hin.
  - simpl in Hin. destruct Hin as [H|[]]. injection H as <- <-.
    cbn [depth]. lia.
  - cbn [leaves] in Hnd. cbn [paths] in Hin. apply in_app_or in Hin.
    destruct Hin as [Hin|Hin].
    + assert (Hx : In x (leaves l))
        by (rewrite <- (paths_keys l (p0 ++ [false]));
            now apply (in_map fst) in Hin).
      rewrite (IHl (NoDup_app_remove_r _ _ Hnd) _ _ Hin), length_app.
      rewrite (depth_Node_l l r x Hx). simpl length. lia.
    + assert (Hx : In x (leaves r))
        by (rewrite <- (paths_keys r (p0 ++ [true]));
            now apply (in_map fst) in Hin).
      rewrite (IHr (NoDup_app_remove_l _ _ Hnd) _ _ Hin), length_app.
      rewrite (depth_Node_r l r x Hnd Hx). simpl length. lia.
Qed.

Lemma code_len_paths (t : HuffmanTree) (x : byte) :
  NoDup (leaves t) -> In x (leaves t) ->
  code_len (paths t []) x = depth t x.
Proof.
  intros Hnd Hx. unfold code_len.
  destruct (dict_get Byte.eqb (paths t []) x) as [p|] eqn:E.
  - apply dict_get_Some_In in E.
    rewrite (paths_depth t x Hnd [] p E). simpl. lia.
  - apply dict_get_None in E. now rewrite paths_keys in E.
Qed.

Lemma count_of_head (b : byte) (n : Z) (freqs : list (byte * Z)) :
  count_of ((b, n) :: freqs) b = n.
Proof. unfold count_of. simpl. now rewrite byte_eqb_refl. Qed.

Lemma count_of_tail (b x : byte) (n : Z) (freqs : list (byte * Z)) :
  x <> b -> count_of ((b, n) :: freqs) x = count_of freqs x.
Proof.
  intros H. unfold count_of. simpl. now rewrite byte_eqb_neq by congruence.
Qed.

Lemma runs_size_sum (table : PrefixTable) (freqs : list (byte * Z)) :
  NoDup (map fst freqs) ->
  runs_size table freqs =
  sum_over (map fst freqs) (fun b => count_of freqs b * code_len table b).
Proof.
  induction freqs as [|[b n] freqs IH]; intros Hnd; [reflexivity|].
  simpl in Hnd. inversion Hnd as [|? ? Hb Hnd']; subst.
  unfold sum_over. cbn [runs_size map fold_right fst snd].
  fold (runs_size table freqs). fold (code_len table b).
  rewrite count_of_head, (IH Hnd'). f_equal.
  apply sum_over_ext. intros x Hx.
  rewrite count_of_tail; [reflexivity|]. intros ->. contradiction.
Qed.

(** The cost of a tree under the counts of a frequency map is the number
    of bits its table spends on a buffer with those counts. *)
Lemma cost_runs_size (freqs : list (byte * Z)) (t : HuffmanTree) :
  NoDup (map fst freqs) ->
  Permutation (leaves t) (map fst freqs) ->
  cost (count_of freqs) t = runs_size (paths t []) freqs.
Proof.
  intros Hnd P.
  assert (Hndt : NoDup (leaves t))
    by now apply (Permutation_NoDup (Permutation_sym P)).
  unfold cost. rewrite (cost_at_sum _ t Hndt), (runs_size_sum _ _ Hnd).
  rewrite (sum_over_perm _ _ _ P). apply sum_over_ext. intros x Hx.
  rewrite code_len_paths; [ring | exact Hndt |].
  now apply (Permutation_in _ (Permutation_sym P)).
Qed.

Lemma initial_pq_In (freqs : list (byte * Z)) (x : item) :
  In x (initial_pq freqs) ->
  exists val freq i, x = ((freq, i), Leaf val) /\ In (val, freq) freqs.
Proof.
  unfold initial_pq, enumerate. intros H. apply in_map_iff in H.
  destruct H as ([i [val freq]] & <- & Hin).
  apply in_combine_r in Hin. eauto.
Qed.

Lemma build_huffman_tree_optimal (freqs : list (byte * Z)) (root : HuffmanTree) :
  NoDup (map fst freqs) ->
  build_huffman_tree freqs = Ok root ->
  forall u,
    Permutation (leaves u) (map fst freqs) ->
    cost (count_of freqs) root <= cost (count_of freqs) u.
Proof.
  intros Hnd Hroot u Pu.
  assert (Hne : freqs <> []) by (intros ->; discriminate).
  destruct (initial_pq_shape freqs) as (Hlen & _ & Hleaves).
  destruct (huffman_loop_spec (length (initial_pq freqs)) (initial_pq freqs))
    as (root0 & Hloop & _).
  { destruct freqs; [congruence|]. destruct (initial_pq _); discriminate. }
  { lia. }
  unfold build_huffman_tree, heapify in Hroot. rewrite Hloop in Hroot.
  simpl in Hroot. injection Hroot as <-.
  apply (huffman_loop_optimal (length (initial_pq freqs))
           (initial_pq freqs) _ root0); auto.
  - apply Forall_forall. intros x Hx.
    destruct (initial_pq_In _ _ Hx) as (val & freq & i & -> & _). now exists val.
  - now rewrite Hleaves.
  - intros x a Hx Ha.
    destruct (initial_pq_In _ _ Hx) as (val & freq & i & -> & Hin).
    simpl in Ha. injection Ha as <-. simpl. unfold count_of.
    apply (dict_get_In _ _ _ Hnd) in Hin. now rewrite Hin.
  - now rewrite Hleaves.
Qed.

(** X16: the tree [build_huffman_tree] returns is optimal: under the
    counts of the frequency map, its cost (the sum over the symbols of
    count x depth) is at most the cost of any binary tree that has the
    keys of the map as its leaves. *)
Theorem huffman_tree_optimal (freqs : list (byte * Z)) (root : HuffmanTree) :
  NoDup (map fst freqs) ->
  build_huffman_tree freqs = Ok root ->
  forall u,
    Permutation (leaves u) (map fst freqs) ->
    cost (count_of freqs) root <= cost (count_of freqs) u.
Proof. exact (build_huffman_tree_optimal freqs root). Qed.

Lemma huffman_tree_optimal_witness :
  cost (count_of [(x61, 3); (x62, 1); (x63, 1)])
       (Node (Node (Leaf x62) (Leaf x63)) (Leaf x61)) <=
  cost (count_of [(x61, 3); (x62, 1); (x63, 1)])
       (Node (Leaf x62) (Node (Leaf x61) (Leaf x63))).
Proof.
  apply (huffman_tree_optimal [(x61, 3); (x62, 1); (x63, 1)]).
  - repeat constructor; simpl; intuition discriminate.
  - vm_compute. reflexivity.
  - simpl. apply perm_swap.
Defined.

(** X17: no prefix tree over the bytes of the input encodes it in fewer
    bits than the table [compress] builds: for every binary tree whose
    leaves are the distinct bytes of [s], the encoding of [s] with the
    paths of that tree is at least as long as the payload of
    [compress]. *)
Theorem compress_payload_minimal
  (s : list byte) (table : PrefixTable) (bits : list bool)
  (u : HuffmanTree) (bits_u : list bool) :
  build_optimal_prefix_table (Counter s) = Ok table ->
  encode table s = Ok bits ->
  Permutation (leaves u) (map fst (Counter s)) ->
  encode (paths u []) s = Ok bits_u ->
  (length bits <= length bits_u)%nat.
Proof.
  intros Htable Hbits Pu Hbits_u.
  pose proof (Counter_NoDup s) as Hnd.
  assert (Hne : Counter s <> []) by (intros E; rewrite E in Htable; discriminate).
  destruct (build_optimal_prefix_table_spec (Counter s) Hnd Hne)
    as (root & Hroot & Htable' & Proot & _).
  rewrite Htable in Htable'. injection Htable' as ->.
  pose proof (runs_size_fold _ s bits [] Hbits) as H1.
  pose proof (runs_size_fold _ s bits_u [] Hbits_u) as H2.
  fold (Counter s) in H1, H2. simpl in H1, H2.
  rewrite <- (cost_runs_size _ _ Hnd Proot) in H1.
  rewrite <- (cost_runs_size _ _ Hnd Pu) in H2.
  pose proof (build_huffman_tree_optimal _ _ Hnd Hroot u Pu). lia.
Qed.

Lemma compress_payload_minimal_witness :
  (length [false; false; true; false; true; true; false; true; true] <=
   length [false; true; false; true; true; true; false; true; true; true;
           false])%nat.
Proof.
  apply (compress_payload_minimal [x62; x61; x6e; x61; x6e; x61]
           [(x62, [false; false]); (x6e, [false; true]); (x61, [true])]
           _ (Node (Leaf x62) (Node (Leaf x61) (Leaf x6e)))).
  - vm_compute. reflexivity.
  - vm_compute. reflexivity.
  - vm_compute. apply Permutation_refl.
  - vm_compute. reflexivity.
Defined.

(* ================================================================== *)
(** ** Further properties: payloads that were not produced by compress *)

Lemma embed_complete (t : HuffmanTree) : complete (embed t).
Proof. induction t; simpl; auto. Qed.

Lemma decode_loop_complete (l r : PrefixTree) (fuel : nat) :
  complete (PNode l r) ->
  forall node bits,
    complete node ->
    (2 * length bits + match node with PLeaf _ => 2 | _ => 1 end <= fuel)%nat ->
    exists out, decode_loop fuel (PNode l r) node bits = Ok out.
Proof.
  intros HR. induction fuel as [|f IH]; intros node bits Hc Hf.
  - destruct node; lia.
  - destruct node as [|data|a b]; cbv iota in Hf; simpl in Hc; [tauto| |].
    + destruct (IH (PNode l r) bits HR ltac:(cbv iota; lia)) as [out E].
      simpl. rewrite E. simpl. eauto.
    + destruct bits as [|bit bits]; simpl; [eauto|].
      apply IH.
      * destruct bit; simpl; tauto.
      * cbn [length] in Hf. destruct (if negb bit then a else b); lia.
Qed.

(** X18: [decompress] cannot tell a damaged payload from a sound one.
    Behind the table [compress] writes for an input with two distinct
    byte values (paths of at most 64 bits), every payload and every
    declared bit count decode without an error, because the trie of a
    Huffman table has no absent child. *)
Theorem decompress_accepts_any_payload
  (x : list byte) (table : PrefixTable) (h1 payload : list byte) :
  two_distinct x ->
  build_optimal_prefix_table (Counter x) = Ok table ->
  Forall (fun e => (length (snd e) <= 64)%nat) table ->
  length h1 = 8%nat ->
  exists out,
    decompress (h1 ++ be_digits 8 (Z.of_nat (length table))
                   ++ flat_map record table ++ payload) = Ok out.
Proof.
  intros H2 Htable Hall Hh1.
  destruct (compress_two_distinct x H2)
    as (root & bits & _ & (l & r & Hnode) & Hperm & Htable' & _).
  rewrite Htable in Htable'. injection Htable' as ->.
  assert (Hnd : NoDup (leaves root))
    by (apply (Permutation_NoDup (Permutation_sym Hperm)), Counter_NoDup).
  assert (Hlen256 : (length (paths root []) <= 256)%nat).
  { rewrite <- (length_map fst), paths_keys. now apply NoDup_bytes_length. }
  assert (Hfrom : from_bytes (be_digits 8 (Z.of_nat (length (paths root [])))) =
                  Z.of_nat (length (paths root []))).
  { apply from_bytes_be_digits.
    change (256 ^ Z.of_nat 8) with 18446744073709551616. lia. }
  destruct (parse_container h1
              (be_digits 8 (Z.of_nat (length (paths root []))))
              (flat_map record (paths root [])) payload)
    as (P1 & P2 & P3 & P4).
  { exact Hh1. }
  { apply length_be_digits. }
  { rewrite length_flat_map_record by exact Hall. rewrite Hfrom. lia. }
  unfold decompress. rewrite P1, P2, P3, P4.
  rewrite batched_records by exact Hall.
  rewrite recover_prefix_table_records;
    [|exact Hall | simpl; now rewrite paths_keys].
  cbn [bind app]. subst root. rewrite build_prefix_tree_paths. cbn [bind].
  unfold decode_data_bits. apply decode_loop_complete.
  - apply (embed_complete (Node l r)).
  - apply (embed_complete (Node l r)).
  - cbn [embed]. cbv iota. lia.
Qed.

Lemma decompress_accepts_any_payload_witness :
  exists out,
    decompress ([xff; xff; xff; xff; xff; xff; xff; xff]
                  ++ be_digits 8
                       (Z.of_nat (length [(x61, [false]); (x62, [true])]))
                  ++ flat_map record [(x61, [false]); (x62, [true])]
                  ++ [xde; xad; xbe; xef]) = Ok out.
Proof.
  apply (decompress_accepts_any_payload [x61; x62]).
  - exists x61, x62. simpl. intuition discriminate.
  - vm_compute. reflexivity.
  - repeat constructor; simpl; lia.
  - reflexivity.
Defined.

